(** * Semantic versions of the [version] package

    A shallow embedding of the Go package [version] (parsing, formatting,
    comparison and derivation of semantic versions) together with the
    properties its specification states about it.

    Go strings are byte sequences: they are modelled by [string], whose
    characters are the 8-bit [ascii].  A [uint64] is an [N] with its
    wrap-around at [2^64] written out.  A Go [int] result of a comparison
    is a [Z].  A method with a pointer receiver is a state transformer
    over a store of [Class] objects. *)

From Stdlib Require Import String Ascii List NArith ZArith Lia Bool PeanoNat.
Import ListNotations.

Local Open Scope string_scope.

(** ** The pieces of the Go standard library the package calls *)

(** [strings]: the functions are used with one-byte separators and with
    ASCII character sets only, so that working on bytes and working on
    runes agree (a byte of a multi-byte rune is in none of the sets). *)
Module strings.

(** [strings.Index(s, sep)] for a one-byte [sep], as the pair of what is
    before and what is after the first occurrence. *)
Fixpoint Cut (s : string) (sep : ascii) : option (string * string) :=
  match s with
  | EmptyString => None
  | String c s' =>
      if Ascii.eqb c sep then Some (EmptyString, s')
      else match Cut s' sep with
           | Some (before, after) => Some (String c before, after)
           | None => None
           end
  end.

(** [strings.SplitN(s, sep, n)] for [n >= 0]: at most [n] pieces, the last
    one being the unsplit remainder. *)
Fixpoint SplitN (s : string) (sep : ascii) (n : nat) : list string :=
  match n with
  | O => []
  | S O => [s]
  | S n' =>
      match Cut s sep with
      | None => [s]
      | Some (before, after) => before :: SplitN after sep n'
      end
  end.

(** [strings.Split(s, sep)]: all the pieces; [Split "" sep] is [[""]]. *)
Fixpoint Split (s : string) (sep : ascii) : list string :=
  match s with
  | EmptyString => [EmptyString]
  | String c s' =>
      if Ascii.eqb c sep then EmptyString :: Split s' sep
      else match Split s' sep with
           | p :: ps => String c p :: ps
           | [] => [String c EmptyString]
           end
  end.

(** [strings.ContainsRune(s, r)] for an ASCII [s]. *)
Fixpoint ContainsRune (s : string) (r : ascii) : bool :=
  match s with
  | EmptyString => false
  | String c s' => Ascii.eqb c r || ContainsRune s' r
  end.

(** [strings.ContainsAny(s, chars)]. *)
Fixpoint ContainsAny (s chars : string) : bool :=
  match s with
  | EmptyString => false
  | String c s' => ContainsRune chars c || ContainsAny s' chars
  end.

(** [strings.IndexFunc(s, f)]: [None] stands for [-1]. *)
Fixpoint IndexFunc (s : string) (f : ascii -> bool) : option nat :=
  match s with
  | EmptyString => None
  | String c s' =>
      if f c then Some O
      else match IndexFunc s' f with
           | Some i => Some (S i)
           | None => None
           end
  end.

(** [strings.TrimPrefix(s, prefix)]. *)
Definition TrimPrefix (s pfx : string) : string :=
  if String.prefix pfx s
  then substring (String.length pfx) (String.length s - String.length pfx) s
  else s.

(** [strings.Join(elems, sep)], used to state properties of [Split]. *)
Fixpoint Join (elems : list string) (sep : ascii) : string :=
  match elems with
  | [] => EmptyString
  | [p] => p
  | p :: ps => p ++ String sep (Join ps sep)
  end.

End strings.

(** [strconv.ParseUint(s, 10, 64)]: the digit loop of the library, with its
    two overflow tests.  Only base 10 and 64 bits are used. *)
Module strconv.

Inductive NumError := ErrSyntax | ErrRange.

Definition maxUint64 : N := 18446744073709551615.

Definition isDigit (c : ascii) : bool :=
  ((48 <=? N_of_ascii c) && (N_of_ascii c <=? 57))%N.

Definition digitVal (c : ascii) : N := (N_of_ascii c - 48)%N.

(** Smallest number such that [cutoff * 10 > maxUint64]. *)
Definition cutoff : N := (maxUint64 / 10 + 1)%N.

Fixpoint parseLoop (s : string) (n : N) : N + NumError :=
  match s with
  | EmptyString => inl n
  | String c s' =>
      if isDigit c then
        let d := digitVal c in
        if (cutoff <=? n)%N then inr ErrRange
        else
          let n10 := (n * 10)%N in
          let n1 := ((n10 + d) mod 2 ^ 64)%N in
          if ((n1 <? n10) || (maxUint64 <? n1))%N then inr ErrRange
          else parseLoop s' n1
      else inr ErrSyntax
  end.

Definition ParseUint (s : string) : N + NumError :=
  match s with
  | EmptyString => inr ErrSyntax
  | _ => parseLoop s 0%N
  end.

End strconv.

(** [fmt]: the verb [%d] applied to a [uint64]. *)
Module fmt.

Definition digitChar (d : N) : ascii := ascii_of_N (48 + d).

Fixpoint digits (fuel : nat) (n : N) : string :=
  match fuel with
  | O => EmptyString
  | S f =>
      (if (n <? 10)%N then EmptyString else digits f (n / 10)%N)
        ++ String (digitChar (n mod 10)%N) EmptyString
  end.

(** The decimal numeral of [n], without leading zeros. *)
Definition formatUint (n : N) : string :=
  digits (S (N.to_nat (N.log2 n))) n.

End fmt.

(** [regexp]: regular expressions with capturing groups, matched the way
    the library reports submatches: leftmost-first, every repetition greedy
    (a backtracking search that tries the longer alternative first). *)
Module regexp.

Inductive regex :=
| Chr (c : ascii)              (* one literal byte *)
| Set_ (p : ascii -> bool)     (* a character class [...] *)
| Cat (r1 r2 : regex)          (* r1 r2 *)
| Opt (r : regex)              (* r? *)
| Star (r : regex)             (* r* *)
| Group (i : nat) (r : regex). (* ( r ), the i-th capturing group *)

(** [r+] is [r r*]. *)
Definition Plus (r : regex) : regex := Cat r (Star r).

(** The submatches, by group number; a group that took no part is [""]. *)
Definition submatches := nat -> string.

Definition noSubmatch : submatches := fun _ => EmptyString.

Definition setSub (i : nat) (x : string) (m : submatches) : submatches :=
  fun j => if Nat.eqb j i then x else m j.

Definition orElse {A} (a b : option A) : option A :=
  match a with
  | Some x => Some x
  | None => b
  end.

(** What was read between the input [s] and the remainder [s']. *)
Definition consumed (s s' : string) : string :=
  substring 0 (String.length s - String.length s') s.

(** A continuation of the search: what to do with the rest of the input. *)
Definition cont := string -> submatches -> option submatches.

(** The repetition [r*], greedy: one more round of [body] first, as long as
    the round reads something, then none. [fuel] bounds the rounds by the
    length of the input. *)
Fixpoint starLoop (body : string -> submatches -> cont -> option submatches)
         (k : cont) (fuel : nat) (s : string) (m : submatches)
  : option submatches :=
  match fuel with
  | O => k s m
  | S fuel' =>
      orElse
        (body s m
              (fun s' m' =>
                 if (String.length s' <? String.length s)%nat
                 then starLoop body k fuel' s' m'
                 else None))
        (k s m)
  end.

(** [run r s m k]: match [r] at the front of [s], then hand the remainder
    and the submatches to [k]; the first success in preference order. *)
Fixpoint run (r : regex) (s : string) (m : submatches) (k : cont)
  : option submatches :=
  match r with
  | Chr c =>
      match s with
      | String a s' => if Ascii.eqb a c then k s' m else None
      | EmptyString => None
      end
  | Set_ p =>
      match s with
      | String a s' => if p a then k s' m else None
      | EmptyString => None
      end
  | Cat r1 r2 => run r1 s m (fun s' m' => run r2 s' m' k)
  | Opt r1 => orElse (run r1 s m k) (k s m)
  | Star r1 => starLoop (run r1) k (String.length s) s m
  | Group i r1 =>
      run r1 s m (fun s' m' => k s' (setSub i (consumed s s') m'))
  end.

(** [FindStringSubmatch] of the expression [^r$]: the whole input has to
    match; group 0 is the whole match. *)
Definition FindStringSubmatch (r : regex) (s : string)
  : option submatches :=
  run r s noSubmatch
      (fun s' m =>
         match s' with
         | EmptyString => Some (setSub 0 s m)
         | _ => None
         end).

End regexp.

(** The result of a call that may panic, with a value of type [P]. *)
Inductive outcome (P A : Type) : Type :=
| Returned (a : A)
| Panics (p : P).

Arguments Returned {P A} a.
Arguments Panics {P A} p.

(** ** Package [version] *)
Module version.

Import regexp.

Inductive error :=
| ErrInvalidSemVer
| ErrEmptyString
| ErrInvalidCharacters
| ErrSegmentStartsZero
| ErrInvalidMetadata
| ErrInvalidPrerelease
| ErrNum (e : strconv.NumError)            (* an error of strconv, as is *)
| ErrParsingSegment (e : strconv.NumError) (* "error parsing Class segment: ..." *)
| ErrDecode.                               (* an error of json.Unmarshal *)

(** [[0-9]] and [[0-9A-Za-z\-]]. *)
Definition isNum (c : ascii) : bool := strconv.isDigit c.

Definition isAllowed (c : ascii) : bool :=
  let n := N_of_ascii c in
  ((48 <=? n) && (n <=? 57) || (65 <=? n) && (n <=? 90)
   || (97 <=? n) && (n <=? 122) || (n =? 45))%N.

Definition identifiers (g : nat) : regex :=
  Cat (Plus (Set_ isAllowed))
      (Star (Group g (Cat (Chr ".") (Plus (Set_ isAllowed))))).

Definition semVerRegex : regex :=
  Cat (Opt (Chr "v"))
 (Cat (Group 1 (Plus (Set_ isNum)))
 (Cat (Opt (Group 2 (Cat (Chr ".") (Plus (Set_ isNum)))))
 (Cat (Opt (Group 3 (Cat (Chr ".") (Plus (Set_ isNum)))))
 (Cat (Opt (Group 4 (Cat (Chr "-") (Group 5 (identifiers 6)))))
      (Opt (Group 7 (Cat (Chr "+") (Group 8 (identifiers 9))))))))).

(** [ClassRegex], compiled from ["^" + semVerRegex + "$"]. *)
Definition ClassRegex (v : string) : option submatches :=
  FindStringSubmatch semVerRegex v.

Record Class := mkClass {
  major : N;
  minor : N;
  patch : N;
  pre : string;
  metadata : string;
  original : string
}.

Definition num : string := "0123456789".
Definition allowed : string :=
  "abcdefghijklmnopqrstuvwxyzABCDEFGHIJKLMNOPQRSTUVWXYZ-" ++ num.

(** Arithmetic of [uint64]. *)
Definition uint64 (n : N) : N := (n mod 2 ^ 64)%N.

Definition containsOnly (s comp : string) : bool :=
  match strings.IndexFunc s (fun r => negb (strings.ContainsRune comp r)) with
  | None => true
  | Some _ => false
  end.

(** [p[0] == c], for a [p] that is not empty. *)
Definition firstByteIs (p : string) (c : ascii) : bool :=
  match p with
  | String a _ => Ascii.eqb a c
  | EmptyString => false
  end.

Fixpoint validatePrereleaseParts (eParts : list string) : option error :=
  match eParts with
  | [] => None
  | p :: rest =>
      if containsOnly p num then
        if (1 <? String.length p)%nat && firstByteIs p "0"
        then Some ErrSegmentStartsZero
        else validatePrereleaseParts rest
      else if negb (containsOnly p allowed) then Some ErrInvalidPrerelease
      else validatePrereleaseParts rest
  end.

Definition validatePrerelease (p : string) : option error :=
  validatePrereleaseParts (strings.Split p ".").

Fixpoint validateMetadataParts (eParts : list string) : option error :=
  match eParts with
  | [] => None
  | p :: rest =>
      if negb (containsOnly p allowed) then Some ErrInvalidMetadata
      else validateMetadataParts rest
  end.

Definition validateMetadata (m : string) : option error :=
  validateMetadataParts (strings.Split m ".").

(** The loop of [StrictNew] over the three number segments. *)
Fixpoint checkSegments (parts : list string) : option error :=
  match parts with
  | [] => None
  | p :: rest =>
      if negb (containsOnly p num) then Some ErrInvalidCharacters
      else if (1 <? String.length p)%nat && firstByteIs p "0"
      then Some ErrSegmentStartsZero
      else checkSegments rest
  end.

(** The checks both parsers end with. *)
Definition validateExtra (sv : Class) : Class + error :=
  match (if negb (pre sv =? "")
         then validatePrerelease (pre sv) else None) with
  | Some err => inr err
  | None =>
      match (if negb (metadata sv =? "")
             then validateMetadata (metadata sv) else None) with
      | Some err => inr err
      | None => inl sv
      end
  end.

Definition StrictNew (v : string) : Class + error :=
  if (String.length v =? 0)%nat then inr ErrEmptyString
  else
    match strings.SplitN v "." 3 with
    | [p0; p1; p2] =>
        (* check for prerelease or build metadata *)
        let '(md, pr, p2) :=
          if strings.ContainsAny p2 "-+" then
            let '(md, p2) :=
              match strings.SplitN p2 "+" 2 with
              | e0 :: e1 :: _ => (e1, e0)
              | _ => (EmptyString, p2)
              end in
            match strings.SplitN p2 "-" 2 with
            | e0 :: e1 :: _ => (md, e1, e0)
            | _ => (md, EmptyString, p2)
            end
          else (EmptyString, EmptyString, p2) in
        match checkSegments [p0; p1; p2] with
        | Some err => inr err
        | None =>
            match strconv.ParseUint p0 with
            | inr e => inr (ErrNum e)
            | inl mj =>
                match strconv.ParseUint p1 with
                | inr e => inr (ErrNum e)
                | inl mn =>
                    match strconv.ParseUint p2 with
                    | inr e => inr (ErrNum e)
                    | inl pa =>
                        let sv := mkClass mj mn pa pr md v in
                        if (pre sv =? "") && (metadata sv =? "")
                        then inl sv
                        else validateExtra sv
                    end
                end
            end
        end
    | _ => inr ErrInvalidSemVer
    end.

(** An optional number segment of [New]: [0] when the group is empty. *)
Definition optSegment (g : string) : N + error :=
  if negb (g =? "") then
    match strconv.ParseUint (strings.TrimPrefix g ".") with
    | inr e => inr (ErrParsingSegment e)
    | inl n => inl n
    end
  else inl 0%N.

Definition New (v : string) : Class + error :=
  match ClassRegex v with
  | None => inr ErrInvalidSemVer
  | Some m =>
      match strconv.ParseUint (m 1%nat) with
      | inr e => inr (ErrParsingSegment e)
      | inl mj =>
          match optSegment (m 2%nat) with
          | inr err => inr err
          | inl mn =>
              match optSegment (m 3%nat) with
              | inr err => inr err
              | inl pa =>
                  validateExtra (mkClass mj mn pa (m 5%nat) (m 8%nat) v)
              end
          end
      end
  end.

(** [String()]: writing to the buffer cannot fail. *)
Definition String (v : Class) : string :=
  fmt.formatUint (major v) ++ "." ++ fmt.formatUint (minor v) ++ "."
    ++ fmt.formatUint (patch v)
    ++ (if negb (pre v =? "") then "-" ++ pre v else "")
    ++ (if negb (metadata v =? "") then "+" ++ metadata v else "").

Definition NewByArgs (major minor patch : N) (pre metadata : string)
  : Class :=
  let v := mkClass major minor patch pre metadata "" in
  mkClass major minor patch pre metadata (String v).

Definition Original (v : Class) : string := original v.
Definition Major (v : Class) : N := major v.
Definition Minor (v : Class) : N := minor v.
Definition Patch (v : Class) : N := patch v.
Definition Prerelease (v : Class) : string := pre v.
Definition Metadata (v : Class) : string := metadata v.

Definition originalVPrefix (v : Class) : string :=
  if negb (original v =? "") && (substring 0 1 (original v) =? "v")
  then substring 0 1 (original v)
  else "".

(** *** Comparison *)

Definition compareSegment (v o : N) : Z :=
  if (v <? o)%N then (-1)%Z
  else if (o <? v)%N then 1%Z
  else 0%Z.

Definition comparePrePart (s o : string) : Z :=
  (* Fast path if they are equal *)
  if s =? o then 0%Z
  else if s =? "" then (if negb (o =? "") then (-1)%Z else 1%Z)
  else if o =? "" then (if negb (s =? "") then 1%Z else (-1)%Z)
  else
    match strconv.ParseUint o, strconv.ParseUint s with
    | inr _, inr _ => if String.ltb o s then 1%Z else (-1)%Z
    | inr _, inl _ => (-1)%Z   (* o is a string and s is a number *)
    | inl _, inr _ => 1%Z      (* s is a string and o is a number *)
    | inl oi, inl si => if (oi <? si)%N then 1%Z else (-1)%Z
    end.

(** The loop [for i := 0; i < l; i++] of [comparePrerelease], started at
    [i] with [fuel = l - i] rounds to go. *)
Fixpoint comparePrereleaseLoop (sParts oPArts : list string)
         (i fuel : nat) : Z :=
  match fuel with
  | O => 0%Z
  | S fuel' =>
      let sTemp :=
        if (i <? List.length sParts)%nat
        then nth i sParts EmptyString else EmptyString in
      let otemp :=
        if (i <? List.length oPArts)%nat
        then nth i oPArts EmptyString else EmptyString in
      let d := comparePrePart sTemp otemp in
      if negb (d =? 0)%Z then d
      else comparePrereleaseLoop sParts oPArts (S i) fuel'
  end.

Definition comparePrerelease (v o : string) : Z :=
  let sParts := strings.Split v "." in
  let oPArts := strings.Split o "." in
  let sLen := List.length sParts in
  let oLen := List.length oPArts in
  let l := if (sLen <? oLen)%nat then oLen else sLen in
  comparePrereleaseLoop sParts oPArts 0 l.

Definition Compare (v o : Class) : Z :=
  let d := compareSegment (Major v) (Major o) in
  if negb (d =? 0)%Z then d
  else
    let d := compareSegment (Minor v) (Minor o) in
    if negb (d =? 0)%Z then d
    else
      let d := compareSegment (Patch v) (Patch o) in
      if negb (d =? 0)%Z then d
      else
        let ps := pre v in
        let po := Prerelease o in
        if (ps =? "") && (po =? "") then 0%Z
        else if ps =? "" then 1%Z
        else if po =? "" then (-1)%Z
        else comparePrerelease ps po.

Definition LessThan (v o : Class) : bool := (Compare v o <? 0)%Z.
Definition GreaterThan (v o : Class) : bool := (0 <? Compare v o)%Z.
Definition Equal (v o : Class) : bool := (Compare v o =? 0)%Z.

(** *** Methods that write through their receiver

    The receiver [v *Class] is an address in a store of objects; a method
    is a state transformer that returns its results. *)

Definition ptr := nat.
Definition store := ptr -> Class.
Definition M (A : Type) : Type := store -> A * store.

Definition ret {A} (a : A) : M A := fun st => (a, st).

Definition bind {A B} (c : M A) (k : A -> M B) : M B :=
  fun st => let (a, st') := c st in k a st'.

(** [*p] *)
Definition deref (p : ptr) : M Class := fun st => (st p, st).

(** [p.f] for a field or a read-only method [f] *)
Definition read {A} (p : ptr) (f : Class -> A) : M A :=
  fun st => (f (st p), st).

(** A write to the object at [p]. *)
Definition assign (p : ptr) (f : Class -> Class) : M unit :=
  fun st => (tt, fun q => if Nat.eqb q p then f (st p) else st q).

Definition with_major (n : N) (c : Class) : Class :=
  mkClass n (minor c) (patch c) (pre c) (metadata c) (original c).
Definition with_minor (n : N) (c : Class) : Class :=
  mkClass (major c) n (patch c) (pre c) (metadata c) (original c).
Definition with_patch (n : N) (c : Class) : Class :=
  mkClass (major c) (minor c) n (pre c) (metadata c) (original c).
Definition with_pre (x : string) (c : Class) : Class :=
  mkClass (major c) (minor c) (patch c) x (metadata c) (original c).
Definition with_metadata (x : string) (c : Class) : Class :=
  mkClass (major c) (minor c) (patch c) (pre c) x (original c).
Definition with_original (x : string) (c : Class) : Class :=
  mkClass (major c) (minor c) (patch c) (pre c) (metadata c) x.

Declare Scope go_scope.
Delimit Scope go_scope with go.
Notation "x <- c1 ;; c2" := (bind c1 (fun x => c2))
  (at level 61, c1 at next level, right associativity) : go_scope.
Notation "c1 ;; c2" := (bind c1 (fun _ => c2))
  (at level 61, right associativity) : go_scope.

Local Open Scope go_scope.

(** [vNext.original = v.originalVPrefix() + "" + vNext.String()] *)
Definition recomputeOriginal (v vNext : ptr) : M unit :=
  pfx <- read v originalVPrefix ;;
  str <- read vNext String ;;
  assign vNext (with_original (pfx ++ "" ++ str)).

Definition IncPatch (v : ptr) : M Class :=
  let vNext := v in   (* a copy of the pointer: the same object *)
  p <- read v pre ;;
  (if negb (p =? "") then
     assign vNext (with_metadata "") ;;
     assign vNext (with_pre "")
   else
     assign vNext (with_metadata "") ;;
     assign vNext (with_pre "") ;;
     n <- read v patch ;;
     assign vNext (with_patch (uint64 (n + 1)))) ;;
  recomputeOriginal v vNext ;;
  deref vNext.

Definition IncMinor (v : ptr) : M Class :=
  let vNext := v in
  assign vNext (with_metadata "") ;;
  assign vNext (with_pre "") ;;
  assign vNext (with_patch 0) ;;
  n <- read v minor ;;
  assign vNext (with_minor (uint64 (n + 1))) ;;
  recomputeOriginal v vNext ;;
  deref vNext.

Definition IncMajor (v : ptr) : M Class :=
  let vNext := v in
  assign vNext (with_metadata "") ;;
  assign vNext (with_pre "") ;;
  assign vNext (with_patch 0) ;;
  assign vNext (with_minor 0) ;;
  n <- read v major ;;
  assign vNext (with_major (uint64 (n + 1))) ;;
  recomputeOriginal v vNext ;;
  deref vNext.

Definition SetPrerelease (v : ptr) (prerelease : string)
  : M (Class * option error) :=
  let vNext := v in
  match (if (0 <? String.length prerelease)%nat
         then validatePrerelease prerelease else None) with
  | Some err => c <- deref vNext ;; ret (c, Some err)
  | None =>
      assign vNext (with_pre prerelease) ;;
      recomputeOriginal v vNext ;;
      c <- deref vNext ;; ret (c, None)
  end.

Definition SetMetadata (v : ptr) (metadata : string)
  : M (Class * option error) :=
  let vNext := v in
  match (if (0 <? String.length metadata)%nat
         then validateMetadata metadata else None) with
  | Some err => c <- deref vNext ;; ret (c, Some err)
  | None =>
      assign vNext (with_metadata metadata) ;;
      recomputeOriginal v vNext ;;
      c <- deref vNext ;; ret (c, None)
  end.

(** *** Decoding into the receiver *)

(** A [driver.Value] handed to [Scan]. *)
Inductive Value :=
| VNil
| VInt64 (z : Z)
| VBool (b : bool)
| VBytes (b : string)
| VString (s : string).

(** [s, _ = value.(string)] *)
Definition assertString (value : Value) : string :=
  match value with
  | VString s => s
  | _ => EmptyString
  end.

Definition copyFields (v : ptr) (temp : Class) : M unit :=
  assign v (with_major (major temp)) ;;
  assign v (with_minor (minor temp)) ;;
  assign v (with_patch (patch temp)) ;;
  assign v (with_pre (pre temp)) ;;
  assign v (with_metadata (metadata temp)) ;;
  assign v (with_original (original temp)).

Section Decoding.

(** [json.Unmarshal(b, &s)] for a string [s]: the decoded string, or
    the decoder's error. *)
Variable json_Unmarshal : string -> string + error.

Definition UnmarshalJSON (v : ptr) (b : string) : M (option error) :=
  match json_Unmarshal b with
  | inr err => ret (Some err)
  | inl s =>
      match New s with
      | inr err => ret (Some err)
      | inl temp => copyFields v temp ;; ret None
      end
  end.

End Decoding.

Definition UnmarshalText (v : ptr) (text : string) : M (option error) :=
  match New text with
  | inr err => ret (Some err)
  | inl temp => assign v (fun _ => temp) ;; ret None
  end.

Definition Scan (v : ptr) (value : Value) : M (option error) :=
  let s := assertString value in
  match New s with
  | inr err => ret (Some err)
  | inl temp => copyFields v temp ;; ret None
  end.

(** *** Encoding, and the parser that panics *)

(** [MustParse]: the parsed version, or a panic with the error of [New]. *)
Definition MustParse (v : string) : outcome error Class :=
  match New v with
  | inr err => Panics err
  | inl sv => Returned sv
  end.

Definition MarshalText (v : ptr) : M (string * option error) :=
  s <- read v String ;; ret (s, None).

(** [Value()]: the formatted version as a [driver.Value]. *)
Definition Value_ (v : ptr) : M (Value * option error) :=
  s <- read v String ;; ret (VString s, None).

Section Encoding.

(** [json.Marshal(s)] for a string [s]: the encoded bytes, or the
    encoder's error. *)
Variable json_Marshal : string -> string + error.

Definition MarshalJSON (v : ptr) : M (string + error) :=
  s <- read v String ;; ret (json_Marshal s).

End Encoding.

End version.

(** ** Package [lib] *)
Module lib.

Fixpoint contains (s : list string) (str : string) : bool :=
  match s with
  | [] => false
  | v :: rest => if v =? str then true else contains rest str
  end.

(** What [archValid] prints for a piece it drops, and for an empty list. *)
Definition ignoredMessage (tmp : string) : string :=
  "invalid architecture specification: " ++ tmp ++ ". It wioll be ignored".

Definition noArchMessage : string :=
  "No build architecture specified. Assuming local platform."
    ++ String "010" "".

Section TrimSpace.

(** [strings.TrimSpace]. *)
Variable TrimSpace : string -> string.

(** The loop of [archValid] over the pieces [al], with the list [lst]
    built and the text [out] printed so far. *)
Fixpoint archLoop (archList al lst out : list string)
  : list string * list string :=
  match al with
  | [] => (lst, out)
  | a :: rest =>
      let tmp := TrimSpace a in
      if (0 <? String.length tmp)%nat && contains archList tmp
      then archLoop archList rest (lst ++ [tmp])%list out
      else archLoop archList rest lst (out ++ [ignoredMessage tmp])%list
  end.

(** [archValid]: the list and the error it returns, and what it printed;
    or its panic. *)
Definition archValid (st : string) (archList : list string)
  : outcome string (list string * option string * list string) :=
  if (String.length (TrimSpace st) =? 0)%nat then Panics "Empty arch list"
  else
    let '(lst, out) := archLoop archList (strings.Split st ",") [] [] in
    let out :=
      if (List.length lst =? 0)%nat
      then (out ++ [noArchMessage])%list
      else out in
    Returned (lst, None, out).

End TrimSpace.

End lib.

(** ** Package [pkg] *)
Module pkg.

Definition arch : list string :=
  ["linux_amd64"; "linux_arm64"; "darwin_amd64"; "darwin_arm64"; "windows"].

Fixpoint contains (s : list string) (str : string) : bool :=
  match s with
  | [] => false
  | v :: rest => if v =? str then true else contains rest str
  end.

(** [getValidator]: the function stored under [name], [None] for the nil
    function of a missing key.  The [semver] one asks whether the pointer
    [MustParse] returned is not nil, which it never is. *)
Definition getValidator (name : string)
  : option (string -> outcome version.error bool) :=
  if name =? "none" then Some (fun st => Returned true)
  else if name =? "empty" then Some (fun st => Returned (negb (st =? "")))
  else if name =? "semver" then
    Some (fun st =>
            match version.MustParse st with
            | Panics err => Panics err
            | Returned sv => Returned true
            end)
  else None.

Section TrimSpace.

(** [strings.TrimSpace]. *)
Variable TrimSpace : string -> string.

(** The loop of [archValid] over the pieces, with the list built so far:
    the first piece that is not a known architecture ends it. *)
Fixpoint archLoop (arhList lst : list string)
  : list string * option string :=
  match arhList with
  | [] => (lst, None)
  | a :: rest =>
      let tmp := TrimSpace a in
      if (0 <? String.length tmp)%nat && contains arch tmp
      then archLoop rest (lst ++ [tmp])%list
      else ([], Some ("invalid architecture specification: " ++ tmp))
  end.

Definition archValid (st : string)
  : outcome string (list string * option string) :=
  if (String.length (TrimSpace st) =? 0)%nat then Panics "Empty arch list"
  else Returned (archLoop (strings.Split st ",") []).

End TrimSpace.

End pkg.

(** ** Notions used to state the properties *)

Import version.
Local Open Scope go_scope.

(** From here on [String] is the constructor of strings again; the method
    is [version.String]. *)
Abbreviation String := String.String (only parsing).

(** The store that holds [c] at every address. *)
Definition holding (c : Class) : store := fun _ => c.

(** The piece at position [i] as the loop of [comparePrerelease] reads it:
    [""] past the end. *)
Definition partAt (parts : list string) (i : nat) : string :=
  if (i <? List.length parts)%nat then nth i parts EmptyString
  else EmptyString.

(** The sample of the specification, in ascending precedence. *)
Definition sampleChain : list string :=
  ["1.0.0-alpha"; "1.0.0-alpha.1"; "1.0.0-alpha.beta"; "1.0.0-beta";
   "1.0.0-beta.2"; "1.0.0-beta.11"; "1.0.0-rc.1"; "1.0.0"].

(** [a] parses, and is below ([Compare] is [-1], [LessThan] holds, and
    the other way round [Compare] is [1]) every one of [rest]. *)
Definition belowAll (a : string) (rest : list string) : bool :=
  match New a with
  | inr _ => false
  | inl va =>
      forallb (fun b =>
                 match New b with
                 | inr _ => false
                 | inl vb =>
                     LessThan va vb && (Compare va vb =? -1)%Z
                     && (Compare vb va =? 1)%Z && negb (LessThan vb va)
                 end) rest
  end.

(** Every version of the list is below all the later ones. *)
Fixpoint ascending (l : list string) : bool :=
  match l with
  | [] => true
  | a :: rest => belowAll a rest && ascending rest
  end.

(** Every byte of [s] satisfies [f]. *)
Fixpoint allOf (f : ascii -> bool) (s : string) : bool :=
  match s with
  | EmptyString => true
  | String c s' => f c && allOf f s'
  end.

(** The number a string of decimal digits denotes, read after [acc]. *)
Fixpoint decValue (s : string) (acc : N) : N :=
  match s with
  | EmptyString => acc
  | String c s' => decValue s' (acc * 10 + strconv.digitVal c)%N
  end.

Fixpoint pow10 (k : nat) : N :=
  match k with
  | O => 1%N
  | S k' => (10 * pow10 k')%N
  end.

(** What [validatePrerelease] refuses with [ErrSegmentStartsZero]: an
    identifier of digits only, longer than one, that starts with [0]. *)
Definition leadingZero (p : string) : bool :=
  containsOnly p num && ((1 <? String.length p)%nat && firstByteIs p "0").

(** No identifier of the prerelease [p] is a number with a leading zero. *)
Definition noLeadingZeros (p : string) : bool :=
  forallb (fun i => negb (leadingZero i)) (strings.Split p ".").

(** A prerelease is absent, or all its identifiers are non-empty. *)
Definition identifiersNonEmpty (p : string) : bool :=
  (p =? "") || forallb (fun i => negb (i =? "")) (strings.Split p ".").

(** [Matches r x m m']: the expression [r] matches exactly [x] and turns the
    submatches [m] into [m']. *)
Inductive Matches : regexp.regex -> string -> regexp.submatches
                    -> regexp.submatches -> Prop :=
| MChr c m : Matches (regexp.Chr c) (String c "") m m
| MSet (p : ascii -> bool) c m :
    p c = true -> Matches (regexp.Set_ p) (String c "") m m
| MCat r1 r2 x y m m1 m2 :
    Matches r1 x m m1 -> Matches r2 y m1 m2 ->
    Matches (regexp.Cat r1 r2) (x ++ y) m m2
| MOptSome r x m m1 : Matches r x m m1 -> Matches (regexp.Opt r) x m m1
| MOptNone r m : Matches (regexp.Opt r) "" m m
| MStarNil r m : Matches (regexp.Star r) "" m m
| MStarCons r x y m m1 m2 :
    Matches r x m m1 -> Matches (regexp.Star r) y m1 m2 ->
    Matches (regexp.Star r) (x ++ y) m m2
| MGroup i r x m m1 :
    Matches r x m m1 -> Matches (regexp.Group i r) x m (regexp.setSub i x m1).

(** The numbers of the groups of an expression. *)
Fixpoint groups (r : regexp.regex) : list nat :=
  match r with
  | regexp.Chr _ | regexp.Set_ _ => []
  | regexp.Cat r1 r2 => groups r1 ++ groups r2
  | regexp.Opt r1 | regexp.Star r1 => groups r1
  | regexp.Group i r1 => i :: groups r1
  end.

(** A non-empty string of digits. *)
Definition numeral (d : string) : Prop :=
  d <> "" /\ allOf isNum d = true.

(** What an optional group [(\.[0-9]+)?] read, and its submatch. *)
Definition optNumber (x g : string) : Prop :=
  (x = "" /\ g = "") \/ (exists d, x = String "." d /\ numeral d /\ g = x).

(** What an optional group [(-(...))?] or [(\+(...))?] read, and the
    submatch of its inner group. *)
Definition optExtra (c : ascii) (x g : string) : Prop :=
  (x = "" /\ g = "") \/ (x = String c g /\ g <> "").

(** A string is empty or starts with a byte that is no digit. *)
Definition noDigitAhead (s : string) : Prop :=
  match s with
  | EmptyString => True
  | String c _ => strconv.isDigit c = false
  end.

(** When the search succeeds, the expression matched a prefix of the input
    and the continuation succeeded on the rest. *)
Definition soundOn (r : regexp.regex)
           (body : string -> regexp.submatches -> regexp.cont
                   -> option regexp.submatches) : Prop :=
  forall s m k res,
    body s m k = Some res ->
    exists x s' m', s = x ++ s' /\ Matches r x m m' /\ k s' m' = Some res.

(** The three numbers of [a] are below those of [b], the first that
    differs deciding. *)
Definition numLt (a b : Class) : Prop :=
  (major a < major b)%N \/
  (major a = major b /\
   ((minor a < minor b)%N \/ (minor a = minor b /\ (patch a < patch b)%N))).

Definition numEq (a b : Class) : Prop :=
  major a = major b /\ minor a = minor b /\ patch a = patch b.

(** The prerelease [p] ranks below [q]: a prerelease is below none, and
    two prereleases are ranked by [comparePrerelease]. *)
Definition preLt (p q : string) : Prop :=
  (p <> "" /\ q = "") \/
  (p <> "" /\ q <> "" /\ comparePrerelease p q = (-1)%Z).

(** The prereleases [p] and [q] are both absent, or both present with the
    same identifier at every position, [""] standing for a missing one. *)
Definition preSame (p q : string) : Prop :=
  (p = "" /\ q = "") \/
  (p <> "" /\ q <> "" /\
   forall j, nth j (strings.Split p ".") "" = nth j (strings.Split q ".") "").

(** A byte of a prerelease or of metadata: [[0-9A-Za-z-]] or a dot. *)
Definition extraByte (c : ascii) : bool := isAllowed c || Ascii.eqb c ".".

(** A byte of a version string. *)
Definition versionByte (c : ascii) : bool := extraByte c || Ascii.eqb c "+".

(** The bytes some leaf of the expression reads. *)
Fixpoint accepts (r : regexp.regex) (c : ascii) : bool :=
  match r with
  | regexp.Chr a => Ascii.eqb c a
  | regexp.Set_ p => p c
  | regexp.Cat r1 r2 => accepts r1 c || accepts r2 c
  | regexp.Opt r1 | regexp.Star r1 | regexp.Group _ r1 => accepts r1 c
  end.

(** A search that finds a match. *)
Definition succeeds (o : option regexp.submatches) : Prop :=
  exists res, o = Some res.

(** The identifiers [ids], each after a dot. *)
Fixpoint dotted (ids : list string) : string :=
  match ids with
  | [] => EmptyString
  | i :: rest => String "." (i ++ dotted rest)
  end.

(** The three numbers of a version fit in a [uint64]. *)
Definition numbersInRange (w : Class) : Prop :=
  (major w <= strconv.maxUint64)%N /\ (minor w <= strconv.maxUint64)%N /\
  (patch w <= strconv.maxUint64)%N.

(** A version as the specification has it: numbers in range, a prerelease
    that passes [validatePrerelease], metadata that passes
    [validateMetadata], and no empty identifier in either. *)
Definition wellFormed (w : Class) : Prop :=
  numbersInRange w /\
  validatePrerelease (pre w) = None /\ identifiersNonEmpty (pre w) = true /\
  validateMetadata (metadata w) = None /\
  identifiersNonEmpty (metadata w) = true.

(** A string is empty or starts with a byte that [p] refuses. *)
Definition noneAhead (p : ascii -> bool) (s : string) : Prop :=
  match s with
  | EmptyString => True
  | String c _ => p c = false
  end.

(** An optional part of a version string: nothing for the empty [x], else
    [x] after the byte [c]. *)
Definition optText (c : ascii) (x : string) : string :=
  if negb (x =? "") then String c x else "".

(** [strings.TrimSpace] on a string of ASCII bytes (tab, line feed,
    vertical tab, form feed, carriage return and space are cut from both
    ends), for the samples. *)
Definition isSpaceASCII (c : ascii) : bool :=
  let n := N_of_ascii c in
  ((9 <=? n) && (n <=? 13) || (n =? 32))%N.

Fixpoint trimLeft (s : string) : string :=
  match s with
  | EmptyString => EmptyString
  | String c s' => if isSpaceASCII c then trimLeft s' else s
  end.

Fixpoint trimRight (s : string) : string :=
  match s with
  | EmptyString => EmptyString
  | String c s' =>
      match trimRight s' with
      | EmptyString => if isSpaceASCII c then EmptyString else String c ""
      | t => String c t
      end
  end.

Definition asciiTrimSpace (s : string) : string := trimRight (trimLeft s).

(** The test of [archValid] on a trimmed piece. *)
Definition knownArch (archList : list string) (tmp : string) : bool :=
  (0 <? String.length tmp)%nat && lib.contains archList tmp.

(** The version [c] as a parser returns it from the string [s]. *)
Definition parsedAs (c : Class) (s : string) : Class :=
  mkClass (major c) (minor c) (patch c) (pre c) (metadata c) s.

(** A number as a version string has it when written without a leading
    zero: digits only, and either [0] itself or not starting with [0]. *)
Definition canonical (d : string) : Prop :=
  numeral d /\
  (d = "0" \/ exists c t, d = String.String c t /\ c <> "0"%char).

(** What may follow the patch number in a version string: nothing, or text
    that starts with [-] (a prerelease) or with [+] (metadata). *)
Definition extrasAhead (rest : string) : Prop :=
  match rest with
  | EmptyString => True
  | String.String c _ => c = "-"%char \/ c = "+"%char
  end.

(** Unfolding the store operations of a method. *)
Ltac step_store :=
  unfold IncPatch, IncMinor, IncMajor, SetPrerelease, SetMetadata,
    UnmarshalText, Scan, UnmarshalJSON, copyFields, recomputeOriginal,
    bind, ret, read, assign, deref;
  cbn [fst snd];
  rewrite ?Nat.eqb_refl.

(** * Properties *)

(** ** The library models on samples *)

Example Split_sample :
  strings.Split "alpha.1..x" "." = ["alpha"; "1"; ""; "x"] /\
  strings.Split "" "." = [""].
Proof. split; reflexivity. Qed.

Example SplitN_sample :
  strings.SplitN "1.2.3-a.b" "." 3 = ["1"; "2"; "3-a.b"] /\
  strings.SplitN "1.2" "." 3 = ["1"; "2"] /\
  strings.SplitN "3-a-b" "-" 2 = ["3"; "a-b"].
Proof. repeat split; reflexivity. Qed.

Example ParseUint_samples :
  strconv.ParseUint "007" = inl 7%N /\
  strconv.ParseUint "18446744073709551615" = inl strconv.maxUint64 /\
  strconv.ParseUint "18446744073709551616" = inr strconv.ErrRange /\
  strconv.ParseUint "" = inr strconv.ErrSyntax /\
  strconv.ParseUint "-1" = inr strconv.ErrSyntax.
Proof. repeat split; reflexivity. Qed.

Example formatUint_samples :
  fmt.formatUint 0 = "0" /\ fmt.formatUint 1203 = "1203" /\
  fmt.formatUint strconv.maxUint64 = "18446744073709551615".
Proof. repeat split; vm_compute; reflexivity. Qed.

(** The submatches of a lenient form: group 2 takes the only number
    segment after the major one, group 6 and 9 keep their last round. *)
Example ClassRegex_sample :
  option_map (fun m => List.map m (seq 0 10)) (ClassRegex "v1.2-a.b.c+d.e")
  = Some ["v1.2-a.b.c+d.e"; "1"; ".2"; ""; "-a.b.c"; "a.b.c"; ".c";
          "+d.e"; "d.e"; ".e"] /\
  ClassRegex "1.2.3.4" = None /\ ClassRegex "1.2.3-a..b" = None /\
  ClassRegex "" = None.
Proof. repeat split; vm_compute; reflexivity. Qed.

(** ** Writes through the receiver *)

Lemma assign_same (p : ptr) (f : Class -> Class) (st : store) :
  snd (assign p f st) p = f (st p).
Proof. unfold assign; simpl. now rewrite Nat.eqb_refl. Qed.

Lemma assign_other (p q : ptr) (f : Class -> Class) (st : store) :
  q <> p -> snd (assign p f st) q = st q.
Proof.
  intros Hq. unfold assign; simpl.
  apply Nat.eqb_neq in Hq. now rewrite Hq.
Qed.

(** The object [copyFields] leaves at the receiver is the parsed one. *)
Lemma copyFields_same (v : ptr) (temp : Class) (st : store) :
  snd (copyFields v temp st) v = temp.
Proof. step_store. now destruct temp. Qed.

Lemma copyFields_other (v q : ptr) (temp : Class) (st : store) :
  q <> v -> snd (copyFields v temp st) q = st q.
Proof.
  intros Hq. apply Nat.eqb_neq in Hq. step_store. now rewrite Hq.
Qed.

(** ** Derivation *)

(** C6: [IncPatch] on a version with a prerelease clears prerelease and
    metadata and keeps major, minor and patch; on a version without a
    prerelease it clears the metadata and adds one to patch (in [uint64]
    arithmetic, hence exactly one below the largest value); [1.2.3-alpha]
    becomes [1.2.3] and [1.2.3] becomes [1.2.4]. *)
Theorem IncPatch_spec (st : store) (v : ptr) :
  let c := st v in
  let r := fst (IncPatch v st) in
  (pre c <> "" ->
   pre r = "" /\ metadata r = "" /\
   major r = major c /\ minor r = minor c /\ patch r = patch c) /\
  (pre c = "" ->
   pre r = "" /\ metadata r = "" /\
   major r = major c /\ minor r = minor c /\
   patch r = uint64 (patch c + 1) /\
   ((patch c < strconv.maxUint64)%N -> patch r = (patch c + 1)%N)) /\
  (exists a, New "1.2.3-alpha" = inl a /\
             version.String (fst (IncPatch v (holding a))) = "1.2.3") /\
  (exists b, New "1.2.3" = inl b /\
             version.String (fst (IncPatch v (holding b))) = "1.2.4").
Proof.
  intros c r. subst c r.
  split; [ | split; [ | split ] ].
  - intros Hpre. apply String.eqb_neq in Hpre.
    step_store. rewrite Hpre. cbn. rewrite ?Nat.eqb_refl. cbn.
    repeat split; reflexivity.
  - intros Hpre. step_store. rewrite Hpre. cbn. rewrite ?Nat.eqb_refl. cbn.
    repeat split; try reflexivity.
    intros Hlt. unfold uint64. apply N.mod_small.
    unfold strconv.maxUint64 in Hlt.
    change (2 ^ 64)%N with 18446744073709551616%N. lia.
  - eexists. split; [ vm_compute; reflexivity | ].
    step_store. cbn. rewrite ?Nat.eqb_refl. vm_compute. reflexivity.
  - eexists. split; [ vm_compute; reflexivity | ].
    step_store. cbn. rewrite ?Nat.eqb_refl. vm_compute. reflexivity.
Qed.

Lemma IncPatch_spec_witness :
  exists a b,
    New "7.8.9-rc.1+x" = inl a /\ New "7.8.9+x" = inl b /\
    patch (fst (IncPatch 0 (holding a))) = 9%N /\
    pre (fst (IncPatch 0 (holding a))) = "" /\
    patch (fst (IncPatch 0 (holding b))) = 10%N.
Proof.
  eexists. eexists.
  split; [ vm_compute; reflexivity | ].
  split; [ vm_compute; reflexivity | ].
  pose proof (IncPatch_spec (holding (mkClass 7 8 9 "rc.1" "x" "7.8.9-rc.1+x")) 0) as Ha.
  pose proof (IncPatch_spec (holding (mkClass 7 8 9 "" "x" "7.8.9+x")) 0) as Hb.
  cbv zeta in Ha, Hb.
  destruct Ha as [Ha _]. destruct Hb as [_ [Hb _]].
  assert (Hne : pre (holding (mkClass 7 8 9 "rc.1" "x" "7.8.9-rc.1+x") 0) <> "")
    by (simpl; discriminate).
  destruct (Ha Hne) as [Hp [_ [_ [_ Hpa]]]].
  destruct (Hb eq_refl) as [_ [_ [_ [_ [_ Hinc]]]]].
  split; [ rewrite Hpa; reflexivity | ].
  split; [ exact Hp | ].
  rewrite Hinc; [ reflexivity | vm_compute; reflexivity ].
Defined.

(** After [IncPatch] the object at the receiver is the returned value: the
    result is built in the receiver itself. *)
Lemma IncPatch_receiver_is_result (st : store) (v : ptr) :
  snd (IncPatch v st) v = fst (IncPatch v st).
Proof.
  step_store. destruct (negb (pre (st v) =? "")); cbn;
    rewrite ?Nat.eqb_refl; reflexivity.
Qed.

(** C3 (the code departs from it): every derivation writes its result
    into the receiver.  On [1.2.3], after [IncPatch] the receiver holds
    patch [4], after [IncMinor] minor [3] and patch [0], after [IncMajor]
    major [2]; after [SetPrerelease("rc.1")] its prerelease is [rc.1] and
    after [SetMetadata("b7")] its metadata is [b7]. *)
Theorem derivations_write_receiver :
  exists a,
    New "1.2.3" = inl a /\
    patch a = 3%N /\
    patch (snd (IncPatch 0 (holding a)) 0) = 4%N /\
    original (snd (IncPatch 0 (holding a)) 0) = "1.2.4" /\
    minor (snd (IncMinor 0 (holding a)) 0) = 3%N /\
    patch (snd (IncMinor 0 (holding a)) 0) = 0%N /\
    major (snd (IncMajor 0 (holding a)) 0) = 2%N /\
    pre (snd (SetPrerelease 0 "rc.1" (holding a)) 0) = "rc.1" /\
    metadata (snd (SetMetadata 0 "b7" (holding a)) 0) = "b7".
Proof.
  eexists. split; [ vm_compute; reflexivity | ].
  repeat split; vm_compute; reflexivity.
Qed.

Lemma validatePrerelease_nonempty (s : string) (e : error) :
  validatePrerelease s = Some e -> (0 <? String.length s)%nat = true.
Proof. destruct s; [ discriminate | reflexivity ]. Qed.

Lemma validateMetadata_nonempty (s : string) (e : error) :
  validateMetadata s = Some e -> (0 <? String.length s)%nat = true.
Proof. destruct s; [ discriminate | reflexivity ]. Qed.

(** C9: [SetPrerelease("")] returns no error and a version without
    prerelease (the other fields of the version are kept);
    [SetPrerelease("01")] fails with [ErrSegmentStartsZero]; and when the
    validation fails, [SetPrerelease] and [SetMetadata] return the version
    as it was, with the error, and leave the store as it was. *)
Theorem SetPrerelease_spec (st : store) (v : ptr) :
  (let r := fst (SetPrerelease v "" st) in
   snd r = None /\ pre (fst r) = "" /\
   major (fst r) = major (st v) /\ minor (fst r) = minor (st v) /\
   patch (fst r) = patch (st v) /\ metadata (fst r) = metadata (st v)) /\
  SetPrerelease v "01" st = ((st v, Some ErrSegmentStartsZero), st) /\
  (forall s e, validatePrerelease s = Some e ->
               SetPrerelease v s st = ((st v, Some e), st)) /\
  (forall s e, validateMetadata s = Some e ->
               SetMetadata v s st = ((st v, Some e), st)).
Proof.
  split; [ | split; [ | split ] ].
  - step_store. cbn. rewrite ?Nat.eqb_refl. cbn. repeat split; reflexivity.
  - reflexivity.
  - intros s e H. unfold SetPrerelease.
    rewrite (validatePrerelease_nonempty s e H), H. reflexivity.
  - intros s e H. unfold SetMetadata.
    rewrite (validateMetadata_nonempty s e H), H. reflexivity.
Qed.

Lemma SetPrerelease_spec_witness :
  let a := mkClass 1 2 3 "beta" "x" "v1.2.3-beta+x" in
  SetPrerelease 0 "a.01" (holding a) = ((a, Some ErrSegmentStartsZero), holding a) /\
  SetPrerelease 0 "a_b" (holding a) = ((a, Some ErrInvalidPrerelease), holding a) /\
  SetMetadata 0 "x y" (holding a) = ((a, Some ErrInvalidMetadata), holding a).
Proof.
  intros a.
  destruct (SetPrerelease_spec (holding a) 0) as [_ [_ [Hp Hm]]].
  split; [ apply Hp; reflexivity | ].
  split; [ apply Hp; reflexivity | apply Hm; reflexivity ].
Defined.

(** ** Decoding *)

(** C10: [UnmarshalText], [Scan] and [UnmarshalJSON] hand their input (the
    text, the value as a string, the decoded JSON string) to [New]; when
    [New] (or the JSON decoder) fails they return that error and leave the
    store as it was, and when it succeeds they return no error, the
    receiver holds exactly the parsed version and no other object
    changed. *)
Theorem decoding_atomic
        (json_Unmarshal : string -> string + error) (st : store) (v : ptr) :
  (forall text,
      (forall err, New text = inr err ->
                   UnmarshalText v text st = (Some err, st)) /\
      (forall temp, New text = inl temp ->
                    fst (UnmarshalText v text st) = None /\
                    snd (UnmarshalText v text st) v = temp /\
                    forall q, q <> v ->
                              snd (UnmarshalText v text st) q = st q)) /\
  (forall value,
      (forall err, New (assertString value) = inr err ->
                   Scan v value st = (Some err, st)) /\
      (forall temp, New (assertString value) = inl temp ->
                    fst (Scan v value st) = None /\
                    snd (Scan v value st) v = temp /\
                    forall q, q <> v -> snd (Scan v value st) q = st q)) /\
  (forall b,
      (forall err, json_Unmarshal b = inr err ->
                   UnmarshalJSON json_Unmarshal v b st = (Some err, st)) /\
      (forall s err, json_Unmarshal b = inl s -> New s = inr err ->
                     UnmarshalJSON json_Unmarshal v b st = (Some err, st)) /\
      (forall s temp, json_Unmarshal b = inl s -> New s = inl temp ->
                      fst (UnmarshalJSON json_Unmarshal v b st) = None /\
                      snd (UnmarshalJSON json_Unmarshal v b st) v = temp /\
                      forall q, q <> v ->
                        snd (UnmarshalJSON json_Unmarshal v b st) q = st q)).
Proof.
  split; [ | split ].
  - intros text. split.
    + intros err H. unfold UnmarshalText. now rewrite H.
    + intros temp H. unfold UnmarshalText. rewrite H.
      split; [ reflexivity | ]. split.
      * step_store. reflexivity.
      * intros q Hq. apply Nat.eqb_neq in Hq. step_store. now rewrite Hq.
  - intros value. split.
    + intros err H. unfold Scan. now rewrite H.
    + intros temp H. unfold Scan. rewrite H.
      change (fst ((copyFields v temp ;; ret None) st)) with (@None error).
      change (snd ((copyFields v temp ;; ret None) st))
        with (snd (copyFields v temp st)).
      split; [ reflexivity | ]. split.
      * apply copyFields_same.
      * intros q Hq. now apply copyFields_other.
  - intros b. split; [ | split ].
    + intros err H. unfold UnmarshalJSON. now rewrite H.
    + intros s err Hs H. unfold UnmarshalJSON. now rewrite Hs, H.
    + intros s temp Hs H. unfold UnmarshalJSON. rewrite Hs, H.
      change (fst ((copyFields v temp ;; ret None) st)) with (@None error).
      change (snd ((copyFields v temp ;; ret None) st))
        with (snd (copyFields v temp st)).
      split; [ reflexivity | ]. split.
      * apply copyFields_same.
      * intros q Hq. now apply copyFields_other.
Qed.

Lemma decoding_atomic_witness :
  let st := holding (mkClass 9 9 9 "old" "" "9.9.9-old") in
  UnmarshalText 0 "1.2.x" st = (Some ErrInvalidSemVer, st) /\
  snd (UnmarshalText 0 "v1.2.3-rc.1" st) 0
    = mkClass 1 2 3 "rc.1" "" "v1.2.3-rc.1" /\
  Scan 0 (VInt64 7) st = (Some ErrInvalidSemVer, st) /\
  snd (Scan 0 (VString "4.5") st) 0 = mkClass 4 5 0 "" "" "4.5" /\
  UnmarshalJSON (fun b => inl b) 0 "1.0.0-01" st
    = (Some ErrSegmentStartsZero, st) /\
  snd (UnmarshalJSON (fun b => inl b) 0 "2.0.0+b" st) 0
    = mkClass 2 0 0 "" "b" "2.0.0+b".
Proof.
  intros st.
  destruct (decoding_atomic (fun b => inl b) st 0) as [Ht [Hs Hj]].
  split; [ apply (proj1 (Ht "1.2.x")); vm_compute; reflexivity | ].
  split; [ apply (proj2 (Ht "v1.2.3-rc.1")); vm_compute; reflexivity | ].
  split; [ apply (proj1 (Hs (VInt64 7))); vm_compute; reflexivity | ].
  split; [ apply (proj2 (Hs (VString "4.5"))); vm_compute; reflexivity | ].
  split.
  - apply (proj1 (proj2 (Hj "1.0.0-01")) "1.0.0-01");
      [ reflexivity | vm_compute; reflexivity ].
  - apply (proj2 (proj2 (Hj "2.0.0+b")) "2.0.0+b");
      [ reflexivity | vm_compute; reflexivity ].
Defined.

(** ** Parsing *)

(** C2, as the code has it: [StrictNew] rejects [1.2] with
    [ErrInvalidSemVer] and [01.2.3] with [ErrSegmentStartsZero]; [New]
    accepts [1.2] as [1.2.0], and it accepts a leading zero in a number
    segment too ([01.2.3], [1.02.3] and [1.2.03] are all [1.2.3]); the
    leading zero it rejects is the one of a numeric prerelease identifier
    ([1.2.3-01], with [ErrSegmentStartsZero]). *)
Theorem parse_leading_zero_and_short_forms :
  StrictNew "1.2" = inr ErrInvalidSemVer /\
  StrictNew "01.2.3" = inr ErrSegmentStartsZero /\
  New "1.2" = inl (mkClass 1 2 0 "" "" "1.2") /\
  New "01.2.3" = inl (mkClass 1 2 3 "" "" "01.2.3") /\
  New "1.02.3" = inl (mkClass 1 2 3 "" "" "1.02.3") /\
  New "1.2.03" = inl (mkClass 1 2 3 "" "" "1.2.03") /\
  New "1.2.3-01" = inr ErrSegmentStartsZero.
Proof. repeat split; vm_compute; reflexivity. Qed.

(** C2 fails as stated: the lenient parser does not reject [01.2.3]. *)
Lemma New_accepts_leading_zero :
  exists c, New "01.2.3" = inl c /\ version.String c = "1.2.3".
Proof. eexists. split; vm_compute; reflexivity. Qed.

(** C5 (the code departs from it): an empty prerelease identifier passes
    [validatePrerelease], so that [StrictNew] and [SetPrerelease] produce
    versions whose prerelease has one. *)
Theorem empty_identifier_accepted :
  validatePrerelease "a..b" = None /\
  strings.Split "a..b" "." = ["a"; ""; "b"] /\
  StrictNew "1.0.0-a..b" = inl (mkClass 1 0 0 "a..b" "" "1.0.0-a..b") /\
  (let r := fst (SetPrerelease 0 "a..b" (holding (mkClass 1 0 0 "" "" "1.0.0")))
   in snd r = None /\ pre (fst r) = "a..b").
Proof. repeat split; vm_compute; reflexivity. Qed.

(** ** Comparison of prereleases *)

Lemma partAt_nth (parts : list string) (i : nat) :
  partAt parts i = nth i parts EmptyString.
Proof.
  unfold partAt. destruct (i <? List.length parts)%nat eqn:E; [ reflexivity | ].
  apply Nat.ltb_ge in E. symmetry. now apply nth_overflow.
Qed.

Lemma comparePrereleaseLoop_unfold (sParts oPArts : list string) (i fuel : nat) :
  comparePrereleaseLoop sParts oPArts i (S fuel) =
  let d := comparePrePart (nth i sParts "") (nth i oPArts "") in
  if negb (d =? 0)%Z then d
  else comparePrereleaseLoop sParts oPArts (S i) fuel.
Proof.
  cbn [comparePrereleaseLoop]. fold (partAt sParts i) (partAt oPArts i).
  now rewrite !partAt_nth.
Qed.

Lemma comparePrePart_refl (s : string) : comparePrePart s s = 0%Z.
Proof. unfold comparePrePart. now rewrite String.eqb_refl. Qed.

Lemma comparePrePart_empty_l (o : string) :
  o <> "" -> comparePrePart "" o = (-1)%Z.
Proof.
  intros H. unfold comparePrePart.
  destruct ("" =? o) eqn:E; [ apply String.eqb_eq in E; congruence | ].
  cbn. apply String.eqb_neq in H. now rewrite H.
Qed.

Lemma comparePrePart_empty_r (s : string) :
  s <> "" -> comparePrePart s "" = 1%Z.
Proof.
  intros H. unfold comparePrePart. apply String.eqb_neq in H.
  rewrite H. reflexivity.
Qed.

(** Past a common prefix of the identifiers, the loop goes on to the first
    position where only one side has an identifier left. *)
Lemma loop_after_common_prefix (p rest : list string) (x : string) (k : nat) :
  x <> "" ->
  forall i fuel,
    (i + k = List.length p)%nat ->
    (List.length p < i + fuel)%nat ->
    comparePrereleaseLoop p (p ++ x :: rest)%list i fuel = (-1)%Z /\
    comparePrereleaseLoop (p ++ x :: rest)%list p i fuel = 1%Z.
Proof.
  intros Hx. induction k as [ | k IH ]; intros i fuel Hi Hf.
  - destruct fuel as [ | fuel ]; [ lia | ].
    rewrite !comparePrereleaseLoop_unfold.
    assert (Hi' : i = List.length p) by lia. subst i.
    rewrite (nth_overflow p) by lia.
    rewrite app_nth2 by lia. rewrite Nat.sub_diag. cbn [nth].
    rewrite comparePrePart_empty_l, comparePrePart_empty_r by assumption.
    now split.
  - destruct fuel as [ | fuel ]; [ lia | ].
    rewrite !comparePrereleaseLoop_unfold.
    rewrite app_nth1 by lia. rewrite comparePrePart_refl. cbn.
    apply IH; lia.
Qed.

Lemma compareSegment_refl (n : N) : compareSegment n n = 0%Z.
Proof. unfold compareSegment. now rewrite N.ltb_irrefl. Qed.

Lemma Compare_same_numbers (a b : Class) :
  major a = major b -> minor a = minor b -> patch a = patch b ->
  pre a <> "" -> pre b <> "" ->
  Compare a b = comparePrerelease (pre a) (pre b).
Proof.
  intros Hj Hn Hp Ha Hb. unfold Compare, Major, Minor, Patch, Prerelease.
  rewrite Hj, Hn, Hp, !compareSegment_refl. cbn.
  apply String.eqb_neq in Ha, Hb. now rewrite Ha, Hb.
Qed.

(** C1, as the code has it: when the two versions agree on major, minor
    and patch, both have a prerelease, and the identifiers of [a] are a
    proper prefix of those of [b] whose next identifier is not empty,
    [a] is the lower one; and the sample chain is in ascending order,
    every version being below all the later ones. *)
Theorem Compare_proper_prefix :
  (forall (a b : Class) (x : string) (rest : list string),
      major a = major b -> minor a = minor b -> patch a = patch b ->
      pre a <> "" -> pre b <> "" ->
      strings.Split (pre b) "." = (strings.Split (pre a) "." ++ x :: rest)%list ->
      x <> "" ->
      Compare a b = (-1)%Z /\ Compare b a = 1%Z /\
      LessThan a b = true /\ LessThan b a = false) /\
  ascending sampleChain = true.
Proof.
  split; [ | vm_compute; reflexivity ].
  intros a b x rest Hj Hn Hp Ha Hb Hsplit Hx.
  assert (Hab : Compare a b = (-1)%Z /\ Compare b a = 1%Z).
  { rewrite (Compare_same_numbers a b), (Compare_same_numbers b a)
      by (assumption || now symmetry).
    unfold comparePrerelease. rewrite Hsplit.
    set (p := strings.Split (pre a) ".").
    rewrite length_app. cbn [List.length].
    replace (List.length p <? List.length p + S (List.length rest))%nat
      with true by (symmetry; apply Nat.ltb_lt; lia).
    replace (List.length p + S (List.length rest) <? List.length p)%nat
      with false by (symmetry; apply Nat.ltb_ge; lia).
    split;
      apply (loop_after_common_prefix p rest x (List.length p) Hx 0); lia. }
  destruct Hab as [H1 H2]. unfold LessThan. rewrite H1, H2.
  repeat split; reflexivity.
Qed.

Lemma Compare_proper_prefix_witness :
  let a := mkClass 1 0 0 "rc.1" "" "1.0.0-rc.1" in
  let b := mkClass 1 0 0 "rc.1.5.x" "build" "1.0.0-rc.1.5.x+build" in
  Compare a b = (-1)%Z /\ Compare b a = 1%Z /\
  LessThan a b = true /\ LessThan b a = false.
Proof.
  intros a b.
  apply (proj1 Compare_proper_prefix a b "5" ["x"]);
    try reflexivity; discriminate.
Defined.

(** C1 fails as stated: [a] and [a.] both pass the strict parser, the
    identifiers of the first are a proper prefix of those of the second,
    and [Compare] finds the two versions equal. *)
Lemma proper_prefix_not_lower :
  exists a b,
    StrictNew "1.0.0-a" = inl a /\ StrictNew "1.0.0-a." = inl b /\
    strings.Split (pre b) "." = (strings.Split (pre a) "." ++ [""])%list /\
    Compare a b = 0%Z /\ LessThan a b = false.
Proof.
  eexists. eexists.
  split; [ vm_compute; reflexivity | ].
  split; [ vm_compute; reflexivity | ].
  repeat split; vm_compute; reflexivity.
Qed.

(** ** Decimal numerals *)

Lemma ContainsRune_num (c : ascii) :
  strings.ContainsRune num c = strconv.isDigit c.
Proof.
  destruct c as [b0 b1 b2 b3 b4 b5 b6 b7].
  destruct b0, b1, b2, b3, b4, b5, b6, b7; reflexivity.
Qed.

Lemma containsOnly_allOf (s comp : string) :
  containsOnly s comp = allOf (strings.ContainsRune comp) s.
Proof.
  unfold containsOnly. induction s as [ | c s IH ]; [ reflexivity | ].
  cbn. destruct (strings.ContainsRune comp c); cbn; [ | reflexivity ].
  destruct (strings.IndexFunc s _); exact IH.
Qed.

Lemma allOf_ext (f g : ascii -> bool) (s : string) :
  (forall c, f c = g c) -> allOf f s = allOf g s.
Proof.
  intros H. induction s as [ | c s IH ]; [ reflexivity | ].
  cbn. now rewrite H, IH.
Qed.

Lemma containsOnly_num (s : string) :
  containsOnly s num = allOf strconv.isDigit s.
Proof.
  rewrite containsOnly_allOf. apply allOf_ext, ContainsRune_num.
Qed.

Lemma digitVal_le_9 (c : ascii) :
  strconv.isDigit c = true -> (strconv.digitVal c <= 9)%N.
Proof.
  unfold strconv.isDigit, strconv.digitVal. intros H.
  apply andb_true_iff in H. destruct H as [H1 H2].
  apply N.leb_le in H1, H2. lia.
Qed.

Lemma digitVal_inj (c d : ascii) :
  strconv.isDigit c = true -> strconv.isDigit d = true ->
  strconv.digitVal c = strconv.digitVal d -> c = d.
Proof.
  unfold strconv.isDigit, strconv.digitVal. intros Hc Hd H.
  apply andb_true_iff in Hc, Hd. destruct Hc as [Hc _], Hd as [Hd _].
  apply N.leb_le in Hc, Hd.
  rewrite <- (ascii_N_embedding c), <- (ascii_N_embedding d).
  f_equal. lia.
Qed.

Lemma digitVal_pos (c : ascii) :
  strconv.isDigit c = true -> Ascii.eqb c "0" = false ->
  (1 <= strconv.digitVal c)%N.
Proof.
  unfold strconv.isDigit, strconv.digitVal. intros Hc Hz.
  apply andb_true_iff in Hc. destruct Hc as [Hc _]. apply N.leb_le in Hc.
  apply Ascii.eqb_neq in Hz.
  assert (N_of_ascii c <> 48%N).
  { intros E. apply Hz. rewrite <- (ascii_N_embedding c), E. reflexivity. }
  lia.
Qed.

Lemma pow10_pos (k : nat) : (0 < pow10 k)%N.
Proof. induction k; cbn [pow10]; lia. Qed.

Lemma pow10_mono (j k : nat) : (j <= k)%nat -> (pow10 j <= pow10 k)%N.
Proof.
  induction 1 as [ | k _ IH ]; [ lia | ].
  cbn [pow10]. pose proof (pow10_pos k). lia.
Qed.

Lemma decValue_bounds (s : string) :
  allOf strconv.isDigit s = true ->
  forall a,
    (a * pow10 (String.length s) <= decValue s a
     /\ decValue s a < (a + 1) * pow10 (String.length s))%N.
Proof.
  induction s as [ | c s IH ]; intros H a.
  - cbn. lia.
  - cbn in H. apply andb_true_iff in H. destruct H as [Hc Hs].
    specialize (IH Hs (a * 10 + strconv.digitVal c)%N).
    pose proof (digitVal_le_9 c Hc).
    cbn [decValue String.length pow10].
    pose proof (pow10_pos (String.length s)). nia.
Qed.

(** Two digit strings of one length that denote one number are equal. *)
Lemma decValue_inj_same_length (s : string) :
  forall o a b,
    allOf strconv.isDigit s = true -> allOf strconv.isDigit o = true ->
    String.length s = String.length o ->
    decValue s a = decValue o b -> a = b /\ s = o.
Proof.
  induction s as [ | c s IH ]; intros [ | d o ] a b Hs Ho Hlen Hval;
    try discriminate.
  - now split.
  - cbn in Hs, Ho. apply andb_true_iff in Hs, Ho.
    destruct Hs as [Hc Hs], Ho as [Hd Ho].
    cbn in Hlen, Hval. injection Hlen as Hlen.
    destruct (IH o _ _ Hs Ho Hlen Hval) as [Hab Hso].
    pose proof (digitVal_le_9 c Hc). pose proof (digitVal_le_9 d Hd).
    assert (a = b) by lia.
    assert (strconv.digitVal c = strconv.digitVal d) by lia.
    split; [ assumption | ].
    f_equal; [ now apply digitVal_inj | assumption ].
Qed.

(** A numeral without leading zero is at least [10^(length - 1)], unless
    it is one digit long. *)
Lemma decValue_lower (c : ascii) (s : string) :
  allOf strconv.isDigit (String c s) = true ->
  leadingZero (String c s) = false ->
  s <> "" ->
  (pow10 (String.length s) <= decValue (String c s) 0)%N.
Proof.
  intros H Hz Hne. unfold leadingZero in Hz.
  rewrite containsOnly_num, H in Hz.
  cbn [andb firstByteIs String.length] in Hz.
  assert (Hl : (1 <? S (String.length s))%nat = true)
    by (destruct s; [ congruence | reflexivity ]).
  rewrite Hl in Hz. cbn [andb] in Hz.
  cbn [allOf] in H. apply andb_true_iff in H. destruct H as [Hc Hs].
  pose proof (digitVal_pos c Hc Hz).
  change (decValue (String c s) 0)
    with (decValue s (0 * 10 + strconv.digitVal c)).
  pose proof (decValue_bounds s Hs (0 * 10 + strconv.digitVal c)) as [Hlo _].
  pose proof (pow10_pos (String.length s)). nia.
Qed.

(** Numerals without leading zeros denote different numbers. *)
Lemma decValue_inj (s o : string) :
  allOf strconv.isDigit s = true -> allOf strconv.isDigit o = true ->
  s <> "" -> o <> "" ->
  leadingZero s = false -> leadingZero o = false ->
  decValue s 0 = decValue o 0 -> s = o.
Proof.
  intros Hs Ho Hsn Hon Hsz Hoz Hval.
  assert (Hlen : String.length s = String.length o).
  { destruct (Nat.lt_trichotomy (String.length s) (String.length o))
      as [Hlt | [Heq | Hgt]]; [ exfalso | assumption | exfalso ].
    - destruct o as [ | d o ]; [ congruence | ].
      pose proof (decValue_bounds s Hs 0) as [_ Hup].
      assert (o <> "")
        by (destruct o; [ destruct s; [ congruence | cbn in Hlt; lia ]
                        | discriminate ]).
      pose proof (decValue_lower d o Ho Hoz H).
      pose proof (pow10_mono (String.length s) (String.length o)).
      cbn in Hlt. lia.
    - destruct s as [ | c s ]; [ congruence | ].
      pose proof (decValue_bounds o Ho 0) as [_ Hup].
      assert (s <> "")
        by (destruct s; [ destruct o; [ congruence | cbn in Hgt; lia ]
                        | discriminate ]).
      pose proof (decValue_lower c s Hs Hsz H).
      pose proof (pow10_mono (String.length o) (String.length s)).
      cbn in Hgt. lia. }
  now apply (decValue_inj_same_length s o 0%N 0%N).
Qed.

(** What [ParseUint] accepts is a non-empty string of digits, and the
    number it returns is the one the digits denote. *)
Lemma parseLoop_value (s : string) :
  forall a n,
    strconv.parseLoop s a = inl n ->
    allOf strconv.isDigit s = true /\ n = decValue s a.
Proof.
  induction s as [ | c s IH ]; intros a n H.
  - cbn in H. injection H as <-. now split.
  - cbn [strconv.parseLoop] in H.
    destruct (strconv.isDigit c) eqn:Hc; [ | discriminate ].
    destruct (strconv.cutoff <=? a)%N eqn:Hcut; [ discriminate | ].
    cbv zeta in H.
    set (n1 := ((a * 10 + strconv.digitVal c) mod 2 ^ 64)%N) in H.
    destruct ((n1 <? a * 10) || (strconv.maxUint64 <? n1))%N eqn:Hov;
      [ discriminate | ].
    apply orb_false_iff in Hov. destruct Hov as [Hov _].
    apply N.ltb_ge in Hov. apply N.leb_gt in Hcut.
    pose proof (digitVal_le_9 c Hc) as Hd.
    assert (Hsmall : (a * 10 + strconv.digitVal c < 2 ^ 64)%N).
    { destruct (N.lt_ge_cases (a * 10 + strconv.digitVal c) (2 ^ 64))
        as [Hlt | Hge]; [ assumption | exfalso ].
      assert (Hn1 : n1 = (a * 10 + strconv.digitVal c - 2 ^ 64)%N).
      { subst n1. symmetry. apply N.mod_unique with (q := 1%N).
        - unfold strconv.cutoff, strconv.maxUint64 in Hcut.
          change (2 ^ 64)%N with 18446744073709551616%N in *.
          change (18446744073709551615 / 10 + 1)%N
            with 1844674407370955162%N in Hcut. lia.
        - lia. }
      change (2 ^ 64)%N with 18446744073709551616%N in *. lia. }
    assert (Hn1 : n1 = (a * 10 + strconv.digitVal c)%N)
      by (subst n1; now apply N.mod_small).
    rewrite Hn1 in H. destruct (IH _ _ H) as [Hs Hn].
    cbn [allOf decValue]. now rewrite Hc, Hs.
Qed.

Lemma ParseUint_value (s : string) (n : N) :
  strconv.ParseUint s = inl n ->
  s <> "" /\ allOf strconv.isDigit s = true /\ n = decValue s 0.
Proof.
  destruct s as [ | c s ]; [ discriminate | ].
  intros H. split; [ discriminate | ].
  now apply parseLoop_value.
Qed.

(** ** Antisymmetry *)

Lemma ltb_antisym (s o : string) :
  s <> o -> String.ltb o s = negb (String.ltb s o).
Proof.
  intros H. unfold String.ltb. rewrite (String.compare_antisym o s).
  destruct (String.compare s o) eqn:E; try reflexivity.
  apply String.compare_eq_iff in E. contradiction.
Qed.

Lemma comparePrePart_antisym (s o : string) :
  leadingZero s = false -> leadingZero o = false ->
  comparePrePart s o = (- comparePrePart o s)%Z.
Proof.
  intros Hs Ho. unfold comparePrePart.
  rewrite (String.eqb_sym o s).
  destruct (s =? o) eqn:Eso; [ reflexivity | ].
  apply String.eqb_neq in Eso.
  destruct (s =? "") eqn:Es.
  { apply String.eqb_eq in Es. subst s.
    destruct (o =? "") eqn:Eo; [ | reflexivity ].
    apply String.eqb_eq in Eo. congruence. }
  destruct (o =? "") eqn:Eo; [ reflexivity | ].
  cbn [negb].
  destruct (strconv.ParseUint o) as [oi | eo] eqn:Po,
           (strconv.ParseUint s) as [si | es] eqn:Ps; try reflexivity.
  - apply ParseUint_value in Po, Ps.
    destruct Po as [Hon [Hod Hov]], Ps as [Hsn [Hsd Hsv]].
    assert (si <> oi).
    { intros E. apply Eso. apply decValue_inj; try assumption. congruence. }
    destruct (oi <? si)%N eqn:E1, (si <? oi)%N eqn:E2; try reflexivity;
      [ apply N.ltb_lt in E1, E2 | apply N.ltb_ge in E1, E2 ]; lia.
  - rewrite (ltb_antisym s o Eso). now destruct (String.ltb s o).
Qed.

Lemma leadingZero_nth (parts : list string) (i : nat) :
  forallb (fun p => negb (leadingZero p)) parts = true ->
  leadingZero (nth i parts "") = false.
Proof.
  intros H. destruct (Nat.lt_ge_cases i (List.length parts)) as [Hlt | Hge].
  - rewrite forallb_forall in H.
    apply negb_true_iff, H, nth_In, Hlt.
  - now rewrite nth_overflow.
Qed.

Lemma comparePrereleaseLoop_antisym (sParts oParts : list string) :
  forallb (fun p => negb (leadingZero p)) sParts = true ->
  forallb (fun p => negb (leadingZero p)) oParts = true ->
  forall fuel i,
    comparePrereleaseLoop sParts oParts i fuel
    = (- comparePrereleaseLoop oParts sParts i fuel)%Z.
Proof.
  intros Hs Ho. induction fuel as [ | fuel IH ]; intros i; [ reflexivity | ].
  rewrite !comparePrereleaseLoop_unfold. cbv zeta.
  rewrite (comparePrePart_antisym (nth i sParts "") (nth i oParts ""))
    by now apply leadingZero_nth.
  destruct (comparePrePart (nth i oParts "") (nth i sParts "")) eqn:E;
    cbn; [ apply IH | reflexivity | reflexivity ].
Qed.

Lemma comparePrerelease_antisym (v o : string) :
  noLeadingZeros v = true -> noLeadingZeros o = true ->
  comparePrerelease v o = (- comparePrerelease o v)%Z.
Proof.
  intros Hv Ho. unfold comparePrerelease. cbv zeta.
  set (sParts := strings.Split v "."). set (oParts := strings.Split o ".").
  replace (if (List.length oParts <? List.length sParts)%nat
           then List.length sParts else List.length oParts)
    with (if (List.length sParts <? List.length oParts)%nat
          then List.length oParts else List.length sParts).
  - now apply comparePrereleaseLoop_antisym.
  - destruct (List.length sParts <? List.length oParts)%nat eqn:E1,
             (List.length oParts <? List.length sParts)%nat eqn:E2;
      try reflexivity;
      [ apply Nat.ltb_lt in E1, E2 | apply Nat.ltb_ge in E1, E2 ]; lia.
Qed.

Lemma compareSegment_antisym (v o : N) :
  compareSegment v o = (- compareSegment o v)%Z.
Proof.
  unfold compareSegment.
  destruct (v <? o)%N eqn:E1, (o <? v)%N eqn:E2; try reflexivity.
  apply N.ltb_lt in E1, E2. lia.
Qed.

Lemma validatePrerelease_noLeadingZeros (p : string) :
  validatePrerelease p = None -> noLeadingZeros p = true.
Proof.
  unfold validatePrerelease, noLeadingZeros.
  induction (strings.Split p ".") as [ | i parts IH ]; [ reflexivity | ].
  cbn [validatePrereleaseParts forallb]. unfold leadingZero at 1.
  destruct (containsOnly i num).
  - destruct ((1 <? String.length i)%nat && firstByteIs i "0");
      [ discriminate | ]. intros H. cbn. now apply IH.
  - destruct (negb (containsOnly i allowed)); [ discriminate | ].
    intros H. cbn. now apply IH.
Qed.

Lemma comparePrereleaseLoop_refl (parts : list string) :
  forall fuel i, comparePrereleaseLoop parts parts i fuel = 0%Z.
Proof.
  induction fuel as [ | fuel IH ]; intros i; [ reflexivity | ].
  rewrite comparePrereleaseLoop_unfold, comparePrePart_refl. cbn. apply IH.
Qed.

Lemma Compare_refl (v : Class) : Compare v v = 0%Z.
Proof.
  unfold Compare, Major, Minor, Patch, Prerelease.
  rewrite !compareSegment_refl. cbn.
  destruct (pre v =? ""); [ reflexivity | ]. cbn.
  apply comparePrereleaseLoop_refl.
Qed.

Lemma Compare_antisym (a b : Class) :
  noLeadingZeros (pre a) = true -> noLeadingZeros (pre b) = true ->
  Compare a b = (- Compare b a)%Z.
Proof.
  intros Ha Hb. unfold Compare, Major, Minor, Patch, Prerelease. cbv zeta.
  rewrite (compareSegment_antisym (major a) (major b)).
  destruct (compareSegment (major b) (major a)); cbn; try reflexivity.
  rewrite (compareSegment_antisym (minor a) (minor b)).
  destruct (compareSegment (minor b) (minor a)); cbn; try reflexivity.
  rewrite (compareSegment_antisym (patch a) (patch b)).
  destruct (compareSegment (patch b) (patch a)); cbn; try reflexivity.
  destruct (pre a =? ""), (pre b =? ""); cbn; try reflexivity.
  now apply comparePrerelease_antisym.
Qed.

(** C7, as the code has it: [Compare(v, v)] is [0] for every version, and
    [Compare(a, b)] is [-Compare(b, a)] for every two versions none of
    whose prerelease identifiers is a number with a leading zero (which
    holds of every prerelease that [validatePrerelease] accepts). *)
Theorem Compare_reflexive_antisymmetric :
  (forall v, Compare v v = 0%Z) /\
  (forall a b,
      noLeadingZeros (pre a) = true -> noLeadingZeros (pre b) = true ->
      Compare a b = (- Compare b a)%Z) /\
  (forall p, validatePrerelease p = None -> noLeadingZeros p = true).
Proof.
  split; [ exact Compare_refl | ].
  split; [ exact Compare_antisym | exact validatePrerelease_noLeadingZeros ].
Qed.

Lemma Compare_reflexive_antisymmetric_witness :
  let a := mkClass 1 0 0 "rc.2.x" "" "1.0.0-rc.2.x" in
  let b := mkClass 1 0 0 "rc.10" "m" "1.0.0-rc.10+m" in
  Compare a b = (-1)%Z /\ Compare a b = (- Compare b a)%Z.
Proof.
  intros a b. split; [ reflexivity | ].
  apply (proj1 (proj2 Compare_reflexive_antisymmetric) a b);
    apply (proj2 (proj2 Compare_reflexive_antisymmetric)); reflexivity.
Defined.

(** C7 fails as stated: [1] and [01] are different identifiers that denote
    the same number, and each of the two versions is found lower than
    the other. *)
Lemma Compare_not_antisymmetric :
  let a := NewByArgs 1 0 0 "1" "" in
  let b := NewByArgs 1 0 0 "01" "" in
  Compare a b = (-1)%Z /\ Compare b a = (-1)%Z.
Proof. split; vm_compute; reflexivity. Qed.

(** ** Equality *)

Lemma comparePrePart_zero (s o : string) :
  comparePrePart s o = 0%Z -> s = o.
Proof.
  unfold comparePrePart.
  destruct (s =? o) eqn:E; [ intros _; now apply String.eqb_eq | ].
  destruct (s =? ""); [ destruct (negb (o =? "")); discriminate | ].
  destruct (o =? ""); [ discriminate | ].
  destruct (strconv.ParseUint o), (strconv.ParseUint s);
    try discriminate.
  - destruct (_ <? _)%N; discriminate.
  - destruct (String.ltb o s); discriminate.
Qed.

Lemma compareSegment_zero (v o : N) : compareSegment v o = 0%Z -> v = o.
Proof.
  unfold compareSegment.
  destruct (v <? o)%N eqn:E1; [ discriminate | ].
  destruct (o <? v)%N eqn:E2; [ discriminate | ].
  apply N.ltb_ge in E1, E2. lia.
Qed.

Lemma comparePrereleaseLoop_zero (sParts oParts : list string) :
  forall fuel i,
    comparePrereleaseLoop sParts oParts i fuel = 0%Z ->
    forall j, (i <= j < i + fuel)%nat ->
              nth j sParts "" = nth j oParts "".
Proof.
  induction fuel as [ | fuel IH ]; intros i H j Hj; [ lia | ].
  rewrite comparePrereleaseLoop_unfold in H. cbv zeta in H.
  destruct (comparePrePart (nth i sParts "") (nth i oParts "")) eqn:E;
    cbn in H; try discriminate.
  destruct (Nat.eq_dec j i) as [-> | Hne].
  - now apply comparePrePart_zero.
  - apply (IH (S i) H). lia.
Qed.

(** Lists of non-empty strings that agree at every position, [""] standing
    for a missing one, are equal. *)
Lemma padded_eq (l1 l2 : list string) :
  forallb (fun i => negb (i =? "")) l1 = true ->
  forallb (fun i => negb (i =? "")) l2 = true ->
  (forall j, (j < Nat.max (List.length l1) (List.length l2))%nat ->
             nth j l1 "" = nth j l2 "") ->
  l1 = l2.
Proof.
  intros H1 H2 H.
  assert (Hin : forall l j,
             forallb (fun i => negb (i =? "")) l = true ->
             (j < List.length l)%nat -> nth j l "" <> "").
  { intros l j Hl Hj. rewrite forallb_forall in Hl.
    specialize (Hl _ (nth_In l "" Hj)).
    apply negb_true_iff in Hl. now apply String.eqb_neq. }
  assert (Hlen : List.length l1 = List.length l2).
  { destruct (Nat.lt_trichotomy (List.length l1) (List.length l2))
      as [Hlt | [Heq | Hgt]]; [ exfalso | assumption | exfalso ].
    - apply (Hin l2 (List.length l1) H2 Hlt).
      rewrite <- H by lia. now apply nth_overflow.
    - apply (Hin l1 (List.length l2) H1 Hgt).
      rewrite H by lia. now apply nth_overflow. }
  apply (nth_ext l1 l2 "" "" Hlen). intros j Hj. apply H. lia.
Qed.

Lemma Split_not_nil (s : string) (sep : ascii) : strings.Split s sep <> [].
Proof.
  destruct s as [ | c s ]; cbn; [ discriminate | ].
  destruct (Ascii.eqb c sep); [ discriminate | ].
  destruct (strings.Split s sep); discriminate.
Qed.

(** Joining the pieces gives the string back. *)
Lemma Join_Split (s : string) (sep : ascii) :
  strings.Join (strings.Split s sep) sep = s.
Proof.
  induction s as [ | c s IH ]; [ reflexivity | ].
  cbn [strings.Split].
  pose proof (Split_not_nil s sep) as Hne.
  destruct (Ascii.eqb c sep) eqn:E.
  - apply Ascii.eqb_eq in E. subst c.
    destruct (strings.Split s sep) as [ | p ps ]; [ congruence | ].
    cbn [strings.Join] in *. cbn. now rewrite IH.
  - destruct (strings.Split s sep) as [ | p ps ]; [ congruence | ].
    destruct ps as [ | q ps ]; cbn [strings.Join] in *; cbn; now rewrite IH.
Qed.

Lemma Split_inj (s t : string) (sep : ascii) :
  strings.Split s sep = strings.Split t sep -> s = t.
Proof.
  intros H. rewrite <- (Join_Split s sep), <- (Join_Split t sep).
  now rewrite H.
Qed.

Lemma comparePrerelease_zero (v o : string) :
  forallb (fun i => negb (i =? "")) (strings.Split v ".") = true ->
  forallb (fun i => negb (i =? "")) (strings.Split o ".") = true ->
  comparePrerelease v o = 0%Z -> v = o.
Proof.
  intros Hv Ho H. unfold comparePrerelease in H. cbv zeta in H.
  apply (Split_inj v o "."). apply padded_eq; try assumption.
  intros j Hj.
  apply (comparePrereleaseLoop_zero _ _ _ 0 H). split; [ lia | ].
  cbn [Nat.add].
  destruct (_ <? _)%nat eqn:E;
    [ apply Nat.ltb_lt in E | apply Nat.ltb_ge in E ]; lia.
Qed.

Lemma Equal_of_fields (a b : Class) :
  major a = major b -> minor a = minor b -> patch a = patch b ->
  pre a = pre b -> Equal a b = true.
Proof.
  intros Hj Hn Hp Hpre. unfold Equal, Compare, Major, Minor, Patch, Prerelease.
  rewrite Hj, Hn, Hp, Hpre, !compareSegment_refl. cbn.
  destruct (pre b =? ""); [ reflexivity | ]. cbn.
  unfold comparePrerelease. now rewrite comparePrereleaseLoop_refl.
Qed.

Lemma fields_of_Equal (a b : Class) :
  identifiersNonEmpty (pre a) = true -> identifiersNonEmpty (pre b) = true ->
  Equal a b = true ->
  major a = major b /\ minor a = minor b /\ patch a = patch b /\
  pre a = pre b.
Proof.
  unfold identifiersNonEmpty, Equal, Compare, Major, Minor, Patch, Prerelease.
  intros Ha Hb H. apply Z.eqb_eq in H. cbv zeta in H.
  destruct (compareSegment (major a) (major b)) eqn:Ej;
    cbn in H; try discriminate.
  destruct (compareSegment (minor a) (minor b)) eqn:En;
    cbn in H; try discriminate.
  destruct (compareSegment (patch a) (patch b)) eqn:Ep;
    cbn in H; try discriminate.
  apply compareSegment_zero in Ej, En, Ep.
  repeat (split; [ assumption | ]).
  destruct (pre a =? "") eqn:Ea, (pre b =? "") eqn:Eb; cbn in H, Ha, Hb;
    try discriminate.
  - apply String.eqb_eq in Ea, Eb. congruence.
  - now apply comparePrerelease_zero.
Qed.

(** [Compare] never reads the metadata. *)
Lemma Compare_metadata (a b : Class) (m n : string) :
  Compare (with_metadata m a) (with_metadata n b) = Compare a b.
Proof. reflexivity. Qed.

(** C8, as the code has it: versions whose major, minor, patch and
    prerelease match are [Equal]; conversely, [Equal] versions match on
    these fields when no prerelease identifier of either is empty; the
    metadata of neither side has any effect on [Equal]; and [1.0.0+a] and
    [1.0.0+b] parse to [Equal] versions. *)
Theorem Equal_fields_match :
  (forall a b,
      major a = major b -> minor a = minor b -> patch a = patch b ->
      pre a = pre b -> Equal a b = true) /\
  (forall a b,
      identifiersNonEmpty (pre a) = true ->
      identifiersNonEmpty (pre b) = true ->
      Equal a b = true ->
      major a = major b /\ minor a = minor b /\ patch a = patch b /\
      pre a = pre b) /\
  (forall a b m n,
      Equal (with_metadata m a) (with_metadata n b) = Equal a b) /\
  (exists a b, New "1.0.0+a" = inl a /\ New "1.0.0+b" = inl b /\
               metadata a <> metadata b /\ Equal a b = true).
Proof.
  split; [ exact Equal_of_fields | ].
  split; [ exact fields_of_Equal | ].
  split; [ intros a b m n; unfold Equal; now rewrite Compare_metadata | ].
  eexists. eexists.
  split; [ vm_compute; reflexivity | ].
  split; [ vm_compute; reflexivity | ].
  split; [ discriminate | reflexivity ].
Qed.

Lemma Equal_fields_match_witness :
  let a := mkClass 3 1 4 "rc.1" "linux" "3.1.4-rc.1+linux" in
  let b := mkClass 3 1 4 "rc.1" "darwin" "v3.1.4-rc.1+darwin" in
  Equal a b = true /\
  (major a = major b /\ minor a = minor b /\ patch a = patch b /\
   pre a = pre b).
Proof.
  intros a b.
  assert (H : Equal a b = true)
    by (apply (proj1 Equal_fields_match); reflexivity).
  split; [ exact H | ].
  apply (proj1 (proj2 Equal_fields_match) a b); [ reflexivity | reflexivity | exact H ].
Defined.

(** C8 fails as stated: [a] and [a.] both pass the strict parser, and the
    two versions are [Equal] although their prereleases differ. *)
Lemma Equal_with_different_prerelease :
  exists a b,
    StrictNew "1.0.0-a" = inl a /\ StrictNew "1.0.0-a." = inl b /\
    Equal a b = true /\ (pre a =? pre b) = false.
Proof.
  eexists. eexists.
  split; [ vm_compute; reflexivity | ].
  split; [ vm_compute; reflexivity | ].
  split; vm_compute; reflexivity.
Qed.

(** ** The regular expression *)

Lemma length_append (x y : string) :
  String.length (x ++ y) = (String.length x + String.length y)%nat.
Proof. induction x as [ | c x IH ]; cbn; [ reflexivity | now rewrite IH ]. Qed.

Lemma consumed_app (x s' : string) : regexp.consumed (x ++ s') s' = x.
Proof.
  unfold regexp.consumed.
  replace (String.length (x ++ s') - String.length s')%nat
    with (String.length x)
    by (rewrite length_append; lia).
  induction x as [ | c x IH ]; cbn.
  - now destruct s'.
  - now rewrite IH.
Qed.

Lemma app_assoc_string (x y z : string) : (x ++ y) ++ z = x ++ (y ++ z).
Proof. induction x as [ | c x IH ]; cbn; [ reflexivity | now rewrite IH ]. Qed.

Lemma starLoop_sound (r : regexp.regex) body :
  soundOn r body ->
  forall fuel s m k res,
    regexp.starLoop body k fuel s m = Some res ->
    exists x s' m',
      s = x ++ s' /\ Matches (regexp.Star r) x m m' /\ k s' m' = Some res.
Proof.
  intros Hbody. induction fuel as [ | fuel IH ]; intros s m k res H.
  - exists "", s, m. repeat split; [ apply MStarNil | exact H ].
  - cbn [regexp.starLoop] in H. unfold regexp.orElse in H.
    match type of H with
    | match ?b with _ => _ end = _ => destruct b as [ res' | ] eqn:Hb
    end.
    + injection H as ->.
      apply Hbody in Hb. destruct Hb as (x1 & s1 & m1 & -> & Hm1 & Hk).
      destruct (String.length s1 <? String.length (x1 ++ s1))%nat;
        [ | discriminate ].
      apply IH in Hk. destruct Hk as (x2 & s2 & m2 & -> & Hm2 & Hk).
      exists (x1 ++ x2), s2, m2. split; [ | split ].
      * now rewrite app_assoc_string.
      * econstructor; eassumption.
      * exact Hk.
    + exists "", s, m. repeat split; [ apply MStarNil | exact H ].
Qed.

Lemma run_sound (r : regexp.regex) : soundOn r (regexp.run r).
Proof.
  induction r as [ c | p | r1 IH1 r2 IH2 | r1 IH1 | r1 IH1 | i r1 IH1 ];
    intros s m k res H; cbn [regexp.run] in H.
  - destruct s as [ | a s ]; [ discriminate | ].
    destruct (Ascii.eqb a c) eqn:E; [ | discriminate ].
    apply Ascii.eqb_eq in E. subst a.
    exists (String c ""), s, m. repeat split; [ constructor | exact H ].
  - destruct s as [ | a s ]; [ discriminate | ].
    destruct (p a) eqn:E; [ | discriminate ].
    exists (String a ""), s, m.
    repeat split; [ now constructor | exact H ].
  - apply IH1 in H. destruct H as (x1 & s1 & m1 & -> & Hm1 & H).
    apply IH2 in H. destruct H as (x2 & s2 & m2 & -> & Hm2 & H).
    exists (x1 ++ x2), s2, m2. split; [ | split ].
    + now rewrite app_assoc_string.
    + econstructor; eassumption.
    + exact H.
  - unfold regexp.orElse in H.
    destruct (regexp.run r1 s m k) as [ res' | ] eqn:Hb.
    + injection H as ->. apply IH1 in Hb.
      destruct Hb as (x1 & s1 & m1 & -> & Hm1 & H).
      exists x1, s1, m1. repeat split; [ now apply MOptSome | exact H ].
    + exists "", s, m. repeat split; [ apply MOptNone | exact H ].
  - now apply (starLoop_sound r1 (regexp.run r1) IH1) in H.
  - apply IH1 in H. destruct H as (x1 & s1 & m1 & -> & Hm1 & H).
    rewrite consumed_app in H.
    exists x1, s1, (regexp.setSub i x1 m1).
    repeat split; [ now constructor | exact H ].
Qed.

(** A match leaves the submatches of the groups it does not contain. *)
Lemma Matches_frame r x m m' :
  Matches r x m m' -> forall i, ~ In i (groups r) -> m' i = m i.
Proof.
  induction 1 as [ | | r1 r2 x y m m1 m2 _ IH1 _ IH2 | r x m m1 _ IH | |
                   | r x y m m1 m2 _ IH1 _ IH2 | j r x m m1 _ IH ];
    intros i Hi; cbn [groups] in Hi; try reflexivity.
  - rewrite IH2, IH1; [ reflexivity | | ]; intros Hin; apply Hi, in_or_app;
      [ now left | now right ].
  - now apply IH.
  - rewrite IH2, IH1; [ reflexivity | | ]; assumption.
  - unfold regexp.setSub. destruct (Nat.eqb i j) eqn:E.
    + apply Nat.eqb_eq in E. subst. exfalso. apply Hi. now left.
    + apply IH. intros Hin. apply Hi. now right.
Qed.

Lemma Matches_Chr_inv c x m m' :
  Matches (regexp.Chr c) x m m' -> x = String c "" /\ m' = m.
Proof. intros H. inversion H; subst. now split. Qed.

Lemma Matches_Set_inv p x m m' :
  Matches (regexp.Set_ p) x m m' ->
  exists c, x = String c "" /\ p c = true /\ m' = m.
Proof. intros H. inversion H; subst. eexists. now repeat split. Qed.

Lemma Matches_Cat_inv r1 r2 x m m' :
  Matches (regexp.Cat r1 r2) x m m' ->
  exists x1 x2 m1,
    x = x1 ++ x2 /\ Matches r1 x1 m m1 /\ Matches r2 x2 m1 m'.
Proof. intros H. inversion H; subst. do 3 eexists. now repeat split; eauto. Qed.

Lemma Matches_Opt_inv r x m m' :
  Matches (regexp.Opt r) x m m' -> (x = "" /\ m' = m) \/ Matches r x m m'.
Proof. intros H. inversion H; subst; [ now right | now left ]. Qed.

Lemma Matches_Group_inv i r x m m' :
  Matches (regexp.Group i r) x m m' ->
  exists m1, Matches r x m m1 /\ m' = regexp.setSub i x m1.
Proof. intros H. inversion H; subst. eexists. now split; eauto. Qed.

Lemma allOf_app (f : ascii -> bool) (x y : string) :
  allOf f (x ++ y) = allOf f x && allOf f y.
Proof.
  induction x as [ | c x IH ]; cbn; [ reflexivity | ].
  now rewrite IH, andb_assoc.
Qed.

Lemma Matches_star_set (p : ascii -> bool) r x m m' :
  Matches r x m m' -> r = regexp.Star (regexp.Set_ p) ->
  allOf p x = true /\ m' = m.
Proof.
  induction 1 as [ | | | | | | r0 x y m m1 m2 H1 _ H2 IH2 | ];
    intros E; try discriminate.
  - now split.
  - injection E as ->.
    apply Matches_Set_inv in H1. destruct H1 as (c & -> & Hc & ->).
    destruct (IH2 eq_refl) as [Hy ->].
    split; [ | reflexivity ]. cbn. now rewrite Hc, Hy.
Qed.

Lemma Matches_plus_set (p : ascii -> bool) x m m' :
  Matches (regexp.Plus (regexp.Set_ p)) x m m' ->
  x <> "" /\ allOf p x = true /\ m' = m.
Proof.
  unfold regexp.Plus. intros H.
  apply Matches_Cat_inv in H. destruct H as (x1 & x2 & m1 & -> & H1 & H2).
  apply Matches_Set_inv in H1. destruct H1 as (c & -> & Hc & ->).
  destruct (Matches_star_set p _ _ _ _ H2 eq_refl) as [Hy ->].
  split; [ discriminate | ]. split; [ | reflexivity ].
  cbn. now rewrite Hc, Hy.
Qed.

Lemma setSub_same i x m : regexp.setSub i x m i = x.
Proof. unfold regexp.setSub. now rewrite Nat.eqb_refl. Qed.

Lemma setSub_other i j x m : j <> i -> regexp.setSub i x m j = m j.
Proof.
  intros H. unfold regexp.setSub. apply Nat.eqb_neq in H. now rewrite H.
Qed.

Lemma Matches_opt_number (g : nat) x m m' :
  Matches (regexp.Opt (regexp.Group g
             (regexp.Cat (regexp.Chr ".") (regexp.Plus (regexp.Set_ isNum)))))
          x m m' ->
  (x = "" /\ m' g = m g) \/
  (exists d, x = String "." d /\ numeral d /\ m' g = x).
Proof.
  intros H. apply Matches_Opt_inv in H.
  destruct H as [[-> ->] | H]; [ now left | right ].
  apply Matches_Group_inv in H. destruct H as (m1 & H & ->).
  apply Matches_Cat_inv in H. destruct H as (x1 & d & m2 & -> & H1 & H2).
  apply Matches_Chr_inv in H1. destruct H1 as [-> ->].
  apply Matches_plus_set in H2. destruct H2 as (Hne & Hd & _).
  exists d. rewrite setSub_same. now repeat split.
Qed.

Lemma Matches_identifiers (g : nat) x m m' :
  Matches (identifiers g) x m m' -> x <> "".
Proof.
  unfold identifiers. intros H.
  apply Matches_Cat_inv in H. destruct H as (x1 & x2 & m1 & -> & H1 & _).
  apply Matches_plus_set in H1. destruct H1 as (Hne & _ & _).
  destruct x1; [ congruence | discriminate ].
Qed.

Lemma Matches_opt_extra (c : ascii) (g gi gin : nat) x m m' :
  gi <> g ->
  Matches (regexp.Opt (regexp.Group g
             (regexp.Cat (regexp.Chr c)
                         (regexp.Group gi (identifiers gin)))))
          x m m' ->
  (x = "" /\ m' gi = m gi) \/
  (exists y, x = String c y /\ y <> "" /\ m' gi = y).
Proof.
  intros Hg H. apply Matches_Opt_inv in H.
  destruct H as [[-> ->] | H]; [ now left | right ].
  apply Matches_Group_inv in H. destruct H as (m1 & H & ->).
  apply Matches_Cat_inv in H. destruct H as (x1 & y & m2 & -> & H1 & H2).
  apply Matches_Chr_inv in H1. destruct H1 as [-> ->].
  apply Matches_Group_inv in H2. destruct H2 as (m3 & H2 & ->).
  apply Matches_identifiers in H2.
  exists y. rewrite setSub_other, setSub_same by assumption.
  now repeat split.
Qed.

Lemma append_nil_r (x : string) : x ++ "" = x.
Proof. induction x as [ | c x IH ]; cbn; [ reflexivity | now rewrite IH ]. Qed.

(** What a successful match of [ClassRegex] says about the input and about
    the submatches [New] reads. *)
Lemma ClassRegex_sound (s : string) (m : regexp.submatches) :
  ClassRegex s = Some m ->
  exists vp d1 x2 x3 x4 x7,
    s = vp ++ d1 ++ x2 ++ x3 ++ x4 ++ x7 /\
    (vp = "" \/ vp = "v") /\
    numeral d1 /\ m 1%nat = d1 /\
    optNumber x2 (m 2%nat) /\ optNumber x3 (m 3%nat) /\
    optExtra "-" x4 (m 5%nat) /\ optExtra "+" x7 (m 8%nat).
Proof.
  unfold ClassRegex, regexp.FindStringSubmatch. intros H.
  apply run_sound in H. destruct H as (x & s' & m' & -> & HM & Hk).
  destruct s' as [ | ? ? ]; [ | discriminate ]. injection Hk as <-.
  unfold semVerRegex in HM.
  apply Matches_Cat_inv in HM. destruct HM as (vp & y1 & m0 & -> & Hv & HM).
  apply Matches_Cat_inv in HM. destruct HM as (d1 & y2 & m1 & -> & Hg1 & HM).
  apply Matches_Cat_inv in HM. destruct HM as (x2 & y3 & m2 & -> & Hg2 & HM).
  apply Matches_Cat_inv in HM. destruct HM as (x3 & y4 & m3 & -> & Hg3 & HM).
  apply Matches_Cat_inv in HM. destruct HM as (x4 & x7 & m4 & -> & Hg4 & Hg7).
  exists vp, d1, x2, x3, x4, x7.
  assert (Hvp : (vp = "" \/ vp = "v") /\ m0 = regexp.noSubmatch).
  { apply Matches_Opt_inv in Hv. destruct Hv as [[-> ->] | Hv].
    - now split; [ left | ].
    - apply Matches_Chr_inv in Hv. destruct Hv as [-> ->].
      now split; [ right | ]. }
  destruct Hvp as [Hvp ->].
  assert (Hd1 : numeral d1 /\ m1 = regexp.setSub 1 d1 regexp.noSubmatch).
  { apply Matches_Group_inv in Hg1. destruct Hg1 as (m1' & Hg1 & ->).
    apply Matches_plus_set in Hg1. destruct Hg1 as (Hne & Hd & ->).
    now repeat split. }
  destruct Hd1 as [Hd1 ->].
  pose proof (Matches_frame _ _ _ _ Hg2) as F2.
  pose proof (Matches_frame _ _ _ _ Hg3) as F3.
  pose proof (Matches_frame _ _ _ _ Hg4) as F4.
  pose proof (Matches_frame _ _ _ _ Hg7) as F7.
  cbn in F2, F3, F4, F7.
  apply Matches_opt_number in Hg2, Hg3.
  apply Matches_opt_extra in Hg4; [ | discriminate ].
  apply Matches_opt_extra in Hg7; [ | discriminate ].
  rewrite append_nil_r.
  split; [ reflexivity | ]. split; [ exact Hvp | ]. split; [ exact Hd1 | ].
  rewrite !(setSub_other 0) by discriminate.
  split.
  { rewrite F7, F4, F3, F2 by (intuition discriminate). reflexivity. }
  split.
  { rewrite F7, F4, F3 by (intuition discriminate).
    destruct Hg2 as [[-> E] | (d & -> & Hd & E)]; [ left | right ].
    - now rewrite E.
    - exists d. split; [ reflexivity | ]. split; [ exact Hd | exact E ]. }
  split.
  { rewrite F7, F4 by (intuition discriminate).
    destruct Hg3 as [[-> E] | (d & -> & Hd & E)]; [ left | right ].
    - rewrite E, F2 by (intuition discriminate). now split.
    - exists d. split; [ reflexivity | ]. split; [ exact Hd | exact E ]. }
  split.
  { rewrite F7 by (intuition discriminate).
    destruct Hg4 as [[-> E] | (y & -> & Hy & E)]; [ left | right ].
    - rewrite E, F3, F2 by (intuition discriminate). now split.
    - rewrite E. now split. }
  destruct Hg7 as [[-> E] | (y & -> & Hy & E)]; [ left | right ].
  - rewrite E, F4, F3, F2 by (intuition discriminate). now split.
  - rewrite E. now split.
Qed.

(** ** Formatting and parsing numbers *)

Lemma decValue_app (x y : string) (a : N) :
  decValue (x ++ y) a = decValue y (decValue x a).
Proof.
  revert a. induction x as [ | c x IH ]; intros a; cbn; [ reflexivity | ].
  apply IH.
Qed.

Lemma digitChar_spec (d : N) :
  (d < 10)%N ->
  strconv.isDigit (fmt.digitChar d) = true /\
  strconv.digitVal (fmt.digitChar d) = d.
Proof.
  intros H. unfold strconv.isDigit, strconv.digitVal, fmt.digitChar.
  rewrite N_ascii_embedding by lia.
  split; [ | lia ].
  apply andb_true_iff. split; apply N.leb_le; lia.
Qed.

Lemma digits_spec (fuel : nat) :
  forall n,
    (n < 2 ^ N.of_nat fuel)%N ->
    allOf strconv.isDigit (fmt.digits fuel n) = true /\
    decValue (fmt.digits fuel n) 0 = n.
Proof.
  induction fuel as [ | fuel IH ]; intros n Hn.
  - cbn in Hn. assert (n = 0%N) by lia. subst n. now split.
  - cbn [fmt.digits].
    assert (Hmod : (n mod 10 < 10)%N) by (apply N.mod_lt; lia).
    destruct (digitChar_spec _ Hmod) as [Hd Hv].
    rewrite allOf_app, decValue_app. cbn [allOf decValue].
    rewrite Hd, Hv, andb_true_r.
    destruct (n <? 10)%N eqn:E.
    + apply N.ltb_lt in E. cbn. split; [ reflexivity | ].
      rewrite N.mod_small by assumption. reflexivity.
    + assert (Hq : (n / 10 < 2 ^ N.of_nat fuel)%N).
      { apply N.Div0.div_lt_upper_bound.
        rewrite Nat2N.inj_succ, N.pow_succ_r' in Hn. lia. }
      destruct (IH _ Hq) as [Ha Hval]. rewrite Ha, Hval.
      split; [ reflexivity | ].
      pose proof (N.div_mod n 10). lia.
Qed.

Lemma digits_not_empty (fuel : nat) (n : N) : fmt.digits (S fuel) n <> "".
Proof.
  cbn [fmt.digits].
  destruct (if (n <? 10)%N then "" else fmt.digits fuel (n / 10));
    discriminate.
Qed.

(** [formatUint] writes a numeral that denotes its argument. *)
Lemma formatUint_spec (n : N) :
  numeral (fmt.formatUint n) /\ decValue (fmt.formatUint n) 0 = n.
Proof.
  unfold fmt.formatUint, numeral, isNum.
  assert (Hn : (n < 2 ^ N.of_nat (S (N.to_nat (N.log2 n))))%N).
  { rewrite Nat2N.inj_succ, N2Nat.id.
    destruct n as [ | p ]; [ reflexivity | ].
    apply N.log2_spec. reflexivity. }
  destruct (digits_spec _ _ Hn) as [Ha Hv].
  split; [ split; [ apply digits_not_empty | exact Ha ] | exact Hv ].
Qed.

Lemma ParseUint_formatUint (n r : N) :
  strconv.ParseUint (fmt.formatUint n) = inl r -> r = n.
Proof.
  intros H. apply ParseUint_value in H. destruct H as (_ & _ & ->).
  apply formatUint_spec.
Qed.

Lemma digits_head (fuel : nat) :
  forall n,
    (0 < n)%N -> (n < 2 ^ N.of_nat fuel)%N ->
    exists c rest,
      fmt.digits fuel n = String c rest /\ Ascii.eqb c "0" = false.
Proof.
  induction fuel as [ | fuel IH ]; intros n Hpos Hn.
  - cbn in Hn. lia.
  - cbn [fmt.digits]. destruct (n <? 10)%N eqn:E.
    + apply N.ltb_lt in E. rewrite N.mod_small by assumption.
      exists (fmt.digitChar n), "". split; [ reflexivity | ].
      apply Ascii.eqb_neq. intros Hc.
      assert (Hv : strconv.digitVal (fmt.digitChar n) = n)
        by now apply digitChar_spec.
      rewrite Hc in Hv. cbn in Hv. lia.
    + apply N.ltb_ge in E.
      assert (Hq : (n / 10 < 2 ^ N.of_nat fuel)%N).
      { apply N.Div0.div_lt_upper_bound.
        rewrite Nat2N.inj_succ, N.pow_succ_r' in Hn. lia. }
      assert (Hq0 : (0 < n / 10)%N).
      { apply N.div_str_pos. lia. }
      destruct (IH _ Hq0 Hq) as (c & rest & -> & Hc).
      now exists c, (rest ++ String (fmt.digitChar (n mod 10)) "").
Qed.

(** [formatUint] writes no leading zero. *)
Lemma formatUint_leadingZero (n : N) : leadingZero (fmt.formatUint n) = false.
Proof.
  destruct n as [ | p ]; [ reflexivity | ].
  unfold fmt.formatUint.
  assert (Hn : (N.pos p < 2 ^ N.of_nat (S (N.to_nat (N.log2 (N.pos p)))))%N).
  { rewrite Nat2N.inj_succ, N2Nat.id. apply N.log2_spec. reflexivity. }
  destruct (digits_head _ (N.pos p) eq_refl Hn) as (c & rest & -> & Hc).
  unfold leadingZero. cbn [firstByteIs]. rewrite Hc.
  now rewrite !andb_false_r.
Qed.

(** A numeral without a leading zero is what [formatUint] writes for the
    number [ParseUint] reads from it. *)
Lemma canonical_leadingZero (d : string) :
  canonical d -> leadingZero d = false.
Proof.
  intros [_ [-> | (c & t & -> & Hc)]]; [ reflexivity | ].
  unfold leadingZero. cbn [firstByteIs].
  apply Ascii.eqb_neq in Hc. rewrite Hc. now rewrite !andb_false_r.
Qed.

Lemma formatUint_of_parsed (d : string) (n : N) :
  canonical d -> strconv.ParseUint d = inl n -> fmt.formatUint n = d.
Proof.
  intros Hd H. pose proof (canonical_leadingZero d Hd) as Hz.
  destruct Hd as [[Hne Hd] _].
  apply ParseUint_value in H. destruct H as (_ & _ & ->).
  destruct (formatUint_spec (decValue d 0)) as [[Fne Fd] Fv].
  apply decValue_inj; try assumption.
  apply formatUint_leadingZero.
Qed.

(** ** Cutting a string where its digits end *)

Lemma digit_run_unique (d1 : string) :
  forall d2 r1 r2,
    allOf strconv.isDigit d1 = true -> allOf strconv.isDigit d2 = true ->
    noDigitAhead r1 -> noDigitAhead r2 ->
    d1 ++ r1 = d2 ++ r2 -> d1 = d2 /\ r1 = r2.
Proof.
  induction d1 as [ | c d1 IH ]; intros [ | c' d2 ] r1 r2 H1 H2 N1 N2 E;
    cbn in E.
  - now split.
  - subst r1. cbn in N1, H2. apply andb_true_iff in H2. destruct H2. congruence.
  - subst r2. cbn in N2, H1. apply andb_true_iff in H1. destruct H1. congruence.
  - injection E as -> E. cbn in H1, H2.
    apply andb_true_iff in H1, H2. destruct H1 as [_ H1], H2 as [_ H2].
    destruct (IH d2 r1 r2 H1 H2 N1 N2 E) as [-> ->]. now split.
Qed.

Lemma optExtra_noDigitAhead (c : ascii) (x g rest : string) :
  strconv.isDigit c = false -> optExtra c x g -> noDigitAhead rest ->
  noDigitAhead (x ++ rest).
Proof. intros Hc [[-> _] | [-> _]] Hr; [ exact Hr | exact Hc ]. Qed.

Lemma optNumber_noDigitAhead (x g rest : string) :
  optNumber x g -> noDigitAhead rest -> noDigitAhead (x ++ rest).
Proof. intros [[-> _] | (d & -> & _)] Hr; [ exact Hr | reflexivity ]. Qed.

(** The optional prerelease and metadata do not start with a dot. *)
Lemma extras_no_dot (x4 x7 g5 g8 z : string) :
  optExtra "-" x4 g5 -> optExtra "+" x7 g8 -> String "." z <> x4 ++ x7.
Proof.
  intros [[-> _] | [-> _]] [[-> _] | [-> _]]; discriminate.
Qed.

Lemma substring_all (t : string) : substring 0 (String.length t) t = t.
Proof. induction t as [ | c t IH ]; cbn; [ reflexivity | now rewrite IH ]. Qed.

Lemma prefix_nil (t : string) : String.prefix "" t = true.
Proof. now destruct t. Qed.

Lemma TrimPrefix_one (c : ascii) (t : string) :
  strings.TrimPrefix (String c t) (String c "") = t.
Proof.
  unfold strings.TrimPrefix. cbn [String.prefix].
  destruct (ascii_dec c c) as [ _ | Hn ]; [ | congruence ].
  rewrite prefix_nil. cbn [String.length Nat.sub substring].
  rewrite Nat.sub_0_r. apply substring_all.
Qed.

Lemma TrimPrefix_none (c a : ascii) (t : string) :
  a <> c -> strings.TrimPrefix (String a t) (String c "") = String a t.
Proof.
  intros H. unfold strings.TrimPrefix. cbn [String.prefix].
  destruct (ascii_dec c a) as [ E | _ ]; [ congruence | reflexivity ].
Qed.

(** ** Parsing what was formatted *)

Lemma numeral_head (d : string) :
  numeral d -> exists c d', d = String c d' /\ strconv.isDigit c = true.
Proof.
  intros [Hne Hd]. destruct d as [ | c d' ]; [ congruence | ].
  cbn in Hd. apply andb_true_iff in Hd. destruct Hd as [Hc _].
  now exists c, d'.
Qed.

Lemma strip_v (vp vp' a a' ra ra' : string) :
  (vp = "" \/ vp = "v") -> (vp' = "" \/ vp' = "v") ->
  numeral a -> numeral a' ->
  vp ++ a ++ ra = vp' ++ a' ++ ra' -> vp = vp' /\ a ++ ra = a' ++ ra'.
Proof.
  intros Hv Hv' Ha Ha' E.
  destruct (numeral_head a Ha) as (c & d & -> & Hc).
  destruct (numeral_head a' Ha') as (c' & d' & -> & Hc').
  destruct Hv as [-> | ->], Hv' as [-> | ->]; cbn in E.
  - now split.
  - injection E as -> _. discriminate.
  - injection E as <- _. discriminate.
  - split; [ reflexivity | ]. cbn. now inversion E.
Qed.

Lemma numeral_allOf (d : string) :
  numeral d -> allOf strconv.isDigit d = true.
Proof. now intros [_ H]. Qed.

(** A string [M.m.p] followed by something that starts with no digit is
    read by the expression in one way only. *)
Lemma shape_unique (fM fm fp tw d1 x2 x3 x4 x7 g2 g3 g5 g8 : string) :
  numeral fM -> numeral fm -> numeral fp -> noDigitAhead tw ->
  numeral d1 -> optNumber x2 g2 -> optNumber x3 g3 ->
  optExtra "-" x4 g5 -> optExtra "+" x7 g8 ->
  fM ++ String "." (fm ++ String "." (fp ++ tw))
    = d1 ++ x2 ++ x3 ++ x4 ++ x7 ->
  d1 = fM /\ g2 = String "." fm /\ g3 = String "." fp /\ x4 ++ x7 = tw.
Proof.
  intros HM Hm Hp Htw Hd1 O2 O3 O5 O8 E.
  assert (N47 : noDigitAhead (x4 ++ x7)).
  { apply (optExtra_noDigitAhead "-" x4 g5); [ reflexivity | exact O5 | ].
    rewrite <- (append_nil_r x7).
    apply (optExtra_noDigitAhead "+" x7 g8); [ reflexivity | exact O8 | ].
    exact I. }
  assert (N3 : noDigitAhead (x3 ++ x4 ++ x7))
    by now apply (optNumber_noDigitAhead x3 g3).
  assert (N2 : noDigitAhead (x2 ++ x3 ++ x4 ++ x7))
    by now apply (optNumber_noDigitAhead x2 g2).
  apply digit_run_unique in E;
    [ | now apply numeral_allOf | now apply numeral_allOf
      | reflexivity | exact N2 ].
  destruct E as [<- E]. split; [ reflexivity | ].
  destruct O2 as [[-> _] | (d2 & -> & Hd2 & ->)].
  { exfalso. cbn in E.
    destruct O3 as [[-> _] | (d3 & -> & Hd3 & _)]; cbn in E.
    - now apply (extras_no_dot x4 x7 g5 g8) in E.
    - injection E as E.
      apply digit_run_unique in E;
        [ | now apply numeral_allOf | now apply numeral_allOf
          | reflexivity | exact N47 ].
      destruct E as [_ E].
      now apply (extras_no_dot x4 x7 g5 g8) in E. }
  cbn in E. injection E as E.
  apply digit_run_unique in E;
    [ | now apply numeral_allOf | now apply numeral_allOf
      | reflexivity | exact N3 ].
  destruct E as [<- E]. split; [ reflexivity | ].
  destruct O3 as [[-> _] | (d3 & -> & Hd3 & ->)].
  { exfalso. cbn in E. now apply (extras_no_dot x4 x7 g5 g8) in E. }
  cbn in E. injection E as E.
  apply digit_run_unique in E;
    [ | now apply numeral_allOf | now apply numeral_allOf
      | exact Htw | exact N47 ].
  destruct E as [<- E]. now split.
Qed.

Lemma validateExtra_inl (sv v : Class) : validateExtra sv = inl v -> v = sv.
Proof.
  unfold validateExtra.
  destruct (if negb (pre sv =? "") then _ else _); [ discriminate | ].
  destruct (if negb (metadata sv =? "") then _ else _); [ discriminate | ].
  now intros [= <-].
Qed.

Lemma optExtra_text (c : ascii) (x g : string) :
  optExtra c x g -> (if negb (g =? "") then String c g else "") = x.
Proof.
  intros [[-> ->] | [-> Hg]]; [ reflexivity | ].
  apply String.eqb_neq in Hg. now rewrite Hg.
Qed.

Lemma optSegment_dot (d : string) :
  optSegment (String "." d)
  = match strconv.ParseUint d with
    | inr e => inr (ErrParsingSegment e)
    | inl n => inl n
    end.
Proof. unfold optSegment. cbn [String.eqb negb]. now rewrite TrimPrefix_one. Qed.

(** The text [String()] writes after the three numbers. *)
Lemma String_tail_noDigitAhead (w : Class) :
  noDigitAhead
    ((if negb (pre w =? "") then "-" ++ pre w else "")
       ++ (if negb (metadata w =? "") then "+" ++ metadata w else "")).
Proof.
  destruct (negb (pre w =? "")); [ reflexivity | ].
  destruct (negb (metadata w =? "")); [ reflexivity | exact I ].
Qed.

Lemma String_shape (w : Class) :
  version.String w
  = fmt.formatUint (major w)
      ++ String "." (fmt.formatUint (minor w)
      ++ String "." (fmt.formatUint (patch w)
      ++ ((if negb (pre w =? "") then "-" ++ pre w else "")
            ++ (if negb (metadata w =? "") then "+" ++ metadata w else "")))).
Proof. reflexivity. Qed.

(** C4, as the code has it: for a string that is an optional [v] followed
    by [major.minor.patch] and then nothing, [-pre], [+meta] or
    [-pre+meta], with the three numbers written without leading zeros, if
    [New] accepts it then [String()] of the parsed version is that string
    without the leading [v]; what follows the patch is the prerelease and
    the metadata of the parsed version, and [original] is the input. *)
Theorem New_String_roundtrip (vp a b c rest s : string) (v : Class) :
  (vp = "" \/ vp = "v") ->
  canonical a -> canonical b -> canonical c -> extrasAhead rest ->
  s = vp ++ a ++ "." ++ b ++ "." ++ c ++ rest ->
  New s = inl v ->
  version.String v = a ++ "." ++ b ++ "." ++ c ++ rest /\
  version.String v = strings.TrimPrefix s "v" /\
  rest = optText "-" (pre v) ++ optText "+" (metadata v) /\
  original v = s.
Proof.
  intros Hvp Ca Cb Cc Hrest Hs HNew.
  assert (Nrest : noDigitAhead rest).
  { destruct rest as [ | x t ]; [ exact I | ].
    destruct Hrest as [-> | ->]; reflexivity. }
  pose proof (proj1 Ca) as Ha. pose proof (proj1 Cb) as Hb.
  pose proof (proj1 Cc) as Hc.
  unfold New in HNew.
  destruct (ClassRegex s) as [ m | ] eqn:Hm; [ | discriminate ].
  apply ClassRegex_sound in Hm.
  destruct Hm as (vp' & d1 & x2 & x3 & x4 & x7 & Hs' & Hvp' & Hd1 & E1
                  & O2 & O3 & O5 & O8).
  assert (E : vp ++ a ++ String "." (b ++ String "." (c ++ rest))
              = vp' ++ d1 ++ x2 ++ x3 ++ x4 ++ x7)
    by (rewrite <- Hs'; symmetry; exact Hs).
  apply strip_v in E; try assumption. destruct E as [_ E].
  apply (shape_unique _ _ _ _ _ _ _ _ _ _ _ _ _ Ha Hb Hc Nrest Hd1 O2 O3 O5 O8)
    in E.
  destruct E as (Ed1 & E2 & E3 & Etw).
  rewrite E1, Ed1, E2, E3, !optSegment_dot in HNew.
  destruct (strconv.ParseUint a) as [ mj | ] eqn:PM; [ | discriminate ].
  destruct (strconv.ParseUint b) as [ mn | ] eqn:Pm; [ | discriminate ].
  destruct (strconv.ParseUint c) as [ pa | ] eqn:Pp; [ | discriminate ].
  apply (formatUint_of_parsed _ _ Ca) in PM.
  apply (formatUint_of_parsed _ _ Cb) in Pm.
  apply (formatUint_of_parsed _ _ Cc) in Pp.
  apply validateExtra_inl in HNew. subst v.
  cbn [pre metadata original].
  assert (Et : optText "-" (m 5%nat) ++ optText "+" (m 8%nat) = rest).
  { unfold optText.
    now rewrite (optExtra_text _ _ _ O5), (optExtra_text _ _ _ O8). }
  assert (ES : version.String (mkClass mj mn pa (m 5%nat) (m 8%nat) s)
               = a ++ "." ++ b ++ "." ++ c ++ rest).
  { rewrite String_shape. cbn [major minor patch pre metadata].
    rewrite PM, Pm, Pp, <- Et. reflexivity. }
  split; [ exact ES | ].
  split; [ | split; [ now symmetry | reflexivity ] ].
  rewrite ES, Hs.
  destruct Hvp as [-> | ->].
  - destruct (numeral_head _ Ha) as (x & d & -> & Hx).
    cbn [append]. rewrite TrimPrefix_none; [ reflexivity | ].
    intros ->. discriminate.
  - apply eq_sym, TrimPrefix_one.
Qed.

Lemma New_String_roundtrip_witness :
  exists v, New "v10.20.30-rc.1+build.5" = inl v /\
            version.String v = "10.20.30-rc.1+build.5" /\
            pre v = "rc.1" /\ metadata v = "build.5" /\
            original v = "v10.20.30-rc.1+build.5".
Proof.
  exists (mkClass 10 20 30 "rc.1" "build.5" "v10.20.30-rc.1+build.5").
  split; [ vm_compute; reflexivity | ].
  destruct (New_String_roundtrip
              "v" "10" "20" "30" "-rc.1+build.5" "v10.20.30-rc.1+build.5"
              (mkClass 10 20 30 "rc.1" "build.5" "v10.20.30-rc.1+build.5"))
    as (H1 & _ & _ & H4).
  - now right.
  - split; [ split; [ discriminate | reflexivity ] | ].
    right. exists "1"%char, "0". split; [ reflexivity | discriminate ].
  - split; [ split; [ discriminate | reflexivity ] | ].
    right. exists "2"%char, "0". split; [ reflexivity | discriminate ].
  - split; [ split; [ discriminate | reflexivity ] | ].
    right. exists "3"%char, "0". split; [ reflexivity | discriminate ].
  - now left.
  - reflexivity.
  - vm_compute. reflexivity.
  - split; [ exact H1 | ].
    split; [ reflexivity | ]. split; [ reflexivity | exact H4 ].
Defined.

(** C4 fails as stated: [01.2.3] has all three numbers and is accepted,
    and [String()] of the parsed version is [1.2.3]. *)
Lemma New_String_drops_leading_zero :
  exists v, New "01.2.3" = inl v /\
            version.String v = "1.2.3" /\
            (version.String v =? "01.2.3") = false.
Proof. eexists. repeat split; vm_compute; reflexivity. Qed.

(** ** What the validated operations guarantee of a prerelease *)

Lemma validateExtra_noLeadingZeros (sv v : Class) :
  validateExtra sv = inl v -> noLeadingZeros (pre v) = true.
Proof.
  intros H. pose proof (validateExtra_inl _ _ H) as ->.
  unfold validateExtra in H.
  destruct (pre sv =? "") eqn:E; cbn [negb] in H.
  - apply String.eqb_eq in E. now rewrite E.
  - destruct (validatePrerelease (pre sv)) eqn:V; [ discriminate | ].
    now apply validatePrerelease_noLeadingZeros.
Qed.

(** No numeric prerelease identifier of a version from [New] has a leading
    zero. *)
Lemma New_noLeadingZeros (s : string) (v : Class) :
  New s = inl v -> noLeadingZeros (pre v) = true.
Proof.
  unfold New. destruct (ClassRegex s) as [ m | ]; [ | discriminate ].
  destruct (strconv.ParseUint (m 1%nat)); [ | discriminate ].
  destruct (optSegment (m 2%nat)); [ | discriminate ].
  destruct (optSegment (m 3%nat)); [ | discriminate ].
  apply validateExtra_noLeadingZeros.
Qed.

(** Nor has one of a version from [StrictNew]. *)
Lemma StrictNew_noLeadingZeros (s : string) (v : Class) :
  StrictNew s = inl v -> noLeadingZeros (pre v) = true.
Proof.
  unfold StrictNew. destruct (String.length s =? 0)%nat; [ discriminate | ].
  destruct (strings.SplitN s "." 3) as [ | p0 [ | p1 [ | p2 [ | ? ? ] ] ] ];
    try discriminate.
  destruct (if strings.ContainsAny p2 "-+" then _ else _) as [[md pr] q2].
  destruct (checkSegments _); [ discriminate | ].
  destruct (strconv.ParseUint p0); [ | discriminate ].
  destruct (strconv.ParseUint p1); [ | discriminate ].
  destruct (strconv.ParseUint q2); [ | discriminate ].
  cbn [pre metadata].
  destruct ((pr =? "") && (md =? "")) eqn:E.
  - intros [= <-]. cbn [pre]. apply andb_true_iff in E. destruct E as [E _].
    apply String.eqb_eq in E. now rewrite E.
  - apply validateExtra_noLeadingZeros.
Qed.

(** Nor has the version [SetPrerelease] returns without error. *)
Lemma SetPrerelease_noLeadingZeros (st : store) (v : ptr) (p : string) :
  snd (fst (SetPrerelease v p st)) = None ->
  pre (fst (fst (SetPrerelease v p st))) = p /\ noLeadingZeros p = true.
Proof.
  unfold SetPrerelease.
  destruct p as [ | c p ].
  - intros _. step_store. cbn. rewrite ?Nat.eqb_refl. now split.
  - cbn [String.length Nat.ltb Nat.leb].
    destruct (validatePrerelease (String c p)) eqn:V.
    + discriminate.
    + intros _. split.
      * step_store. cbn. rewrite ?Nat.eqb_refl. reflexivity.
      * now apply validatePrerelease_noLeadingZeros.
Qed.

Lemma isAllowed_not_dot (c : ascii) :
  isAllowed c = true -> Ascii.eqb c "." = false.
Proof.
  intros H. apply Ascii.eqb_neq. intros ->. discriminate.
Qed.

(** A run of identifier bytes is one piece for [Split]. *)
Lemma Split_run (a : string) :
  allOf isAllowed a = true ->
  strings.Split a "." = [a] /\
  forall rest,
    strings.Split (a ++ String "." rest) "." = a :: strings.Split rest ".".
Proof.
  induction a as [ | c a IH ]; intros H.
  - split; reflexivity.
  - cbn in H. apply andb_true_iff in H. destruct H as [Hc Ha].
    destruct (IH Ha) as [IH1 IH2].
    cbn [strings.Split append]. rewrite (isAllowed_not_dot c Hc).
    split; [ now rewrite IH1 | ].
    intros rest. now rewrite IH2.
Qed.

Lemma identifiers_tail r z m m' (g : nat) :
  Matches r z m m' ->
  r = regexp.Star (regexp.Group g
        (regexp.Cat (regexp.Chr ".") (regexp.Plus (regexp.Set_ isAllowed)))) ->
  z = "" \/
  exists z', z = String "." z' /\
             forallb (fun i => negb (i =? "")) (strings.Split z' ".") = true.
Proof.
  induction 1 as [ | | | | | | r0 x y m m1 m2 H1 _ H2 IH2 | ];
    intros E; try discriminate.
  - now left.
  - injection E as ->. right.
    apply Matches_Group_inv in H1. destruct H1 as (m3 & H1 & ->).
    apply Matches_Cat_inv in H1. destruct H1 as (x1 & a & m4 & -> & Hd & Ha).
    apply Matches_Chr_inv in Hd. destruct Hd as [-> ->].
    apply Matches_plus_set in Ha. destruct Ha as (Hne & Ha & _).
    destruct (Split_run a Ha) as [S1 S2].
    apply String.eqb_neq in Hne.
    exists (a ++ y). split; [ reflexivity | ].
    destruct (IH2 eq_refl) as [-> | (z' & -> & Hz)].
    + rewrite append_nil_r, S1. cbn. now rewrite Hne.
    + rewrite S2. cbn. now rewrite Hne, Hz.
Qed.

(** What the group of the prerelease (or of the metadata) matches has no
    empty identifier. *)
Lemma identifiers_nonEmpty (g : nat) y m m' :
  Matches (identifiers g) y m m' ->
  forallb (fun i => negb (i =? "")) (strings.Split y ".") = true.
Proof.
  unfold identifiers. intros H.
  apply Matches_Cat_inv in H. destruct H as (a & z & m1 & -> & Ha & Hz).
  apply Matches_plus_set in Ha. destruct Ha as (Hne & Ha & _).
  destruct (Split_run a Ha) as [S1 S2].
  apply String.eqb_neq in Hne.
  destruct (identifiers_tail _ _ _ _ g Hz eq_refl) as [-> | (z' & -> & Hz')].
  - rewrite append_nil_r, S1. cbn. now rewrite Hne.
  - rewrite S2. cbn. now rewrite Hne, Hz'.
Qed.

Lemma ClassRegex_prerelease (s : string) (m : regexp.submatches) :
  ClassRegex s = Some m -> identifiersNonEmpty (m 5%nat) = true.
Proof.
  unfold ClassRegex, regexp.FindStringSubmatch. intros H.
  apply run_sound in H. destruct H as (x & s' & m' & -> & HM & Hk).
  destruct s' as [ | ? ? ]; [ | discriminate ]. injection Hk as <-.
  unfold semVerRegex in HM.
  apply Matches_Cat_inv in HM. destruct HM as (vp & y1 & m0 & -> & Hv & HM).
  apply Matches_Cat_inv in HM. destruct HM as (d1 & y2 & m1 & -> & Hg1 & HM).
  apply Matches_Cat_inv in HM. destruct HM as (x2 & y3 & m2 & -> & Hg2 & HM).
  apply Matches_Cat_inv in HM. destruct HM as (x3 & y4 & m3 & -> & Hg3 & HM).
  apply Matches_Cat_inv in HM. destruct HM as (x4 & x7 & m4 & -> & Hg4 & Hg7).
  pose proof (Matches_frame _ _ _ _ Hv) as F0.
  pose proof (Matches_frame _ _ _ _ Hg1) as F1.
  pose proof (Matches_frame _ _ _ _ Hg2) as F2.
  pose proof (Matches_frame _ _ _ _ Hg3) as F3.
  pose proof (Matches_frame _ _ _ _ Hg7) as F7.
  cbn in F0, F1, F2, F3, F7.
  rewrite setSub_other, F7 by (intuition discriminate).
  unfold identifiersNonEmpty.
  apply Matches_Opt_inv in Hg4. destruct Hg4 as [[-> ->] | Hg4].
  - rewrite F3, F2, F1, F0 by (intuition discriminate). reflexivity.
  - apply Matches_Group_inv in Hg4. destruct Hg4 as (n1 & Hg4 & ->).
    apply Matches_Cat_inv in Hg4. destruct Hg4 as (x1 & y & n2 & -> & Hd & Hy).
    apply Matches_Group_inv in Hy. destruct Hy as (n3 & Hy & ->).
    rewrite setSub_other, setSub_same by discriminate.
    apply identifiers_nonEmpty in Hy. rewrite Hy. apply orb_true_r.
Qed.

(** No prerelease identifier of a version from [New] is empty. *)
Lemma New_identifiersNonEmpty (s : string) (v : Class) :
  New s = inl v -> identifiersNonEmpty (pre v) = true.
Proof.
  unfold New. destruct (ClassRegex s) as [ m | ] eqn:Hm; [ | discriminate ].
  destruct (strconv.ParseUint (m 1%nat)); [ | discriminate ].
  destruct (optSegment (m 2%nat)); [ | discriminate ].
  destruct (optSegment (m 3%nat)); [ | discriminate ].
  intros H. apply validateExtra_inl in H. subst v. cbn [pre].
  now apply (ClassRegex_prerelease s).
Qed.

(** * Further properties of the package *)

(** ** The values of [Compare] *)

Lemma comparePrePart_range (s o : string) :
  comparePrePart s o = (-1)%Z \/ comparePrePart s o = 0%Z
  \/ comparePrePart s o = 1%Z.
Proof.
  unfold comparePrePart.
  destruct (s =? o); [ now right; left | ].
  destruct (s =? ""); [ destruct (negb (o =? "")); auto | ].
  destruct (o =? ""); [ destruct (negb (s =? "")); auto | ].
  destruct (strconv.ParseUint o), (strconv.ParseUint s); auto.
  - destruct (_ <? _)%N; auto.
  - destruct (String.ltb o s); auto.
Qed.

Lemma comparePrereleaseLoop_range (sParts oParts : list string) :
  forall fuel i,
    comparePrereleaseLoop sParts oParts i fuel = (-1)%Z \/
    comparePrereleaseLoop sParts oParts i fuel = 0%Z \/
    comparePrereleaseLoop sParts oParts i fuel = 1%Z.
Proof.
  induction fuel as [ | fuel IH ]; intros i; [ now right; left | ].
  rewrite comparePrereleaseLoop_unfold. cbv zeta.
  destruct (comparePrePart_range (nth i sParts "") (nth i oParts ""))
    as [E | [E | E]]; rewrite E; cbn; auto.
Qed.

Lemma compareSegment_range (v o : N) :
  compareSegment v o = (-1)%Z \/ compareSegment v o = 0%Z
  \/ compareSegment v o = 1%Z.
Proof.
  unfold compareSegment. destruct (v <? o)%N; [ now left | ].
  destruct (o <? v)%N; auto.
Qed.

(** X1: [Compare] returns [-1], [0] or [1], whatever the two versions. *)
Theorem Compare_range (a b : Class) :
  Compare a b = (-1)%Z \/ Compare a b = 0%Z \/ Compare a b = 1%Z.
Proof.
  unfold Compare, Major, Minor, Patch, Prerelease. cbv zeta.
  destruct (compareSegment_range (major a) (major b)) as [E | [E | E]];
    rewrite E; cbn; auto.
  destruct (compareSegment_range (minor a) (minor b)) as [F | [F | F]];
    rewrite F; cbn; auto.
  destruct (compareSegment_range (patch a) (patch b)) as [G | [G | G]];
    rewrite G; cbn; auto.
  destruct (pre a =? ""), (pre b =? ""); cbn; auto.
  apply comparePrereleaseLoop_range.
Qed.

Lemma Compare_bounds (a b : Class) : (-1 <= Compare a b <= 1)%Z.
Proof.
  unfold Compare, Major, Minor, Patch, Prerelease. cbv zeta.
  destruct (compareSegment_range (major a) (major b)) as [E | [E | E]];
    rewrite E; cbn; try lia.
  destruct (compareSegment_range (minor a) (minor b)) as [F | [F | F]];
    rewrite F; cbn; try lia.
  destruct (compareSegment_range (patch a) (patch b)) as [G | [G | G]];
    rewrite G; cbn; try lia.
  destruct (pre a =? ""), (pre b =? ""); cbn; try lia.
  unfold comparePrerelease. cbv zeta.
  match goal with
  | |- context [comparePrereleaseLoop ?s ?o ?i ?f] =>
      destruct (comparePrereleaseLoop_range s o f i) as [H | [H | H]];
      rewrite H; lia
  end.
Qed.

Lemma compareSegment_lt (v o : N) :
  (v < o)%N -> compareSegment v o = (-1)%Z /\ compareSegment o v = 1%Z.
Proof.
  intros H. unfold compareSegment.
  assert (E1 : (v <? o)%N = true) by now apply N.ltb_lt.
  assert (E2 : (o <? v)%N = false) by (apply N.ltb_ge; lia).
  now rewrite E1, E2.
Qed.

(** X2: the first of major, minor and patch on which two versions differ
    decides [Compare], whatever their prereleases and metadata. *)
Theorem Compare_numbers_first (a b : Class) :
  numLt a b -> Compare a b = (-1)%Z /\ Compare b a = 1%Z.
Proof.
  unfold numLt, Compare, Major, Minor, Patch. cbv zeta.
  intros [H | [Ej [H | [En H]]]].
  - destruct (compareSegment_lt _ _ H) as [-> ->]. now split.
  - rewrite Ej, !compareSegment_refl. cbn.
    destruct (compareSegment_lt _ _ H) as [-> ->]. now split.
  - rewrite Ej, En, !compareSegment_refl. cbn.
    destruct (compareSegment_lt _ _ H) as [-> ->]. now split.
Qed.

Lemma Compare_numbers_first_witness :
  let a := mkClass 1 9 9 "" "" "1.9.9" in
  let b := mkClass 1 10 0 "alpha" "x" "1.10.0-alpha+x" in
  Compare a b = (-1)%Z /\ Compare b a = 1%Z.
Proof.
  intros a b. apply Compare_numbers_first.
  right. split; [ reflexivity | left; reflexivity ].
Defined.

(** X3: of two versions with the same major, minor and patch, the one
    with a prerelease is below the one without. *)
Theorem Compare_release_above_prerelease (a b : Class) :
  numEq a b -> pre a <> "" -> pre b = "" ->
  Compare a b = (-1)%Z /\ Compare b a = 1%Z /\
  LessThan a b = true /\ GreaterThan b a = true.
Proof.
  intros (Ej & En & Ep) Ha Hb.
  assert (H : Compare a b = (-1)%Z /\ Compare b a = 1%Z).
  { unfold Compare, Major, Minor, Patch, Prerelease. cbv zeta.
    rewrite Ej, En, Ep, !compareSegment_refl, Hb. cbn.
    apply String.eqb_neq in Ha. rewrite Ha. now split. }
  destruct H as [H1 H2]. unfold LessThan, GreaterThan. rewrite H1, H2.
  now repeat split.
Qed.

Lemma Compare_release_above_prerelease_witness :
  let a := mkClass 2 0 0 "rc.9" "" "2.0.0-rc.9" in
  let b := mkClass 2 0 0 "" "build" "2.0.0+build" in
  Compare a b = (-1)%Z /\ Compare b a = 1%Z /\
  LessThan a b = true /\ GreaterThan b a = true.
Proof.
  intros a b. apply Compare_release_above_prerelease.
  - repeat split.
  - discriminate.
  - reflexivity.
Defined.

(** ** [LessThan] is transitive *)

Lemma ascii_compare_lt_trans (a b c : ascii) :
  Ascii.compare a b = Lt -> Ascii.compare b c = Lt -> Ascii.compare a c = Lt.
Proof.
  unfold Ascii.compare. rewrite !N.compare_lt_iff. lia.
Qed.

Lemma string_compare_lt_trans (a : string) :
  forall b c,
    String.compare a b = Lt -> String.compare b c = Lt ->
    String.compare a c = Lt.
Proof.
  induction a as [ | x a IH ]; intros [ | y b ] [ | z c ] H1 H2;
    cbn in *; try discriminate; try reflexivity.
  destruct (Ascii.compare x y) eqn:Exy; try discriminate;
    destruct (Ascii.compare y z) eqn:Eyz; try discriminate.
  - apply Ascii.compare_eq_iff in Exy, Eyz. subst y z.
    replace (Ascii.compare x x) with Eq
      by (unfold Ascii.compare; now rewrite N.compare_refl).
    now apply (IH b c).
  - apply Ascii.compare_eq_iff in Exy. subst y. now rewrite Eyz.
  - apply Ascii.compare_eq_iff in Eyz. subst z. now rewrite Exy.
  - now rewrite (ascii_compare_lt_trans x y z Exy Eyz).
Qed.

(** [o] is not below [s], and they differ: [s] is below [o]. *)
Lemma not_ltb_compare (s o : string) :
  s <> o -> String.ltb o s = false -> String.compare s o = Lt.
Proof.
  intros Hne H. unfold String.ltb in H.
  rewrite (String.compare_antisym s o).
  destruct (String.compare o s) eqn:E; try discriminate; try reflexivity.
  apply String.compare_eq_iff in E. congruence.
Qed.

Lemma compare_lt_not_ltb (s o : string) :
  String.compare s o = Lt -> s <> o /\ String.ltb o s = false.
Proof.
  intros H. split.
  - intros E. subst s. pose proof (String.compare_antisym o o) as A.
    rewrite H in A. discriminate.
  - unfold String.ltb. rewrite (String.compare_antisym o s), H. reflexivity.
Qed.

(** When [comparePrePart] finds [s] below [o]. *)
Lemma comparePrePart_lt_inv (s o : string) :
  comparePrePart s o = (-1)%Z ->
  s <> o /\
  (s = "" \/
   (s <> "" /\ o <> "" /\
    match strconv.ParseUint s, strconv.ParseUint o with
    | inl ns, inl no => (ns <= no)%N
    | inl _, inr _ => True
    | inr _, inl _ => False
    | inr _, inr _ => String.ltb o s = false
    end)).
Proof.
  unfold comparePrePart.
  destruct (s =? o) eqn:Eso; [ discriminate | ].
  apply String.eqb_neq in Eso. intros H. split; [ exact Eso | ].
  destruct (s =? "") eqn:Es; [ left; now apply String.eqb_eq | right ].
  destruct (o =? "") eqn:Eo; [ discriminate | ].
  apply String.eqb_neq in Es, Eo.
  split; [ exact Es | ]. split; [ exact Eo | ].
  destruct (strconv.ParseUint o), (strconv.ParseUint s);
    try discriminate; try exact I.
  - destruct (_ <? _)%N eqn:E; [ discriminate | ].
    now apply N.ltb_ge in E.
  - now destruct (String.ltb o s).
Qed.

Lemma comparePrePart_lt_intro (s o : string) :
  s <> o -> s <> "" -> o <> "" ->
  match strconv.ParseUint s, strconv.ParseUint o with
  | inl ns, inl no => (ns <= no)%N
  | inl _, inr _ => True
  | inr _, inl _ => False
  | inr _, inr _ => String.ltb o s = false
  end ->
  comparePrePart s o = (-1)%Z.
Proof.
  intros Hso Hs Ho H. unfold comparePrePart.
  apply String.eqb_neq in Hso, Hs, Ho. rewrite Hso, Hs, Ho.
  destruct (strconv.ParseUint o), (strconv.ParseUint s);
    try reflexivity; try contradiction.
  - apply N.ltb_ge in H. now rewrite H.
  - now rewrite H.
Qed.

Lemma comparePrePart_trans (s o c : string) :
  leadingZero s = false -> leadingZero o = false -> leadingZero c = false ->
  comparePrePart s o = (-1)%Z -> comparePrePart o c = (-1)%Z ->
  comparePrePart s c = (-1)%Z.
Proof.
  intros Zs Zo Zc H1 H2.
  apply comparePrePart_lt_inv in H1, H2.
  destruct H1 as [Nso H1], H2 as [Noc H2].
  assert (Hc : c <> "").
  { destruct H2 as [-> | (_ & Hc & _)]; [ | exact Hc ].
    destruct H1 as [-> | (_ & Ho & _)]; congruence. }
  destruct H1 as [-> | (Hs & Ho & H1)].
  { now apply comparePrePart_empty_l. }
  destruct H2 as [-> | (_ & _ & H2)]; [ congruence | ].
  destruct (strconv.ParseUint s) as [ ns | es ] eqn:Ps,
           (strconv.ParseUint o) as [ no | eo ] eqn:Po,
           (strconv.ParseUint c) as [ nc | ec ] eqn:Pc;
    try contradiction.
  - (* three numbers *)
    apply comparePrePart_lt_intro; try assumption; rewrite ?Ps, ?Pc; [ | lia ].
    intros ->. assert (ns = nc) by congruence. subst nc.
    assert (ns = no) by lia. subst no.
    apply Nso.
    apply ParseUint_value in Ps, Po.
    destruct Ps as (_ & Ds & Vs), Po as (_ & Do & Vo).
    apply decValue_inj; try assumption. congruence.
  - apply comparePrePart_lt_intro; try assumption; rewrite ?Ps, ?Pc;
      [ congruence | exact I ].
  - apply comparePrePart_lt_intro; try assumption; rewrite ?Ps, ?Pc;
      [ congruence | exact I ].
  - (* three strings *)
    pose proof (not_ltb_compare s o Nso H1) as L1.
    pose proof (not_ltb_compare o c Noc H2) as L2.
    pose proof (string_compare_lt_trans s o c L1 L2) as L.
    destruct (compare_lt_not_ltb s c L) as [Nsc Lsc].
    apply comparePrePart_lt_intro; try assumption. now rewrite Ps, Pc.
Qed.

(** The loop returns [-1] exactly when the identifiers agree up to a
    position where the left one is the lower. *)
Lemma comparePrereleaseLoop_lt_inv (sParts oParts : list string) :
  forall fuel i,
    comparePrereleaseLoop sParts oParts i fuel = (-1)%Z ->
    exists j,
      (i <= j < i + fuel)%nat /\
      (forall k, (i <= k < j)%nat -> nth k sParts "" = nth k oParts "") /\
      comparePrePart (nth j sParts "") (nth j oParts "") = (-1)%Z.
Proof.
  induction fuel as [ | fuel IH ]; intros i H; [ discriminate | ].
  rewrite comparePrereleaseLoop_unfold in H. cbv zeta in H.
  destruct (comparePrePart (nth i sParts "") (nth i oParts "")) eqn:E.
  - cbn in H. apply comparePrePart_zero in E.
    destruct (IH _ H) as (j & Hj & Hk & Hlt).
    exists j. split; [ lia | ]. split; [ | exact Hlt ].
    intros k Hki. destruct (Nat.eq_dec k i) as [-> | Hne];
      [ exact E | apply Hk; lia ].
  - cbn in H. discriminate.
  - cbn in H. exists i. split; [ lia | ]. split; [ intros k Hk; lia | ].
    now rewrite E.
Qed.

Lemma comparePrereleaseLoop_lt_intro (sParts oParts : list string) :
  forall fuel i j,
    (i <= j < i + fuel)%nat ->
    (forall k, (i <= k < j)%nat -> nth k sParts "" = nth k oParts "") ->
    comparePrePart (nth j sParts "") (nth j oParts "") = (-1)%Z ->
    comparePrereleaseLoop sParts oParts i fuel = (-1)%Z.
Proof.
  induction fuel as [ | fuel IH ]; intros i j Hj Hk Hlt; [ lia | ].
  rewrite comparePrereleaseLoop_unfold. cbv zeta.
  destruct (Nat.eq_dec j i) as [-> | Hne].
  - now rewrite Hlt.
  - rewrite (Hk i) by lia. rewrite comparePrePart_refl. cbn.
    apply (IH (S i) j); [ lia | | exact Hlt ].
    intros k Hki. apply Hk. lia.
Qed.

Lemma comparePrerelease_lt_iff (v o : string) :
  comparePrerelease v o = (-1)%Z <->
  exists j,
    (forall k, (k < j)%nat ->
               nth k (strings.Split v ".") "" = nth k (strings.Split o ".") "")
    /\ comparePrePart (nth j (strings.Split v ".") "")
                      (nth j (strings.Split o ".") "") = (-1)%Z.
Proof.
  unfold comparePrerelease. cbv zeta.
  set (S := strings.Split v "."). set (O := strings.Split o ".").
  split.
  - intros H. apply comparePrereleaseLoop_lt_inv in H.
    destruct H as (j & _ & Hk & Hlt). exists j. split; [ | exact Hlt ].
    intros k Hkj. apply Hk. lia.
  - intros (j & Hk & Hlt).
    apply (comparePrereleaseLoop_lt_intro S O _ 0 j);
      [ | intros k Hkj; apply Hk; lia | exact Hlt ].
    split; [ lia | ]. cbn [Nat.add].
    assert (Hne : nth j S "" <> nth j O "").
    { intros E. rewrite E, comparePrePart_refl in Hlt. discriminate. }
    destruct (Nat.lt_ge_cases j (List.length S)) as [HS | HS];
      destruct (Nat.lt_ge_cases j (List.length O)) as [HO | HO];
      try (destruct (_ <? _)%nat eqn:E;
           [ apply Nat.ltb_lt in E | apply Nat.ltb_ge in E ]; lia).
    exfalso. apply Hne. now rewrite !nth_overflow.
Qed.

Lemma comparePrerelease_trans (v o c : string) :
  noLeadingZeros v = true -> noLeadingZeros o = true ->
  noLeadingZeros c = true ->
  comparePrerelease v o = (-1)%Z -> comparePrerelease o c = (-1)%Z ->
  comparePrerelease v c = (-1)%Z.
Proof.
  intros Zv Zo Zc H1 H2.
  apply comparePrerelease_lt_iff in H1, H2. apply comparePrerelease_lt_iff.
  destruct H1 as (j1 & K1 & L1), H2 as (j2 & K2 & L2).
  destruct (Nat.lt_trichotomy j1 j2) as [Hlt | [-> | Hgt]].
  - exists j1. split.
    + intros k Hk. rewrite K1, K2 by lia. reflexivity.
    + now rewrite <- (K2 j1 Hlt).
  - exists j2. split.
    + intros k Hk. rewrite K1, K2 by lia. reflexivity.
    + apply (comparePrePart_trans _ (nth j2 (strings.Split o ".") ""));
        try assumption; now apply leadingZero_nth.
  - exists j2. split.
    + intros k Hk. rewrite K1, K2 by lia. reflexivity.
    + now rewrite (K1 j2 Hgt).
Qed.

Lemma compareSegment_cases (v o : N) :
  ((v < o)%N /\ compareSegment v o = (-1)%Z) \/
  (v = o /\ compareSegment v o = 0%Z) \/
  ((o < v)%N /\ compareSegment v o = 1%Z).
Proof.
  unfold compareSegment.
  destruct (v <? o)%N eqn:E1; [ apply N.ltb_lt in E1; now left | ].
  destruct (o <? v)%N eqn:E2; [ apply N.ltb_lt in E2; now right; right | ].
  apply N.ltb_ge in E1, E2. right; left. split; [ lia | reflexivity ].
Qed.

(** [Compare] on versions that agree on the three numbers. *)
Lemma Compare_numEq (a b : Class) :
  numEq a b ->
  Compare a b =
  if (pre a =? "") && (pre b =? "") then 0%Z
  else if pre a =? "" then 1%Z
  else if pre b =? "" then (-1)%Z
  else comparePrerelease (pre a) (pre b).
Proof.
  intros (Ej & En & Ep). unfold Compare, Major, Minor, Patch, Prerelease.
  rewrite Ej, En, Ep, !compareSegment_refl. reflexivity.
Qed.

Lemma Compare_numbers_first_aux (a b : Class) :
  numLt a b -> Compare a b = (-1)%Z.
Proof.
  unfold numLt, Compare, Major, Minor, Patch. cbv zeta.
  intros [H | [Ej [H | [En H]]]].
  - now destruct (compareSegment_lt _ _ H) as [-> _].
  - rewrite Ej, !compareSegment_refl. cbn.
    now destruct (compareSegment_lt _ _ H) as [-> _].
  - rewrite Ej, En, !compareSegment_refl. cbn.
    now destruct (compareSegment_lt _ _ H) as [-> _].
Qed.

Lemma Compare_lt_iff (a b : Class) :
  Compare a b = (-1)%Z <->
  numLt a b \/ (numEq a b /\ preLt (pre a) (pre b)).
Proof.
  split.
  - intros H.
    destruct (compareSegment_cases (major a) (major b))
      as [[Hj Cj] | [[Hj Cj] | [Hj Cj]]];
      [ left; now left | | exfalso ].
    2:{ unfold Compare, Major in H. cbv zeta in H. rewrite Cj in H.
        cbn in H. discriminate. }
    destruct (compareSegment_cases (minor a) (minor b))
      as [[Hn Cn] | [[Hn Cn] | [Hn Cn]]];
      [ left; right; split; [ exact Hj | now left ] | | exfalso ].
    2:{ unfold Compare, Major, Minor in H. cbv zeta in H.
        rewrite Cj, Cn in H. cbn in H. discriminate. }
    destruct (compareSegment_cases (patch a) (patch b))
      as [[Hp Cp] | [[Hp Cp] | [Hp Cp]]];
      [ left; right; split; [ exact Hj | right; now split ] | | exfalso ].
    2:{ unfold Compare, Major, Minor, Patch in H. cbv zeta in H.
        rewrite Cj, Cn, Cp in H. cbn in H. discriminate. }
    right. assert (E : numEq a b) by now repeat split.
    split; [ exact E | ].
    rewrite (Compare_numEq a b E) in H. unfold preLt.
    destruct (pre a =? "") eqn:Ea, (pre b =? "") eqn:Eb; cbn in H;
      try discriminate.
    + left. split; [ now apply String.eqb_neq | now apply String.eqb_eq ].
    + right. split; [ now apply String.eqb_neq | ].
      split; [ now apply String.eqb_neq | exact H ].
  - intros [H | [E H]].
    + now apply Compare_numbers_first_aux.
    + rewrite (Compare_numEq a b E).
      destruct H as [[Ha Hb] | (Ha & Hb & H)].
      * apply String.eqb_neq in Ha. rewrite Ha, Hb. reflexivity.
      * apply String.eqb_neq in Ha, Hb. now rewrite Ha, Hb.
Qed.

Lemma LessThan_iff (a b : Class) :
  LessThan a b = true <-> Compare a b = (-1)%Z.
Proof.
  unfold LessThan. rewrite Z.ltb_lt.
  pose proof (Compare_bounds a b). lia.
Qed.

Lemma numLt_trans (a b c : Class) : numLt a b -> numLt b c -> numLt a c.
Proof. unfold numLt. intros H1 H2. lia. Qed.

Lemma numLt_numEq_l (a b c : Class) : numEq a b -> numLt b c -> numLt a c.
Proof. unfold numLt, numEq. intros H1 H2. lia. Qed.

Lemma numLt_numEq_r (a b c : Class) : numLt a b -> numEq b c -> numLt a c.
Proof. unfold numLt, numEq. intros H1 H2. lia. Qed.

Lemma numEq_trans (a b c : Class) : numEq a b -> numEq b c -> numEq a c.
Proof. unfold numEq. intros H1 H2. lia. Qed.

Lemma preLt_trans (p q r : string) :
  noLeadingZeros p = true -> noLeadingZeros q = true ->
  noLeadingZeros r = true ->
  preLt p q -> preLt q r -> preLt p r.
Proof.
  unfold preLt.
  intros Zp Zq Zr [[Hp Hq] | (Hp & Hq & H1)] [[Hq' Hr] | (Hq' & Hr & H2)];
    try congruence.
  - left. now split.
  - right. split; [ exact Hp | ]. split; [ exact Hr | ].
    now apply (comparePrerelease_trans p q r).
Qed.

(** X4: [LessThan] is transitive on versions none of whose prerelease
    identifiers is a number with a leading zero (every version from
    [StrictNew], [New], [SetPrerelease] and the increments). *)
Theorem LessThan_trans (a b c : Class) :
  noLeadingZeros (pre a) = true -> noLeadingZeros (pre b) = true ->
  noLeadingZeros (pre c) = true ->
  LessThan a b = true -> LessThan b c = true -> LessThan a c = true.
Proof.
  intros Za Zb Zc H1 H2.
  apply LessThan_iff, Compare_lt_iff in H1.
  apply LessThan_iff, Compare_lt_iff in H2.
  apply LessThan_iff, Compare_lt_iff.
  destruct H1 as [N1 | [E1 P1]], H2 as [N2 | [E2 P2]].
  - left. now apply (numLt_trans a b c).
  - left. now apply (numLt_numEq_r a b c).
  - left. now apply (numLt_numEq_l a b c).
  - right. split; [ now apply (numEq_trans a b c) | ].
    now apply (preLt_trans (pre a) (pre b) (pre c)).
Qed.

Lemma LessThan_trans_witness :
  let a := mkClass 1 0 0 "alpha.2" "" "1.0.0-alpha.2" in
  let b := mkClass 1 0 0 "alpha.10.x" "" "1.0.0-alpha.10.x" in
  let c := mkClass 1 0 0 "" "" "1.0.0" in
  LessThan a b = true /\ LessThan b c = true /\ LessThan a c = true.
Proof.
  intros a b c.
  assert (H1 : LessThan a b = true) by reflexivity.
  assert (H2 : LessThan b c = true) by reflexivity.
  split; [ exact H1 | ]. split; [ exact H2 | ].
  apply (LessThan_trans a b c); try reflexivity; assumption.
Defined.

(** ** [Equal] is an equivalence, and [Compare] respects it *)

Lemma comparePrereleaseLoop_zero_intro (sParts oParts : list string) :
  forall fuel i,
    (forall j, (i <= j < i + fuel)%nat ->
               nth j sParts "" = nth j oParts "") ->
    comparePrereleaseLoop sParts oParts i fuel = 0%Z.
Proof.
  induction fuel as [ | fuel IH ]; intros i H; [ reflexivity | ].
  rewrite comparePrereleaseLoop_unfold. cbv zeta.
  rewrite (H i) by lia. rewrite comparePrePart_refl. cbn.
  apply IH. intros j Hj. apply H. lia.
Qed.

Lemma comparePrerelease_zero_iff (v o : string) :
  comparePrerelease v o = 0%Z <->
  forall j, nth j (strings.Split v ".") "" = nth j (strings.Split o ".") "".
Proof.
  unfold comparePrerelease. cbv zeta.
  set (S := strings.Split v "."). set (O := strings.Split o ".").
  split.
  - intros H j.
    destruct (Nat.lt_ge_cases j (Nat.max (List.length S) (List.length O)))
      as [Hlt | Hge].
    + apply (comparePrereleaseLoop_zero _ _ _ 0 H). split; [ lia | ].
      cbn [Nat.add].
      destruct (_ <? _)%nat eqn:E;
        [ apply Nat.ltb_lt in E | apply Nat.ltb_ge in E ]; lia.
    + rewrite !nth_overflow by lia. reflexivity.
  - intros H. apply comparePrereleaseLoop_zero_intro. intros j _. apply H.
Qed.

Lemma Compare_zero_iff (a b : Class) :
  Compare a b = 0%Z <-> numEq a b /\ preSame (pre a) (pre b).
Proof.
  split.
  - intros H.
    assert (E : numEq a b).
    { unfold Compare, Major, Minor, Patch in H. cbv zeta in H.
      destruct (compareSegment_cases (major a) (major b))
        as [[Hj Cj] | [[Hj Cj] | [Hj Cj]]]; rewrite Cj in H; cbn in H;
        try discriminate.
      destruct (compareSegment_cases (minor a) (minor b))
        as [[Hn Cn] | [[Hn Cn] | [Hn Cn]]]; rewrite Cn in H; cbn in H;
        try discriminate.
      destruct (compareSegment_cases (patch a) (patch b))
        as [[Hp Cp] | [[Hp Cp] | [Hp Cp]]]; rewrite Cp in H; cbn in H;
        try discriminate.
      now repeat split. }
    split; [ exact E | ].
    rewrite (Compare_numEq a b E) in H. unfold preSame.
    destruct (pre a =? "") eqn:Ea, (pre b =? "") eqn:Eb; cbn in H;
      try discriminate.
    + left. split; now apply String.eqb_eq.
    + right. split; [ now apply String.eqb_neq | ].
      split; [ now apply String.eqb_neq | ].
      now apply comparePrerelease_zero_iff.
  - intros [E H]. rewrite (Compare_numEq a b E).
    destruct H as [[-> ->] | (Ha & Hb & H)]; [ reflexivity | ].
    apply String.eqb_neq in Ha, Hb. rewrite Ha, Hb. cbn.
    now apply comparePrerelease_zero_iff.
Qed.

Lemma preSame_sym (p q : string) : preSame p q -> preSame q p.
Proof.
  intros [[-> ->] | (Hp & Hq & H)]; [ now left | right ].
  repeat split; try assumption. intros j. now rewrite H.
Qed.

Lemma preSame_trans (p q r : string) :
  preSame p q -> preSame q r -> preSame p r.
Proof.
  intros [[-> ->] | (Hp & Hq & H1)] [[E ->] | (Hq' & Hr & H2)];
    try congruence.
  - now left.
  - right. repeat split; try assumption. intros j. now rewrite H1, H2.
Qed.

(** X5: [Equal] is reflexive, symmetric and transitive on all versions. *)
Theorem Equal_equivalence :
  (forall a, Equal a a = true) /\
  (forall a b, Equal a b = true -> Equal b a = true) /\
  (forall a b c, Equal a b = true -> Equal b c = true -> Equal a c = true).
Proof.
  unfold Equal. split; [ | split ].
  - intros a. now rewrite Compare_refl.
  - intros a b H. apply Z.eqb_eq in H. apply Z.eqb_eq.
    apply Compare_zero_iff in H. apply Compare_zero_iff.
    destruct H as [(Ej & En & Ep) H].
    split; [ now repeat split | now apply preSame_sym ].
  - intros a b c H1 H2. apply Z.eqb_eq in H1, H2. apply Z.eqb_eq.
    apply Compare_zero_iff in H1, H2. apply Compare_zero_iff.
    destruct H1 as [E1 P1], H2 as [E2 P2].
    split; [ now apply (numEq_trans a b c)
           | now apply (preSame_trans (pre a) (pre b) (pre c)) ].
Qed.

Lemma Equal_equivalence_witness :
  let a := mkClass 1 2 3 "rc.1" "a" "1.2.3-rc.1+a" in
  let b := mkClass 1 2 3 "rc.1." "b" "v1.2.3-rc.1.+b" in
  let c := mkClass 1 2 3 "rc.1.." "" "1.2.3-rc.1.." in
  Equal a b = true /\ Equal b c = true /\
  Equal c a = true /\ Equal a c = true.
Proof.
  intros a b c.
  destruct Equal_equivalence as (_ & Hsym & Htrans).
  assert (H1 : Equal a b = true) by reflexivity.
  assert (H2 : Equal b c = true) by reflexivity.
  assert (H3 : Equal a c = true) by exact (Htrans a b c H1 H2).
  split; [ exact H1 | ]. split; [ exact H2 | ].
  split; [ exact (Hsym a c H3) | exact H3 ].
Defined.

(** The loop reads the identifiers through [nth] only. *)
Lemma comparePrereleaseLoop_ext (s s' o o' : list string) :
  (forall j, nth j s "" = nth j s' "") ->
  (forall j, nth j o "" = nth j o' "") ->
  forall fuel i,
    comparePrereleaseLoop s o i fuel = comparePrereleaseLoop s' o' i fuel.
Proof.
  intros Hs Ho. induction fuel as [ | fuel IH ]; intros i; [ reflexivity | ].
  rewrite !comparePrereleaseLoop_unfold. cbv zeta.
  rewrite Hs, Ho, IH. reflexivity.
Qed.

(** Rounds past the end of both lists change nothing. *)
Lemma comparePrereleaseLoop_more (s o : list string) :
  forall fuel i extra,
    (List.length s <= i + fuel)%nat -> (List.length o <= i + fuel)%nat ->
    comparePrereleaseLoop s o i (fuel + extra)
    = comparePrereleaseLoop s o i fuel.
Proof.
  induction fuel as [ | fuel IH ]; intros i extra Hs Ho.
  - cbn [Nat.add comparePrereleaseLoop].
    apply comparePrereleaseLoop_zero_intro.
    intros j Hj. rewrite !nth_overflow by lia. reflexivity.
  - cbn [Nat.add]. rewrite !comparePrereleaseLoop_unfold. cbv zeta.
    rewrite IH by lia. reflexivity.
Qed.

Lemma comparePrerelease_as_loop (v o : string) (n : nat) :
  (List.length (strings.Split v ".") <= n)%nat ->
  (List.length (strings.Split o ".") <= n)%nat ->
  comparePrerelease v o
  = comparePrereleaseLoop (strings.Split v ".") (strings.Split o ".") 0 n.
Proof.
  intros Hv Ho. unfold comparePrerelease. cbv zeta.
  set (S := strings.Split v ".") in *. set (O := strings.Split o ".") in *.
  set (l := if (List.length S <? List.length O)%nat
            then List.length O else List.length S).
  assert (Hl : (List.length S <= l /\ List.length O <= l /\ l <= n)%nat).
  { subst l. destruct (_ <? _)%nat eqn:E;
      [ apply Nat.ltb_lt in E | apply Nat.ltb_ge in E ]; lia. }
  replace n with (l + (n - l))%nat by lia.
  symmetry. apply comparePrereleaseLoop_more; cbn [Nat.add]; lia.
Qed.

Lemma comparePrerelease_ext (p p' q q' : string) :
  (forall j, nth j (strings.Split p ".") ""
             = nth j (strings.Split p' ".") "") ->
  (forall j, nth j (strings.Split q ".") ""
             = nth j (strings.Split q' ".") "") ->
  comparePrerelease p q = comparePrerelease p' q'.
Proof.
  intros Hp Hq.
  set (n := (List.length (strings.Split p ".")
             + List.length (strings.Split p' ".")
             + List.length (strings.Split q ".")
             + List.length (strings.Split q' "."))%nat).
  rewrite (comparePrerelease_as_loop p q n) by (subst n; lia).
  rewrite (comparePrerelease_as_loop p' q' n) by (subst n; lia).
  now apply comparePrereleaseLoop_ext.
Qed.

Lemma Compare_ext (a a' b b' : Class) :
  numEq a a' -> preSame (pre a) (pre a') ->
  numEq b b' -> preSame (pre b) (pre b') ->
  Compare a b = Compare a' b'.
Proof.
  intros (Aj & An & Ap) PA (Bj & Bn & Bp) PB.
  unfold Compare, Major, Minor, Patch, Prerelease. cbv zeta.
  rewrite Aj, An, Ap, Bj, Bn, Bp.
  destruct (negb (compareSegment (major a') (major b') =? 0)%Z);
    [ reflexivity | ].
  destruct (negb (compareSegment (minor a') (minor b') =? 0)%Z);
    [ reflexivity | ].
  destruct (negb (compareSegment (patch a') (patch b') =? 0)%Z);
    [ reflexivity | ].
  destruct PA as [[-> ->] | (Ha & Ha' & HA)],
           PB as [[-> ->] | (Hb & Hb' & HB)].
  - reflexivity.
  - apply String.eqb_neq in Hb, Hb'. now rewrite Hb, Hb'.
  - apply String.eqb_neq in Ha, Ha'. now rewrite Ha, Ha'.
  - rewrite (comparePrerelease_ext _ _ _ _ HA HB).
    apply String.eqb_neq in Ha, Ha', Hb, Hb'.
    now rewrite Ha, Ha', Hb, Hb'.
Qed.

(** X6: versions that are [Equal] can be exchanged on either side of
    [Compare], hence of [LessThan], [GreaterThan] and [Equal]. *)
Theorem Compare_respects_Equal (a a' b b' : Class) :
  Equal a a' = true -> Equal b b' = true ->
  Compare a b = Compare a' b' /\
  LessThan a b = LessThan a' b' /\
  GreaterThan a b = GreaterThan a' b' /\
  Equal a b = Equal a' b'.
Proof.
  unfold Equal at 1 2. intros HA HB. apply Z.eqb_eq in HA, HB.
  apply Compare_zero_iff in HA, HB.
  destruct HA as [NA PA], HB as [NB PB].
  assert (E : Compare a b = Compare a' b') by now apply Compare_ext.
  unfold LessThan, GreaterThan, Equal. rewrite E. now repeat split.
Qed.

Lemma Compare_respects_Equal_witness :
  let a := mkClass 1 0 0 "beta" "x" "1.0.0-beta+x" in
  let a' := mkClass 1 0 0 "beta." "" "1.0.0-beta." in
  let b := mkClass 1 0 0 "beta.2" "" "1.0.0-beta.2" in
  Compare a b = Compare a' b /\ Compare a' b = (-1)%Z.
Proof.
  intros a a' b.
  destruct (Compare_respects_Equal a a' b b) as (E & _).
  - reflexivity.
  - reflexivity.
  - split; [ exact E | reflexivity ].
Defined.

(** X7: on versions none of whose prerelease identifiers is a number with
    a leading zero, exactly one of [LessThan(a, b)], [Equal(a, b)] and
    [LessThan(b, a)] holds, and [GreaterThan(a, b)] is [LessThan(b, a)]. *)
Theorem LessThan_total (a b : Class) :
  noLeadingZeros (pre a) = true -> noLeadingZeros (pre b) = true ->
  GreaterThan a b = LessThan b a /\
  ((LessThan a b = true /\ Equal a b = false /\ LessThan b a = false) \/
   (LessThan a b = false /\ Equal a b = true /\ LessThan b a = false) \/
   (LessThan a b = false /\ Equal a b = false /\ LessThan b a = true)).
Proof.
  intros Za Zb. pose proof (Compare_antisym b a Zb Za) as A.
  unfold GreaterThan, LessThan, Equal. rewrite A.
  assert (Compare a b = (-1)%Z \/ Compare a b = 0%Z \/ Compare a b = 1%Z)
    as [E | [E | E]] by (pose proof (Compare_bounds a b); lia);
    rewrite E; cbn; split; try reflexivity; auto.
Qed.

Lemma LessThan_total_witness :
  let a := mkClass 1 0 0 "rc.1" "" "1.0.0-rc.1" in
  let b := mkClass 1 0 0 "rc.1.0" "" "1.0.0-rc.1.0" in
  GreaterThan b a = LessThan a b /\ LessThan a b = true.
Proof.
  intros a b. split; [ | reflexivity ].
  apply (LessThan_total b a); reflexivity.
Defined.

(** ** What the validators accept *)

Lemma ContainsRune_allowed (c : ascii) :
  strings.ContainsRune allowed c = isAllowed c.
Proof.
  destruct c as [b0 b1 b2 b3 b4 b5 b6 b7].
  destruct b0, b1, b2, b3, b4, b5, b6, b7; vm_compute; reflexivity.
Qed.

Lemma containsOnly_allowed (s : string) :
  containsOnly s allowed = allOf isAllowed s.
Proof.
  rewrite containsOnly_allOf. apply allOf_ext, ContainsRune_allowed.
Qed.

Lemma isDigit_isAllowed (c : ascii) :
  strconv.isDigit c = true -> isAllowed c = true.
Proof.
  unfold strconv.isDigit, isAllowed. intros H. now rewrite H.
Qed.

Lemma allOf_impl (f g : ascii -> bool) (s : string) :
  (forall c, f c = true -> g c = true) ->
  allOf f s = true -> allOf g s = true.
Proof.
  intros Hfg. induction s as [ | c s IH ]; [ reflexivity | ].
  cbn. intros H. apply andb_true_iff in H. destruct H as [Hc Hs].
  now rewrite (Hfg c Hc), (IH Hs).
Qed.

(** The identifiers are made of [[0-9A-Za-z-]] exactly when the string is
    made of these bytes and dots. *)
Lemma Split_allowed (s : string) :
  forallb (allOf isAllowed) (strings.Split s ".") = allOf extraByte s.
Proof.
  induction s as [ | c s IH ]; [ reflexivity | ].
  cbn [strings.Split allOf]. unfold extraByte at 1.
  pose proof (Split_not_nil s ".") as Hne.
  destruct (Ascii.eqb c ".") eqn:E.
  - rewrite orb_true_r. cbn. exact IH.
  - rewrite orb_false_r.
    destruct (strings.Split s ".") as [ | p ps ]; [ congruence | ].
    cbn in *. now rewrite <- IH, andb_assoc.
Qed.

Lemma validateMetadataParts_spec (parts : list string) :
  validateMetadataParts parts
  = if forallb (allOf isAllowed) parts then None
    else Some ErrInvalidMetadata.
Proof.
  induction parts as [ | p parts IH ]; [ reflexivity | ].
  cbn. rewrite containsOnly_allowed.
  destruct (allOf isAllowed p); cbn; [ exact IH | reflexivity ].
Qed.

(** X8: [validateMetadata] accepts exactly the strings made of the bytes
    [[0-9A-Za-z-]] and dots (the empty string and empty identifiers
    included), and fails with [ErrInvalidMetadata] on all others. *)
Theorem validateMetadata_spec (m : string) :
  validateMetadata m
  = if allOf extraByte m then None else Some ErrInvalidMetadata.
Proof.
  unfold validateMetadata.
  now rewrite validateMetadataParts_spec, Split_allowed.
Qed.

Lemma validatePrereleaseParts_spec (parts : list string) :
  (validatePrereleaseParts parts = None <->
   forallb (allOf isAllowed) parts = true /\
   forallb (fun i => negb (leadingZero i)) parts = true) /\
  (forall e, validatePrereleaseParts parts = Some e ->
             e = ErrSegmentStartsZero \/ e = ErrInvalidPrerelease) /\
  (forallb (allOf isAllowed) parts = true ->
   forall e, validatePrereleaseParts parts = Some e ->
             e = ErrSegmentStartsZero).
Proof.
  induction parts as [ | p parts (IH1 & IH2 & IH3) ].
  - cbn. repeat split; try discriminate; trivial.
  - cbn [validatePrereleaseParts forallb]. unfold leadingZero at 1 2.
    rewrite containsOnly_num, containsOnly_allowed.
    destruct (allOf strconv.isDigit p) eqn:Dp.
    + assert (Ap : allOf isAllowed p = true)
        by (apply (allOf_impl strconv.isDigit); [ apply isDigit_isAllowed | exact Dp ]).
      rewrite Ap. cbn [andb negb].
      destruct ((1 <? String.length p)%nat && firstByteIs p "0"); cbn.
      * split; [ split; [ discriminate | intros [_ H]; discriminate ] | ].
        split; intros; left + idtac; congruence.
      * split; [ exact IH1 | split; [ exact IH2 | exact IH3 ] ].
    + cbn [andb negb].
      destruct (allOf isAllowed p); cbn.
      * split; [ exact IH1 | split; [ exact IH2 | exact IH3 ] ].
      * split; [ split; [ discriminate | intros [H _]; discriminate ] | ].
        split; [ intros e [= <-]; now right | discriminate ].
Qed.

(** X9: [validatePrerelease] accepts exactly the strings made of the bytes
    [[0-9A-Za-z-]] and dots in which no identifier of digits only, longer
    than one, starts with [0]; it fails with [ErrSegmentStartsZero] or
    [ErrInvalidPrerelease], and what it accepts [validateMetadata]
    accepts. *)
Theorem validatePrerelease_spec (p : string) :
  (validatePrerelease p = None <->
   allOf extraByte p = true /\ noLeadingZeros p = true) /\
  (forall e, validatePrerelease p = Some e ->
             e = ErrSegmentStartsZero \/ e = ErrInvalidPrerelease) /\
  (validatePrerelease p = None -> validateMetadata p = None).
Proof.
  unfold validatePrerelease, noLeadingZeros.
  destruct (validatePrereleaseParts_spec (strings.Split p "."))
    as (H1 & H2 & _).
  rewrite Split_allowed in H1.
  split; [ exact H1 | ]. split; [ exact H2 | ].
  intros H. apply H1 in H. destruct H as [H _].
  unfold validateMetadata.
  now rewrite validateMetadataParts_spec, Split_allowed, H.
Qed.

Lemma validatePrerelease_spec_witness :
  validatePrerelease "rc-1..0.x7" = None /\
  validateMetadata "rc-1..0.x7" = None /\
  validatePrerelease "a.007" = Some ErrSegmentStartsZero.
Proof.
  assert (H : validatePrerelease "rc-1..0.x7" = None)
    by (apply (proj1 (validatePrerelease_spec "rc-1..0.x7")); split; reflexivity).
  split; [ exact H | ].
  split; [ exact (proj2 (proj2 (validatePrerelease_spec "rc-1..0.x7")) H) | ].
  reflexivity.
Defined.

(** ** The bytes of what [New] accepts, and its errors *)

Lemma Matches_accepts r x m m' :
  Matches r x m m' -> allOf (accepts r) x = true.
Proof.
  induction 1 as [ c m | p c m Hc | r1 r2 x y m m1 m2 _ IH1 _ IH2
                 | r x m m1 _ IH | | | r x y m m1 m2 _ IH1 _ IH2
                 | i r x m m1 _ IH ]; cbn [accepts]; try reflexivity.
  - cbn. now rewrite Ascii.eqb_refl.
  - cbn. now rewrite Hc.
  - rewrite allOf_app. apply andb_true_iff. split.
    + apply (allOf_impl (accepts r1)); [ | exact IH1 ].
      intros c Hc. now rewrite Hc.
    + apply (allOf_impl (accepts r2)); [ | exact IH2 ].
      intros c Hc. rewrite Hc. apply orb_true_r.
  - exact IH.
  - change (allOf (accepts r) (x ++ y) = true).
    change (allOf (accepts r) y = true) in IH2.
    now rewrite allOf_app, IH1, IH2.
  - exact IH.
Qed.

Lemma accepts_semVerRegex (c : ascii) :
  accepts semVerRegex c = true -> versionByte c = true.
Proof.
  destruct c as [b0 b1 b2 b3 b4 b5 b6 b7].
  destruct b0, b1, b2, b3, b4, b5, b6, b7; vm_compute; trivial.
Qed.

Lemma accepts_identifiers (g : nat) (c : ascii) :
  accepts (identifiers g) c = true -> extraByte c = true.
Proof.
  unfold identifiers, extraByte. cbn [accepts regexp.Plus].
  destruct (isAllowed c); [ reflexivity | ].
  cbn. now rewrite orb_false_r.
Qed.

(** X10: every string [New] accepts is made of the bytes [[0-9A-Za-z-]],
    dots and plus signs: [New] does no trimming, and a space or a line end
    anywhere makes it fail. *)
Theorem New_alphabet (s : string) (v : Class) :
  New s = inl v -> allOf versionByte s = true.
Proof.
  unfold New, ClassRegex, regexp.FindStringSubmatch.
  destruct (regexp.run semVerRegex s regexp.noSubmatch _) as [ m | ] eqn:R;
    [ | discriminate ].
  intros _. apply run_sound in R. destruct R as (x & s' & m' & -> & HM & Hk).
  destruct s' as [ | ? ? ]; [ | discriminate ].
  rewrite append_nil_r.
  apply (allOf_impl (accepts semVerRegex));
    [ apply accepts_semVerRegex | now apply (Matches_accepts _ _ _ _ HM) ].
Qed.

Lemma New_alphabet_witness :
  allOf versionByte "v1.2.3-rc.1+b-7" = true /\
  New "1.2.3 " = inr ErrInvalidSemVer.
Proof.
  split; [ | reflexivity ].
  apply (New_alphabet "v1.2.3-rc.1+b-7"
                      (mkClass 1 2 3 "rc.1" "b-7" "v1.2.3-rc.1+b-7")).
  vm_compute. reflexivity.
Defined.

(** The submatches of the prerelease and of the metadata are empty or
    match the expression of the identifiers. *)
Lemma ClassRegex_groups (s : string) (m : regexp.submatches) :
  ClassRegex s = Some m ->
  (m 5%nat = "" \/
   exists ma mb, Matches (identifiers 6) (m 5%nat) ma mb) /\
  (m 8%nat = "" \/
   exists ma mb, Matches (identifiers 9) (m 8%nat) ma mb).
Proof.
  unfold ClassRegex, regexp.FindStringSubmatch. intros H.
  apply run_sound in H. destruct H as (x & s' & m' & -> & HM & Hk).
  destruct s' as [ | ? ? ]; [ | discriminate ]. injection Hk as <-.
  unfold semVerRegex in HM.
  apply Matches_Cat_inv in HM. destruct HM as (vp & y1 & m0 & -> & Hv & HM).
  apply Matches_Cat_inv in HM. destruct HM as (d1 & y2 & m1 & -> & Hg1 & HM).
  apply Matches_Cat_inv in HM. destruct HM as (x2 & y3 & m2 & -> & Hg2 & HM).
  apply Matches_Cat_inv in HM. destruct HM as (x3 & y4 & m3 & -> & Hg3 & HM).
  apply Matches_Cat_inv in HM. destruct HM as (x4 & x7 & m4 & -> & Hg4 & Hg7).
  pose proof (Matches_frame _ _ _ _ Hv) as F0.
  pose proof (Matches_frame _ _ _ _ Hg1) as F1.
  pose proof (Matches_frame _ _ _ _ Hg2) as F2.
  pose proof (Matches_frame _ _ _ _ Hg3) as F3.
  pose proof (Matches_frame _ _ _ _ Hg4) as F4.
  pose proof (Matches_frame _ _ _ _ Hg7) as F7.
  cbn in F0, F1, F2, F3, F4, F7.
  rewrite !(setSub_other 0) by discriminate.
  split.
  - rewrite F7 by (intuition discriminate).
    apply Matches_Opt_inv in Hg4. destruct Hg4 as [[-> ->] | Hg4].
    + left. rewrite F3, F2, F1, F0 by (intuition discriminate). reflexivity.
    + right.
      apply Matches_Group_inv in Hg4. destruct Hg4 as (n1 & Hg4 & ->).
      apply Matches_Cat_inv in Hg4.
      destruct Hg4 as (x1 & y & n2 & -> & Hd & Hy).
      apply Matches_Group_inv in Hy. destruct Hy as (n3 & Hy & ->).
      rewrite setSub_other, setSub_same by discriminate.
      now exists n2, n3.
  - apply Matches_Opt_inv in Hg7. destruct Hg7 as [[-> ->] | Hg7].
    + left. rewrite F4, F3, F2, F1, F0 by (intuition discriminate).
      reflexivity.
    + right.
      apply Matches_Group_inv in Hg7. destruct Hg7 as (n1 & Hg7 & ->).
      apply Matches_Cat_inv in Hg7.
      destruct Hg7 as (x1 & y & n2 & -> & Hd & Hy).
      apply Matches_Group_inv in Hy. destruct Hy as (n3 & Hy & ->).
      rewrite setSub_other, setSub_same by discriminate.
      now exists n2, n3.
Qed.

Lemma ClassRegex_extraBytes (s : string) (m : regexp.submatches) :
  ClassRegex s = Some m ->
  allOf extraByte (m 5%nat) = true /\ allOf extraByte (m 8%nat) = true.
Proof.
  intros H. destruct (ClassRegex_groups s m H) as [H5 H8]. split.
  - destruct H5 as [-> | (ma & mb & H5)]; [ reflexivity | ].
    apply (allOf_impl (accepts (identifiers 6)));
      [ apply accepts_identifiers | now apply (Matches_accepts _ _ _ _ H5) ].
  - destruct H8 as [-> | (ma & mb & H8)]; [ reflexivity | ].
    apply (allOf_impl (accepts (identifiers 9)));
      [ apply accepts_identifiers | now apply (Matches_accepts _ _ _ _ H8) ].
Qed.

Lemma parseLoop_digits_error (s : string) :
  forall a e,
    allOf strconv.isDigit s = true ->
    strconv.parseLoop s a = inr e -> e = strconv.ErrRange.
Proof.
  induction s as [ | c s IH ]; intros a e Hd H; [ discriminate | ].
  cbn in Hd. apply andb_true_iff in Hd. destruct Hd as [Hc Hs].
  cbn [strconv.parseLoop] in H. rewrite Hc in H.
  destruct (strconv.cutoff <=? a)%N; [ now injection H as <- | ].
  cbv zeta in H.
  destruct (_ || _)%bool; [ now injection H as <- | ].
  now apply (IH _ _ Hs H).
Qed.

Lemma ParseUint_numeral_error (d : string) (e : strconv.NumError) :
  numeral d -> strconv.ParseUint d = inr e -> e = strconv.ErrRange.
Proof.
  intros [Hne Hd] H. destruct d as [ | c d ]; [ congruence | ].
  now apply (parseLoop_digits_error _ _ _ Hd H).
Qed.

Lemma optSegment_error (x g : string) (e : error) :
  optNumber x g -> optSegment g = inr e ->
  e = ErrParsingSegment strconv.ErrRange.
Proof.
  intros [[_ ->] | (d & -> & Hd & ->)] H; [ discriminate | ].
  rewrite optSegment_dot in H.
  destruct (strconv.ParseUint d) as [ n | e' ] eqn:P; [ discriminate | ].
  injection H as <-. now rewrite (ParseUint_numeral_error d e' Hd P).
Qed.

Lemma validateMetadata_spec_aux (m : string) :
  validateMetadata m
  = if allOf extraByte m then None else Some ErrInvalidMetadata.
Proof.
  unfold validateMetadata.
  now rewrite validateMetadataParts_spec, Split_allowed.
Qed.

(** X11: [New] fails with [ErrInvalidSemVer] (no match), with the error of
    a number segment out of range, or with [ErrSegmentStartsZero] (a
    numeric prerelease identifier with a leading zero), and with no other
    error: after the match, its checks of the characters of the
    prerelease and of the metadata cannot fail. *)
Theorem New_errors (s : string) (e : error) :
  New s = inr e ->
  e = ErrInvalidSemVer \/ e = ErrParsingSegment strconv.ErrRange
  \/ e = ErrSegmentStartsZero.
Proof.
  unfold New. destruct (ClassRegex s) as [ m | ] eqn:Hm;
    [ | intros [= <-]; now left ].
  destruct (ClassRegex_extraBytes s m Hm) as [B5 B8].
  apply ClassRegex_sound in Hm.
  destruct Hm as (vp & d1 & x2 & x3 & x4 & x7 & _ & _ & Hd1 & E1
                  & O2 & O3 & _ & _).
  destruct (strconv.ParseUint (m 1%nat)) as [ mj | e1 ] eqn:P1.
  2:{ intros [= <-]. right; left. rewrite E1 in P1.
      now rewrite (ParseUint_numeral_error d1 e1 Hd1 P1). }
  destruct (optSegment (m 2%nat)) as [ mn | e2 ] eqn:P2.
  2:{ intros [= <-]. right; left. exact (optSegment_error _ _ _ O2 P2). }
  destruct (optSegment (m 3%nat)) as [ pa | e3 ] eqn:P3.
  2:{ intros [= <-]. right; left. exact (optSegment_error _ _ _ O3 P3). }
  unfold validateExtra. cbn [pre metadata].
  destruct (negb (m 5%nat =? "")).
  - destruct (validatePrerelease (m 5%nat)) as [ e5 | ] eqn:V5.
    + intros [= <-]. right; right.
      unfold validatePrerelease in V5.
      destruct (validatePrereleaseParts_spec (strings.Split (m 5%nat) "."))
        as (_ & _ & H).
      apply (H ltac:(now rewrite Split_allowed) _ V5).
    + rewrite (validateMetadata_spec_aux (m 8%nat)), B8.
      now destruct (negb (m 8%nat =? "")).
  - rewrite (validateMetadata_spec_aux (m 8%nat)), B8.
    now destruct (negb (m 8%nat =? "")).
Qed.

Lemma New_errors_witness :
  New "1.99999999999999999999" = inr (ErrParsingSegment strconv.ErrRange) /\
  New "1.2.3-00" = inr ErrSegmentStartsZero /\
  (ErrSegmentStartsZero = ErrInvalidSemVer \/
   ErrSegmentStartsZero = ErrParsingSegment strconv.ErrRange \/
   ErrSegmentStartsZero = ErrSegmentStartsZero).
Proof.
  split; [ reflexivity | ]. split; [ reflexivity | ].
  apply (New_errors "1.2.3-00"). reflexivity.
Defined.

(** ** The search finds every match *)

Lemma succeeds_orElse_l (a b : option regexp.submatches) :
  succeeds a -> succeeds (regexp.orElse a b).
Proof. intros [res ->]. now exists res. Qed.

Lemma succeeds_orElse_r (a b : option regexp.submatches) :
  succeeds b -> succeeds (regexp.orElse a b).
Proof.
  intros [res ->]. destruct a as [ res' | ]; [ now exists res' | now exists res ].
Qed.

Lemma starLoop_stop body (k : regexp.cont) fuel s m :
  succeeds (k s m) -> succeeds (regexp.starLoop body k fuel s m).
Proof.
  intros H. destruct fuel; cbn [regexp.starLoop];
    [ exact H | now apply succeeds_orElse_r ].
Qed.

(** If the expression matches a prefix and the continuation succeeds on
    the rest whatever the submatches, the search succeeds. *)
Lemma run_complete_aux r x m m' :
  Matches r x m m' ->
  (forall m0 s' (k : regexp.cont),
      (forall m1, succeeds (k s' m1)) ->
      succeeds (regexp.run r (x ++ s') m0 k)) /\
  (forall r1, r = regexp.Star r1 ->
     forall fuel m0 s' (k : regexp.cont),
       (String.length (x ++ s') <= fuel)%nat ->
       (forall m1, succeeds (k s' m1)) ->
       succeeds (regexp.starLoop (regexp.run r1) k fuel (x ++ s') m0)).
Proof.
  induction 1 as [ c m | p c m Hc
                 | r1 r2 x y m m1 m2 _ [IH1 _] _ [IH2 _]
                 | r x m m1 _ [IH _] | r m | r m
                 | r x y m m1 m2 _ [IH1 _] _ [_ IH2]
                 | i r x m m1 _ [IH _] ].
  - split; [ | discriminate ]. intros m0 s' k Hk.
    cbn. rewrite Ascii.eqb_refl. apply Hk.
  - split; [ | discriminate ]. intros m0 s' k Hk.
    cbn. rewrite Hc. apply Hk.
  - split; [ | discriminate ]. intros m0 s' k Hk.
    rewrite app_assoc_string. cbn [regexp.run].
    apply IH1. intros m3. now apply IH2.
  - split; [ | discriminate ]. intros m0 s' k Hk.
    cbn [regexp.run]. apply succeeds_orElse_l. now apply IH.
  - split; [ | discriminate ]. intros m0 s' k Hk.
    cbn [regexp.run append]. apply succeeds_orElse_r. apply Hk.
  - split.
    + intros m0 s' k Hk. cbn [regexp.run append]. apply starLoop_stop, Hk.
    + intros r1 _ fuel m0 s' k _ Hk. cbn [append]. apply starLoop_stop, Hk.
  - assert (Hstar :
      forall fuel m0 s' (k : regexp.cont),
        (String.length ((x ++ y) ++ s') <= fuel)%nat ->
        (forall m3, succeeds (k s' m3)) ->
        succeeds (regexp.starLoop (regexp.run r) k fuel ((x ++ y) ++ s') m0)).
    { intros fuel m0 s' k Hfuel Hk.
      destruct x as [ | c x ].
      - cbn [append] in *. now apply (IH2 r eq_refl).
      - destruct fuel as [ | fuel ]; [ cbn in Hfuel; lia | ].
        cbn [regexp.starLoop]. apply succeeds_orElse_l.
        rewrite app_assoc_string. apply IH1. intros m3.
        assert (Hlt : (String.length (y ++ s')
                       <? String.length (String c x ++ y ++ s'))%nat = true).
        { apply Nat.ltb_lt. cbn [append String.length].
          rewrite (length_append x). lia. }
        rewrite Hlt.
        rewrite app_assoc_string in Hfuel. cbn [append String.length] in Hfuel.
        rewrite (length_append x) in Hfuel.
        apply (IH2 r eq_refl); [ lia | exact Hk ]. }
    split.
    + intros m0 s' k Hk. cbn [regexp.run]. now apply Hstar.
    + intros r1 [= <-]. exact Hstar.
  - split; [ | discriminate ]. intros m0 s' k Hk.
    cbn [regexp.run]. apply IH. intros m3. apply Hk.
Qed.

Lemma FindStringSubmatch_complete r x m' :
  Matches r x regexp.noSubmatch m' ->
  succeeds (regexp.FindStringSubmatch r x).
Proof.
  intros H. unfold regexp.FindStringSubmatch.
  rewrite <- (append_nil_r x) at 1.
  apply (proj1 (run_complete_aux _ _ _ _ H)).
  intros m1. now eexists.
Qed.

(** ** Building a match of the expression of versions *)

Lemma Matches_star_set_intro (p : ascii -> bool) (d : string) :
  allOf p d = true ->
  forall m, Matches (regexp.Star (regexp.Set_ p)) d m m.
Proof.
  induction d as [ | c d IH ]; intros H m; [ constructor | ].
  cbn in H. apply andb_true_iff in H. destruct H as [Hc Hd].
  change (String c d) with (String c "" ++ d).
  apply MStarCons with (m1 := m); [ now constructor | now apply IH ].
Qed.

Lemma Matches_plus_set_intro (p : ascii -> bool) (d : string) :
  d <> "" -> allOf p d = true ->
  forall m, Matches (regexp.Plus (regexp.Set_ p)) d m m.
Proof.
  intros Hne H m. destruct d as [ | c d ]; [ congruence | ].
  cbn in H. apply andb_true_iff in H. destruct H as [Hc Hd].
  change (String c d) with (String c "" ++ d). unfold regexp.Plus.
  apply MCat with (m1 := m);
    [ now constructor | now apply Matches_star_set_intro ].
Qed.

Lemma Matches_dotted (g : nat) (ids : list string) :
  Forall (fun i => i <> "" /\ allOf isAllowed i = true) ids ->
  forall m,
  exists m',
    Matches (regexp.Star (regexp.Group g
               (regexp.Cat (regexp.Chr ".")
                           (regexp.Plus (regexp.Set_ isAllowed)))))
            (dotted ids) m m'.
Proof.
  induction 1 as [ | i ids [Hne Hi] _ IH ]; intros m.
  - exists m. constructor.
  - destruct (IH (regexp.setSub g (String "." i) m)) as [m' Hm'].
    exists m'. cbn [dotted].
    change (String "." (i ++ dotted ids)) with (String "." i ++ dotted ids).
    apply MStarCons with (m1 := regexp.setSub g (String "." i) m);
      [ | exact Hm' ].
    constructor. change (String "." i) with (String "." "" ++ i).
    apply MCat with (m1 := m);
      [ constructor | now apply Matches_plus_set_intro ].
Qed.

Lemma Join_dotted (ids : list string) :
  forall i, strings.Join (i :: ids) "." = i ++ dotted ids.
Proof.
  induction ids as [ | j ids IH ]; intros i.
  - cbn. now rewrite append_nil_r.
  - change (strings.Join (i :: j :: ids) ".")
      with (i ++ String "." (strings.Join (j :: ids) ".")).
    now rewrite IH.
Qed.

Lemma Matches_identifiers_intro (g : nat) (p : string) :
  p <> "" -> identifiersNonEmpty p = true -> allOf extraByte p = true ->
  forall m, exists m', Matches (identifiers g) p m m'.
Proof.
  intros Hne Hid Hb m. unfold identifiersNonEmpty in Hid.
  apply String.eqb_neq in Hne. rewrite Hne in Hid. cbn in Hid.
  rewrite <- Split_allowed in Hb.
  pose proof (Join_Split p ".") as HJ.
  destruct (strings.Split p ".") as [ | i ids ] eqn:ES;
    [ now apply Split_not_nil in ES | ].
  rewrite Join_dotted in HJ. rewrite <- HJ.
  cbn in Hid, Hb. apply andb_true_iff in Hid, Hb.
  destruct Hid as [Hi Hids], Hb as [Bi Bids].
  apply negb_true_iff, String.eqb_neq in Hi.
  assert (HF : Forall (fun i => i <> "" /\ allOf isAllowed i = true) ids).
  { apply Forall_forall. intros j Hj.
    rewrite forallb_forall in Hids, Bids. split.
    - now apply String.eqb_neq, negb_true_iff, Hids.
    - now apply Bids. }
  destruct (Matches_dotted g ids HF m) as [m' Hm'].
  exists m'. unfold identifiers.
  apply MCat with (m1 := m);
    [ now apply Matches_plus_set_intro | exact Hm' ].
Qed.

Lemma Matches_optExtra (c : ascii) (g gi gin : nat) (p : string) :
  identifiersNonEmpty p = true -> allOf extraByte p = true ->
  forall m,
  exists m',
    Matches (regexp.Opt (regexp.Group g
               (regexp.Cat (regexp.Chr c)
                           (regexp.Group gi (identifiers gin)))))
            (optText c p) m m'.
Proof.
  intros Hid Hb m. unfold optText.
  destruct (p =? "") eqn:E; cbn [negb].
  - exists m. apply MOptNone.
  - apply String.eqb_neq in E.
    destruct (Matches_identifiers_intro gin p E Hid Hb m) as [m' Hm'].
    eexists. apply MOptSome. constructor.
    change (String c p) with (String c "" ++ p).
    apply MCat with (m1 := m); [ constructor | ].
    constructor. exact Hm'.
Qed.

Lemma Matches_optNumber (g : nat) (d : string) :
  numeral d ->
  forall m,
    Matches (regexp.Opt (regexp.Group g
               (regexp.Cat (regexp.Chr ".")
                           (regexp.Plus (regexp.Set_ isNum)))))
            (String "." d) m (regexp.setSub g (String "." d) m).
Proof.
  intros [Hne Hd] m. apply MOptSome. constructor.
  change (String "." d) with (String "." "" ++ d).
  apply MCat with (m1 := m);
    [ constructor | now apply Matches_plus_set_intro ].
Qed.

(** The expression matches an optional [v] and three numerals followed by
    an optional prerelease and optional metadata of non-empty
    identifiers. *)
Lemma Matches_semVerRegex (vp fM fm fp p q : string) :
  (vp = "" \/ vp = "v") ->
  numeral fM -> numeral fm -> numeral fp ->
  identifiersNonEmpty p = true -> allOf extraByte p = true ->
  identifiersNonEmpty q = true -> allOf extraByte q = true ->
  exists m',
    Matches semVerRegex
      (vp ++ fM ++ String "." (fm ++ String "." (fp
          ++ (optText "-" p ++ optText "+" q))))
      regexp.noSubmatch m'.
Proof.
  intros Hvp HM Hm Hp Ip Bp Iq Bq.
  set (m0 := regexp.noSubmatch).
  set (m1 := regexp.setSub 1 fM m0).
  set (m2 := regexp.setSub 2 (String "." fm) m1).
  set (m3 := regexp.setSub 3 (String "." fp) m2).
  destruct (Matches_optExtra "-" 4 5 6 p Ip Bp m3) as [m4 H4].
  destruct (Matches_optExtra "+" 7 8 9 q Iq Bq m4) as [m5 H5].
  exists m5. unfold semVerRegex.
  apply MCat with (m1 := m0).
  { destruct Hvp as [-> | ->]; [ apply MOptNone | apply MOptSome; constructor ]. }
  apply MCat with (m1 := m1).
  { constructor. destruct HM. now apply Matches_plus_set_intro. }
  change (String "." (fm ++ String "." (fp ++ optText "-" p ++ optText "+" q)))
    with (String "." fm ++ (String "." fp ++ (optText "-" p ++ optText "+" q))).
  apply MCat with (m1 := m2); [ now apply Matches_optNumber | ].
  apply MCat with (m1 := m3); [ now apply Matches_optNumber | ].
  apply MCat with (m1 := m4); assumption.
Qed.

(** ** Parsing what [String()] writes *)

Lemma decValue_ge_acc (s : string) :
  allOf strconv.isDigit s = true -> forall a, (a <= decValue s a)%N.
Proof.
  intros H a. destruct (decValue_bounds s H a) as [Hlo _].
  pose proof (pow10_pos (String.length s)). nia.
Qed.

Lemma parseLoop_complete (s : string) :
  forall a,
    allOf strconv.isDigit s = true ->
    (decValue s a <= strconv.maxUint64)%N ->
    strconv.parseLoop s a = inl (decValue s a).
Proof.
  induction s as [ | c s IH ]; intros a Hd Hmax; [ reflexivity | ].
  cbn in Hd. apply andb_true_iff in Hd. destruct Hd as [Hc Hs].
  cbn [decValue] in Hmax.
  pose proof (decValue_ge_acc s Hs (a * 10 + strconv.digitVal c)) as Hge.
  cbn [strconv.parseLoop decValue]. rewrite Hc. cbv zeta.
  unfold strconv.maxUint64 in *.
  assert (Hcut : (strconv.cutoff <=? a)%N = false).
  { apply N.leb_gt. unfold strconv.cutoff, strconv.maxUint64.
    change (18446744073709551615 / 10 + 1)%N with 1844674407370955162%N.
    lia. }
  rewrite Hcut.
  rewrite (N.mod_small (a * 10 + strconv.digitVal c))
    by (change (2 ^ 64)%N with 18446744073709551616%N; lia).
  replace ((a * 10 + strconv.digitVal c <? a * 10)%N) with false
    by (symmetry; apply N.ltb_ge; lia).
  replace ((18446744073709551615 <? a * 10 + strconv.digitVal c)%N)
    with false by (symmetry; apply N.ltb_ge; lia).
  cbn [orb]. now apply IH.
Qed.

Lemma ParseUint_formatUint_complete (n : N) :
  (n <= strconv.maxUint64)%N ->
  strconv.ParseUint (fmt.formatUint n) = inl n.
Proof.
  intros H. destruct (formatUint_spec n) as [[Hne Hd] Hv].
  unfold strconv.ParseUint.
  destruct (fmt.formatUint n) as [ | c d ] eqn:E; [ congruence | ].
  rewrite <- Hv. apply parseLoop_complete; [ exact Hd | ].
  now rewrite Hv.
Qed.

Lemma run_unique (p : ascii -> bool) (d1 : string) :
  forall d2 r1 r2,
    allOf p d1 = true -> allOf p d2 = true ->
    noneAhead p r1 -> noneAhead p r2 ->
    d1 ++ r1 = d2 ++ r2 -> d1 = d2 /\ r1 = r2.
Proof.
  induction d1 as [ | c d1 IH ]; intros [ | c' d2 ] r1 r2 H1 H2 N1 N2 E;
    cbn in E.
  - now split.
  - subst r1. cbn in N1, H2. apply andb_true_iff in H2. destruct H2. congruence.
  - subst r2. cbn in N2, H1. apply andb_true_iff in H1. destruct H1. congruence.
  - injection E as -> E. cbn in H1, H2.
    apply andb_true_iff in H1, H2. destruct H1 as [_ H1], H2 as [_ H2].
    destruct (IH d2 r1 r2 H1 H2 N1 N2 E) as [-> ->]. now split.
Qed.

Lemma optExtra_optText (c : ascii) (x g q : string) :
  optExtra c x g -> x = optText c q -> g = q.
Proof.
  unfold optText. intros [[-> ->] | [-> Hg]] E.
  - destruct (q =? "") eqn:Eq; cbn in E; [ | discriminate ].
    symmetry. now apply String.eqb_eq.
  - destruct (q =? "") eqn:Eq; cbn in E; [ discriminate | ].
    now injection E.
Qed.

Lemma optText_plus_noneAhead (q : string) :
  noneAhead extraByte (optText "+" q).
Proof. unfold optText. now destruct (negb (q =? "")). Qed.

Lemma optExtra_plus_noneAhead (x g : string) :
  optExtra "+" x g -> noneAhead extraByte x.
Proof. now intros [[-> _] | [-> _]]. Qed.

(** The prerelease and the metadata are read back as they were written. *)
Lemma tail_unique (x4 x7 g5 g8 p q : string) :
  optExtra "-" x4 g5 -> optExtra "+" x7 g8 ->
  allOf extraByte g5 = true -> allOf extraByte p = true ->
  x4 ++ x7 = optText "-" p ++ optText "+" q ->
  g5 = p /\ g8 = q.
Proof.
  intros O5 O8 B5 Bp E.
  pose proof (optText_plus_noneAhead q) as Nq.
  pose proof (optExtra_plus_noneAhead _ _ O8) as N7.
  assert (H : g5 = p /\ x7 = optText "+" q).
  { unfold optText at 1 in E.
    destruct O5 as [[-> ->] | [-> Hg]];
      destruct (p =? "") eqn:Ep; cbn [negb append] in E.
    - apply String.eqb_eq in Ep. now split.
    - exfalso. destruct O8 as [[-> _] | [-> _]]; discriminate.
    - exfalso. unfold optText in E.
      destruct (negb (q =? "")); discriminate.
    - injection E as E.
      now apply (run_unique extraByte g5 p x7 (optText "+" q)). }
  destruct H as [-> H]. split; [ reflexivity | ].
  now apply (optExtra_optText "+" x7 g8 q).
Qed.

Lemma String_shape_optText (w : Class) :
  version.String w
  = fmt.formatUint (major w)
      ++ String "." (fmt.formatUint (minor w)
      ++ String "." (fmt.formatUint (patch w)
      ++ (optText "-" (pre w) ++ optText "+" (metadata w)))).
Proof. reflexivity. Qed.

Lemma validatePrerelease_extraByte (p : string) :
  validatePrerelease p = None -> allOf extraByte p = true.
Proof.
  unfold validatePrerelease. intros H.
  apply (proj1 (validatePrereleaseParts_spec _)) in H.
  destruct H as [H _]. now rewrite Split_allowed in H.
Qed.

Lemma validateMetadata_extraByte (m : string) :
  validateMetadata m = None -> allOf extraByte m = true.
Proof.
  rewrite validateMetadata_spec_aux.
  now destruct (allOf extraByte m).
Qed.

Lemma New_String_aux (vp : string) (w : Class) :
  (vp = "" \/ vp = "v") -> wellFormed w ->
  New (vp ++ version.String w)
  = inl (mkClass (major w) (minor w) (patch w) (pre w) (metadata w)
                 (vp ++ version.String w)).
Proof.
  intros Hvp ((RM & Rm & Rp) & Vp & Ip & Vq & Iq).
  pose proof (validatePrerelease_extraByte _ Vp) as Bp.
  pose proof (validateMetadata_extraByte _ Vq) as Bq.
  destruct (formatUint_spec (major w)) as [HM _].
  destruct (formatUint_spec (minor w)) as [Hm _].
  destruct (formatUint_spec (patch w)) as [Hp _].
  set (s := vp ++ version.String w).
  assert (Hs : succeeds (ClassRegex s)).
  { destruct (Matches_semVerRegex vp _ _ _ (pre w) (metadata w)
                Hvp HM Hm Hp Ip Bp Iq Bq) as [m' HMatch].
    subst s. rewrite String_shape_optText.
    now apply (FindStringSubmatch_complete _ _ m'). }
  destruct Hs as [m Hm0]. unfold New. rewrite Hm0.
  destruct (ClassRegex_extraBytes s m Hm0) as [B5 _].
  apply ClassRegex_sound in Hm0.
  destruct Hm0 as (vp' & d1 & x2 & x3 & x4 & x7 & Hs' & Hvp' & Hd1 & E1
                   & O2 & O3 & O5 & O8).
  assert (E : vp ++ version.String w = vp' ++ d1 ++ x2 ++ x3 ++ x4 ++ x7)
    by exact Hs'.
  rewrite String_shape_optText in E.
  apply strip_v in E; try assumption. destruct E as [_ E].
  assert (Htw : noDigitAhead (optText "-" (pre w) ++ optText "+" (metadata w))).
  { unfold optText. destruct (negb (pre w =? "")); [ reflexivity | ].
    destruct (negb (metadata w =? "")); [ reflexivity | exact I ]. }
  apply (shape_unique _ _ _ _ _ _ _ _ _ _ _ _ _ HM Hm Hp Htw Hd1 O2 O3 O5 O8)
    in E.
  destruct E as (Ed1 & E2 & E3 & Etw).
  destruct (tail_unique _ _ _ _ _ _ O5 O8 B5 Bp Etw) as [E5 E8].
  rewrite E1, Ed1, E2, E3, E5, E8, !optSegment_dot.
  rewrite !ParseUint_formatUint_complete by assumption.
  unfold validateExtra. cbn [pre metadata]. rewrite Vp, Vq.
  now destruct (negb (pre w =? "")), (negb (metadata w =? "")).
Qed.

(** X12: what [String()] writes for a well-formed version (numbers in
    range, valid prerelease and metadata without empty identifiers),
    with or without a leading [v], is accepted by [New], which returns
    the same major, minor, patch, prerelease and metadata, and the
    parsed string as [original]. *)
Theorem New_of_formatted (vp : string) (w : Class) :
  (vp = "" \/ vp = "v") -> wellFormed w ->
  exists v,
    New (vp ++ version.String w) = inl v /\
    major v = major w /\ minor v = minor w /\ patch v = patch w /\
    pre v = pre w /\ metadata v = metadata w /\
    original v = vp ++ version.String w /\
    version.String v = version.String w.
Proof.
  intros Hvp Hw. eexists. split; [ now apply New_String_aux | ].
  now repeat split.
Qed.

Lemma New_of_formatted_witness :
  exists v,
    New "v18446744073709551615.0.7-rc.0.x-1+2024.build" = inl v /\
    major v = strconv.maxUint64 /\ pre v = "rc.0.x-1" /\
    metadata v = "2024.build".
Proof.
  destruct (New_of_formatted
              "v" (mkClass strconv.maxUint64 0 7 "rc.0.x-1" "2024.build" ""))
    as (v & HN & Hj & _ & _ & Hp & Hq & _).
  - now right.
  - repeat split; vm_compute; congruence.
  - exists v. split; [ exact HN | ]. now repeat split.
Defined.

(** ** The strict parser on what [String()] writes *)

Lemma Cut_app (sep : ascii) (a b : string) :
  allOf (fun c => negb (Ascii.eqb c sep)) a = true ->
  strings.Cut (a ++ String sep b) sep = Some (a, b).
Proof.
  induction a as [ | c a IH ]; intros H; cbn.
  - now rewrite Ascii.eqb_refl.
  - cbn in H. apply andb_true_iff in H. destruct H as [Hc Ha].
    apply negb_true_iff in Hc. now rewrite Hc, (IH Ha).
Qed.

Lemma Cut_none (sep : ascii) (a : string) :
  allOf (fun c => negb (Ascii.eqb c sep)) a = true ->
  strings.Cut a sep = None.
Proof.
  induction a as [ | c a IH ]; intros H; cbn; [ reflexivity | ].
  cbn in H. apply andb_true_iff in H. destruct H as [Hc Ha].
  apply negb_true_iff in Hc. now rewrite Hc, (IH Ha).
Qed.

Lemma isDigit_not (sep : ascii) (d : string) :
  strconv.isDigit sep = false ->
  allOf strconv.isDigit d = true ->
  allOf (fun c => negb (Ascii.eqb c sep)) d = true.
Proof.
  intros Hsep. apply allOf_impl. intros c Hc.
  apply negb_true_iff, Ascii.eqb_neq. intros ->. congruence.
Qed.

Lemma extraByte_not_plus (p : string) :
  allOf extraByte p = true ->
  allOf (fun c => negb (Ascii.eqb c "+")) p = true.
Proof.
  apply allOf_impl. intros c Hc.
  apply negb_true_iff, Ascii.eqb_neq. intros ->. discriminate.
Qed.

Lemma ContainsAny_digits (d t : string) :
  allOf strconv.isDigit d = true ->
  strings.ContainsAny (d ++ t) "-+" = strings.ContainsAny t "-+".
Proof.
  induction d as [ | c d IH ]; intros H; [ reflexivity | ].
  cbn in H. apply andb_true_iff in H. destruct H as [Hc Hd].
  cbn [append strings.ContainsAny strings.ContainsRune].
  rewrite (IH Hd).
  replace (Ascii.eqb "-" c) with false
    by (symmetry; apply Ascii.eqb_neq; intros <-; discriminate).
  replace (Ascii.eqb "+" c) with false
    by (symmetry; apply Ascii.eqb_neq; intros <-; discriminate).
  reflexivity.
Qed.

Lemma checkSegments_numerals (fM fm fp : string) :
  numeral fM -> numeral fm -> numeral fp ->
  leadingZero fM = false -> leadingZero fm = false ->
  leadingZero fp = false ->
  checkSegments [fM; fm; fp] = None.
Proof.
  intros HM Hm Hp ZM Zm Zp.
  apply numeral_allOf in HM, Hm, Hp.
  unfold leadingZero in ZM, Zm, Zp.
  rewrite containsOnly_num in ZM, Zm, Zp.
  rewrite HM in ZM. rewrite Hm in Zm. rewrite Hp in Zp.
  cbn [andb] in ZM, Zm, Zp.
  cbn [checkSegments]. rewrite !containsOnly_num, HM, Hm, Hp, ZM, Zm, Zp.
  reflexivity.
Qed.

Lemma SplitN_formatted (fM fm rest : string) :
  numeral fM -> numeral fm ->
  strings.SplitN (fM ++ String "." (fm ++ String "." rest)) "." 3
  = [fM; fm; rest].
Proof.
  intros HM Hm. apply numeral_allOf in HM, Hm.
  cbn [strings.SplitN].
  rewrite (Cut_app "." fM) by (now apply isDigit_not).
  rewrite (Cut_app "." fm) by (now apply isDigit_not).
  reflexivity.
Qed.

Lemma StrictNew_String_aux (w : Class) :
  numbersInRange w ->
  validatePrerelease (pre w) = None -> validateMetadata (metadata w) = None ->
  StrictNew (version.String w)
  = inl (mkClass (major w) (minor w) (patch w) (pre w) (metadata w)
                 (version.String w)).
Proof.
  intros (RM & Rm & Rp) Vp Vq.
  pose proof (validatePrerelease_extraByte _ Vp) as Bp.
  destruct (formatUint_spec (major w)) as [HM _].
  destruct (formatUint_spec (minor w)) as [Hm _].
  destruct (formatUint_spec (patch w)) as [Hp _].
  pose proof (formatUint_leadingZero (major w)) as ZM.
  pose proof (formatUint_leadingZero (minor w)) as Zm.
  pose proof (formatUint_leadingZero (patch w)) as Zp.
  pose proof (numeral_allOf _ Hp) as Dp.
  unfold StrictNew.
  assert (Hlen : (String.length (version.String w) =? 0)%nat = false).
  { rewrite String_shape_optText.
    destruct (numeral_head _ HM) as (c & d & -> & _). reflexivity. }
  rewrite Hlen. rewrite String_shape_optText at 1.
  rewrite (SplitN_formatted _ _ _ HM Hm).
  set (fp := fmt.formatUint (patch w)) in *.
  set (sv := mkClass (major w) (minor w) (patch w) (pre w) (metadata w)
                     (version.String w)).
  assert (Hparts :
    (if strings.ContainsAny
          (fp ++ optText "-" (pre w) ++ optText "+" (metadata w)) "-+"
     then
       let '(md, p2) :=
         match strings.SplitN
                 (fp ++ optText "-" (pre w) ++ optText "+" (metadata w))
                 "+" 2 with
         | e0 :: e1 :: _ => (e1, e0)
         | _ => (EmptyString,
                 fp ++ optText "-" (pre w) ++ optText "+" (metadata w))
         end in
       match strings.SplitN p2 "-" 2 with
       | e0 :: e1 :: _ => (md, e1, e0)
       | _ => (md, EmptyString, p2)
       end
     else (EmptyString, EmptyString,
           fp ++ optText "-" (pre w) ++ optText "+" (metadata w)))
    = (metadata w, pre w, fp)).
  { rewrite (ContainsAny_digits fp _ Dp). unfold optText.
    destruct (pre w =? "") eqn:Ep, (metadata w =? "") eqn:Eq;
      cbn [negb append strings.ContainsAny strings.ContainsRune
           Ascii.eqb Bool.eqb orb];
      try apply String.eqb_eq in Ep; try apply String.eqb_eq in Eq.
    - now rewrite Ep, Eq, append_nil_r.
    - cbn [strings.SplitN].
      rewrite (Cut_app "+" fp) by (now apply isDigit_not).
      rewrite (Cut_none "-" fp) by (now apply isDigit_not).
      now rewrite Ep.
    - cbn [strings.SplitN]. rewrite append_nil_r.
      rewrite (Cut_none "+" (fp ++ String "-" (pre w))).
      2:{ rewrite allOf_app. cbn [allOf].
          rewrite (isDigit_not "+" fp), (extraByte_not_plus _ Bp) by easy.
          reflexivity. }
      rewrite (Cut_app "-" fp) by (now apply isDigit_not).
      now rewrite Eq.
    - cbn [strings.SplitN].
      replace (fp ++ String "-" (pre w ++ String "+" (metadata w)))
        with ((fp ++ String "-" (pre w)) ++ String "+" (metadata w))
        by (now rewrite app_assoc_string).
      rewrite (Cut_app "+" (fp ++ String "-" (pre w))).
      2:{ rewrite allOf_app. cbn [allOf].
          rewrite (isDigit_not "+" fp), (extraByte_not_plus _ Bp) by easy.
          reflexivity. }
      rewrite (Cut_app "-" fp) by (now apply isDigit_not).
      reflexivity. }
  rewrite Hparts.
  rewrite (checkSegments_numerals _ _ _ HM Hm Hp ZM Zm Zp).
  subst fp. rewrite !ParseUint_formatUint_complete by assumption.
  fold sv. unfold validateExtra. cbn [pre metadata sv]. rewrite Vp, Vq.
  now destruct (pre w =? ""), (metadata w =? "").
Qed.

(** X13: [StrictNew] accepts what [String()] writes for every version
    with numbers in range whose prerelease and metadata pass their
    validators, and returns the same major, minor, patch, prerelease and
    metadata. *)
Theorem StrictNew_of_formatted (w : Class) :
  numbersInRange w ->
  validatePrerelease (pre w) = None -> validateMetadata (metadata w) = None ->
  StrictNew (version.String w)
  = inl (mkClass (major w) (minor w) (patch w) (pre w) (metadata w)
                 (version.String w)).
Proof. apply StrictNew_String_aux. Qed.

Lemma StrictNew_of_formatted_witness :
  StrictNew "4.0.18446744073709551615-x.7.z-9+exp.sha-5"
  = inl (mkClass 4 0 strconv.maxUint64 "x.7.z-9" "exp.sha-5"
                 "4.0.18446744073709551615-x.7.z-9+exp.sha-5").
Proof.
  apply (StrictNew_of_formatted
           (mkClass 4 0 strconv.maxUint64 "x.7.z-9" "exp.sha-5" "")).
  - repeat split; vm_compute; congruence.
  - reflexivity.
  - reflexivity.
Defined.

(** X14: on what [String()] writes for a well-formed version the strict
    and the lenient parser return the same version. *)
Theorem parsers_agree_on_formatted (w : Class) :
  wellFormed w ->
  StrictNew (version.String w) = New (version.String w).
Proof.
  intros Hw. pose proof (New_String_aux "" w (or_introl eq_refl) Hw) as HN.
  cbn [append] in HN. rewrite HN.
  destruct Hw as (R & Vp & _ & Vq & _). now apply StrictNew_String_aux.
Qed.

Lemma parsers_agree_on_formatted_witness :
  StrictNew "1.2.3-beta.11+f00" = New "1.2.3-beta.11+f00".
Proof.
  apply (parsers_agree_on_formatted (mkClass 1 2 3 "beta.11" "f00" "")).
  repeat split; vm_compute; congruence.
Defined.

(** ** The increments *)

Lemma Compare_numLt (a b : Class) :
  numLt a b ->
  Compare a b = (-1)%Z /\ Compare b a = 1%Z /\
  LessThan a b = true /\ GreaterThan b a = true.
Proof.
  intros H.
  assert (H' : Compare a b = (-1)%Z /\ Compare b a = 1%Z).
  { revert H. unfold numLt, Compare, Major, Minor, Patch. cbv zeta.
    intros [H | [Ej [H | [En H]]]].
    - destruct (compareSegment_lt _ _ H) as [-> ->]. now split.
    - rewrite Ej, !compareSegment_refl. cbn.
      destruct (compareSegment_lt _ _ H) as [-> ->]. now split.
    - rewrite Ej, En, !compareSegment_refl. cbn.
      destruct (compareSegment_lt _ _ H) as [-> ->]. now split. }
  destruct H' as [H1 H2]. unfold LessThan, GreaterThan. rewrite H1, H2.
  now repeat split.
Qed.

Lemma uint64_succ (n : N) :
  (n < strconv.maxUint64)%N -> uint64 (n + 1) = (n + 1)%N.
Proof.
  intros H. unfold uint64. apply N.mod_small.
  unfold strconv.maxUint64 in H.
  change (2 ^ 64)%N with 18446744073709551616%N. lia.
Qed.

Lemma uint64_range (n : N) : (uint64 n <= strconv.maxUint64)%N.
Proof.
  unfold uint64, strconv.maxUint64.
  pose proof (N.mod_lt n (2 ^ 64)%N ltac:(discriminate)) as H.
  change (2 ^ 64)%N with 18446744073709551616%N in *. lia.
Qed.

(** What the increments return, as values. *)
Lemma IncPatch_value (st : store) (v : ptr) :
  fst (IncPatch v st)
  = let c := st v in
    let r := mkClass (major c) (minor c)
                     (if negb (pre c =? "") then patch c
                      else uint64 (patch c + 1)) "" "" "" in
    mkClass (major r) (minor r) (patch r) "" ""
            (originalVPrefix c ++ version.String r).
Proof.
  step_store. destruct (negb (pre (st v) =? "")); cbn;
    rewrite ?Nat.eqb_refl; reflexivity.
Qed.

Lemma IncMinor_value (st : store) (v : ptr) :
  fst (IncMinor v st)
  = let c := st v in
    let r := mkClass (major c) (uint64 (minor c + 1)) 0 "" "" "" in
    mkClass (major r) (minor r) (patch r) "" ""
            (originalVPrefix c ++ version.String r).
Proof. step_store. cbn. rewrite ?Nat.eqb_refl. reflexivity. Qed.

Lemma IncMajor_value (st : store) (v : ptr) :
  fst (IncMajor v st)
  = let c := st v in
    let r := mkClass (uint64 (major c + 1)) 0 0 "" "" "" in
    mkClass (major r) (minor r) (patch r) "" ""
            (originalVPrefix c ++ version.String r).
Proof. step_store. cbn. rewrite ?Nat.eqb_refl. reflexivity. Qed.

(** X15: [IncMinor] returns a version without prerelease and metadata,
    with patch [0], the same major and the minor plus one (in [uint64]
    arithmetic); unless the minor was the largest [uint64], the result is
    above the version it was called on. *)
Theorem IncMinor_spec (st : store) (v : ptr) :
  let c := st v in
  let r := fst (IncMinor v st) in
  pre r = "" /\ metadata r = "" /\ patch r = 0%N /\
  major r = major c /\ minor r = uint64 (minor c + 1) /\
  ((minor c < strconv.maxUint64)%N ->
   minor r = (minor c + 1)%N /\
   GreaterThan r c = true /\ LessThan c r = true).
Proof.
  intros c r. subst c r. rewrite IncMinor_value. cbv zeta.
  cbn [major minor patch pre metadata].
  repeat (split; [ reflexivity | ]).
  intros H. rewrite (uint64_succ _ H). split; [ reflexivity | ].
  match goal with
  | |- GreaterThan ?r ?c = true /\ _ =>
      destruct (Compare_numLt c r) as (_ & _ & H1 & H2)
  end.
  - right. split; [ reflexivity | left ]. cbn [minor]. lia.
  - now split.
Qed.

Lemma IncMinor_spec_witness :
  let c := mkClass 1 2 3 "rc.1" "b" "v1.2.3-rc.1+b" in
  let r := fst (IncMinor 0 (holding c)) in
  minor r = 3%N /\ GreaterThan r c = true /\ LessThan c r = true.
Proof.
  intros c r.
  destruct (IncMinor_spec (holding c) 0) as (_ & _ & _ & _ & _ & H).
  apply H. reflexivity.
Defined.

(** X16: [IncMajor] returns a version without prerelease and metadata,
    with minor and patch [0] and the major plus one (in [uint64]
    arithmetic); unless the major was the largest [uint64], the result is
    above the version it was called on. *)
Theorem IncMajor_spec (st : store) (v : ptr) :
  let c := st v in
  let r := fst (IncMajor v st) in
  pre r = "" /\ metadata r = "" /\ patch r = 0%N /\ minor r = 0%N /\
  major r = uint64 (major c + 1) /\
  ((major c < strconv.maxUint64)%N ->
   major r = (major c + 1)%N /\
   GreaterThan r c = true /\ LessThan c r = true).
Proof.
  intros c r. subst c r. rewrite IncMajor_value. cbv zeta.
  cbn [major minor patch pre metadata].
  repeat (split; [ reflexivity | ]).
  intros H. rewrite (uint64_succ _ H). split; [ reflexivity | ].
  match goal with
  | |- GreaterThan ?r ?c = true /\ _ =>
      destruct (Compare_numLt c r) as (_ & _ & H1 & H2)
  end.
  - left. cbn [major]. lia.
  - now split.
Qed.

Lemma IncMajor_spec_witness :
  let c := mkClass 1 2 3 "" "" "1.2.3" in
  let r := fst (IncMajor 0 (holding c)) in
  major r = 2%N /\ GreaterThan r c = true /\ LessThan c r = true.
Proof.
  intros c r.
  destruct (IncMajor_spec (holding c) 0) as (_ & _ & _ & _ & _ & H).
  apply H. reflexivity.
Defined.

(** X17: what [IncPatch] returns is above the version it was called on,
    when that one has a prerelease or its patch is not the largest
    [uint64]. *)
Theorem IncPatch_greater (st : store) (v : ptr) :
  let c := st v in
  let r := fst (IncPatch v st) in
  pre c <> "" \/ (patch c < strconv.maxUint64)%N ->
  GreaterThan r c = true /\ LessThan c r = true.
Proof.
  intros c r. subst c r. rewrite IncPatch_value. cbv zeta.
  cbn [major minor patch pre metadata]. intros H.
  destruct (pre (st v) =? "") eqn:E; cbn [negb].
  - apply String.eqb_eq in E. destruct H as [H | H]; [ congruence | ].
    rewrite (uint64_succ _ H).
    match goal with
    | |- GreaterThan ?r ?c = true /\ _ =>
        destruct (Compare_numLt c r) as (_ & _ & H1 & H2)
    end.
    + right. split; [ reflexivity | right ].
      split; [ reflexivity | cbn [patch]; lia ].
    + now split.
  - apply String.eqb_neq in E.
    match goal with
    | |- GreaterThan ?r ?c = true /\ _ =>
        assert (HC : Compare c r = (-1)%Z /\ Compare r c = 1%Z)
    end.
    { rewrite !Compare_numEq by (now repeat split). cbn [pre].
      apply String.eqb_neq in E. now rewrite E. }
    destruct HC as [H1 H2]. unfold GreaterThan, LessThan.
    now rewrite H1, H2.
Qed.

Lemma IncPatch_greater_witness :
  let c := mkClass 1 2 18446744073709551615 "rc.1" "" "1.2.18446744073709551615-rc.1" in
  let r := fst (IncPatch 0 (holding c)) in
  GreaterThan r c = true /\ LessThan c r = true.
Proof.
  intros c r. apply (IncPatch_greater (holding c) 0). left. discriminate.
Defined.

(** ** What a derivation returns parses to itself *)

Lemma originalVPrefix_cases (c : Class) :
  originalVPrefix c = "" \/ originalVPrefix c = "v".
Proof.
  unfold originalVPrefix. destruct (original c) as [ | a rest ];
    [ now left | ].
  cbn. destruct rest; cbn.
  - destruct (Ascii.eqb a "v") eqn:E; [ | now left ].
    apply Ascii.eqb_eq in E. subst a. now right.
  - destruct (Ascii.eqb a "v") eqn:E; [ | now left ].
    apply Ascii.eqb_eq in E. subst a. now right.
Qed.

Lemma reparse (vp : string) (r : Class) :
  (vp = "" \/ vp = "v") -> wellFormed r ->
  original r = vp ++ version.String r ->
  New (original r) = inl r.
Proof.
  intros Hvp Hw Ho. rewrite Ho at 1. rewrite (New_String_aux vp r Hvp Hw).
  rewrite <- Ho. now destruct r.
Qed.

(** X18: on a version with numbers in range, what [IncPatch], [IncMinor]
    and [IncMajor] return carries as [original] a string that [New]
    parses to exactly the returned version (a leading [v] of the old
    [original] is kept). *)
Theorem increments_reparse (st : store) (v : ptr) :
  numbersInRange (st v) ->
  New (original (fst (IncPatch v st))) = inl (fst (IncPatch v st)) /\
  New (original (fst (IncMinor v st))) = inl (fst (IncMinor v st)) /\
  New (original (fst (IncMajor v st))) = inl (fst (IncMajor v st)).
Proof.
  intros (RM & Rm & Rp).
  pose proof (originalVPrefix_cases (st v)) as Hvp.
  assert (Z0 : (0 <= strconv.maxUint64)%N) by discriminate.
  rewrite IncPatch_value, IncMinor_value, IncMajor_value. cbv zeta.
  cbn [major minor patch].
  split; [ | split ];
    apply (reparse (originalVPrefix (st v))); try exact Hvp;
    try reflexivity;
    (split; [ | now repeat split ]); cbn [major minor patch];
    repeat split; try assumption; try apply uint64_range.
  destruct (negb (pre (st v) =? "")); [ assumption | apply uint64_range ].
Qed.

Lemma increments_reparse_witness :
  let c := mkClass 1 2 3 "rc.1" "b" "v1.2.3-rc.1+b" in
  original (fst (IncMinor 0 (holding c))) = "v1.3.0" /\
  New "v1.3.0" = inl (fst (IncMinor 0 (holding c))).
Proof.
  intros c.
  destruct (increments_reparse (holding c) 0) as (_ & H & _).
  - repeat split; vm_compute; congruence.
  - split; [ reflexivity | exact H ].
Defined.

(** ** [SetMetadata] *)

(** X19: with metadata that [validateMetadata] accepts (the empty one
    included), [SetMetadata] returns no error and a version with that
    metadata and the major, minor, patch and prerelease of the receiver;
    the result is [Equal] to the old version and [Compare]s like it with
    every version. *)
Theorem SetMetadata_spec (st : store) (v : ptr) (m : string) :
  validateMetadata m = None ->
  let c := st v in
  let r := fst (fst (SetMetadata v m st)) in
  snd (fst (SetMetadata v m st)) = None /\
  metadata r = m /\ major r = major c /\ minor r = minor c /\
  patch r = patch c /\ pre r = pre c /\
  original r = originalVPrefix c ++ version.String r /\
  Equal r c = true /\
  (forall x, Compare r x = Compare c x /\ Compare x r = Compare x c).
Proof.
  intros Hm c r. subst c r. unfold SetMetadata. rewrite Hm.
  replace (if (0 <? String.length m)%nat then None else None)
    with (@None error) by now destruct (0 <? String.length m)%nat.
  step_store. cbn. rewrite ?Nat.eqb_refl. cbn.
  repeat (split; [ reflexivity | ]).
  split; [ | intros x; split; reflexivity ].
  unfold Equal. apply Z.eqb_eq.
  etransitivity; [ | apply (Compare_refl (st v)) ]. reflexivity.
Qed.

Lemma SetMetadata_spec_witness :
  let c := mkClass 1 2 3 "rc.1" "old" "v1.2.3-rc.1+old" in
  let r := fst (fst (SetMetadata 0 "build.7" (holding c))) in
  metadata r = "build.7" /\ original r = "v1.2.3-rc.1+build.7" /\
  Equal r c = true.
Proof.
  intros c r.
  destruct (SetMetadata_spec (holding c) 0 "build.7")
    as (_ & H1 & _ & _ & _ & _ & _ & H2 & _).
  - reflexivity.
  - split; [ exact H1 | ]. split; [ reflexivity | exact H2 ].
Defined.

(** ** Encoding and decoding *)

(** X20: [MarshalText] returns what [String()] writes, without error and
    without writing to the store, and [UnmarshalText] on that text, for a
    well-formed version, returns no error and leaves in its receiver the
    same major, minor, patch, prerelease and metadata, with the text as
    [original]. *)
Theorem text_roundtrip (st : store) (v u : ptr) :
  wellFormed (st v) ->
  let c := st v in
  MarshalText v st = ((version.String c, None), st) /\
  fst (UnmarshalText u (version.String c) st) = None /\
  snd (UnmarshalText u (version.String c) st) u
  = parsedAs c (version.String c) /\
  version.String (snd (UnmarshalText u (version.String c) st) u)
  = version.String c.
Proof.
  intros Hw c. subst c. split; [ reflexivity | ].
  pose proof (New_String_aux "" (st v) (or_introl eq_refl) Hw) as HN.
  cbn [append] in HN. unfold UnmarshalText. rewrite HN.
  step_store. now repeat split.
Qed.

Lemma text_roundtrip_witness :
  let c := mkClass 1 2 3 "rc.1" "b7" "v1.2.3-rc.1+b7" in
  let st := holding c in
  fst (fst (MarshalText 0 st)) = "1.2.3-rc.1+b7" /\
  snd (UnmarshalText 1 "1.2.3-rc.1+b7" st) 1
  = mkClass 1 2 3 "rc.1" "b7" "1.2.3-rc.1+b7".
Proof.
  intros c st.
  destruct (text_roundtrip st 0 1) as (H1 & _ & H3 & _).
  - repeat split; vm_compute; congruence.
  - split; [ reflexivity | exact H3 ].
Defined.

(** X21: [MarshalJSON] returns what [json.Marshal] returns for the text
    [String()] writes, error included, and leaves the store as it was;
    for a well-formed version, when [json.Unmarshal] reads that text back
    from the bytes [json.Marshal] gave for it, [UnmarshalJSON] on those
    bytes returns no error and leaves in its receiver the same major,
    minor, patch, prerelease and metadata. *)
Theorem json_roundtrip
        (json_Marshal json_Unmarshal : string -> string + error)
        (st : store) (v u : ptr) :
  let c := st v in
  MarshalJSON json_Marshal v st = (json_Marshal (version.String c), st) /\
  forall b,
    wellFormed c ->
    json_Marshal (version.String c) = inl b ->
    json_Unmarshal b = inl (version.String c) ->
    fst (UnmarshalJSON json_Unmarshal u b st) = None /\
    snd (UnmarshalJSON json_Unmarshal u b st) u
    = parsedAs c (version.String c).
Proof.
  intros c. subst c. split; [ reflexivity | ].
  intros b Hw Hb Hback.
  pose proof (New_String_aux "" (st v) (or_introl eq_refl) Hw) as HN.
  cbn [append] in HN. unfold UnmarshalJSON.
  rewrite Hback, HN.
  split; [ reflexivity | ].
  change (snd ((copyFields u (parsedAs (st v) (version.String (st v)))
                ;; ret None) st))
    with (snd (copyFields u (parsedAs (st v) (version.String (st v))) st)).
  apply copyFields_same.
Qed.

Lemma json_roundtrip_witness :
  let c := mkClass 0 9 0 "" "sha.5" "0.9.0+sha.5" in
  let quote := String "034" "" in
  let json_Marshal := fun s : string => @inl string error (quote ++ s ++ quote) in
  let json_Unmarshal :=
    fun b : string => @inl string error (substring 1 (String.length b - 2) b) in
  fst (MarshalJSON json_Marshal 0 (holding c))
  = inl (quote ++ "0.9.0+sha.5" ++ quote) /\
  snd (UnmarshalJSON json_Unmarshal 1 (quote ++ "0.9.0+sha.5" ++ quote)
                     (holding c)) 1 = c.
Proof.
  intros c quote json_Marshal json_Unmarshal.
  destruct (json_roundtrip json_Marshal json_Unmarshal (holding c) 0 1)
    as (H1 & H2).
  split; [ rewrite H1; reflexivity | ].
  refine (proj2 (H2 (quote ++ "0.9.0+sha.5" ++ quote) _ eq_refl eq_refl)).
  repeat split; vm_compute; congruence.
Defined.

(** X22: [Value()] returns what [String()] writes as a string value,
    without error, and [Scan] on that value, for a well-formed version,
    returns no error and leaves in its receiver the same major, minor,
    patch, prerelease and metadata. *)
Theorem sql_roundtrip (st : store) (v u : ptr) :
  wellFormed (st v) ->
  let c := st v in
  Value_ v st = ((VString (version.String c), None), st) /\
  fst (Scan u (VString (version.String c)) st) = None /\
  snd (Scan u (VString (version.String c)) st) u
  = parsedAs c (version.String c).
Proof.
  intros Hw c. subst c. split; [ reflexivity | ].
  pose proof (New_String_aux "" (st v) (or_introl eq_refl) Hw) as HN.
  cbn [append] in HN. unfold Scan. cbn [assertString]. rewrite HN.
  split; [ reflexivity | ].
  change (snd ((copyFields u (parsedAs (st v) (version.String (st v)))
                ;; ret None) st))
    with (snd (copyFields u (parsedAs (st v) (version.String (st v))) st)).
  apply copyFields_same.
Qed.

Lemma sql_roundtrip_witness :
  let c := mkClass 3 0 0 "alpha" "" "3.0.0-alpha" in
  snd (Scan 1 (VString "3.0.0-alpha") (holding c)) 1 = c.
Proof.
  intros c.
  destruct (sql_roundtrip (holding c) 0 1) as (_ & _ & H).
  - repeat split; vm_compute; congruence.
  - exact H.
Defined.

(** ** The validators of package [pkg] *)

Lemma ClassRegex_alphabet (s : string) (m : regexp.submatches) :
  ClassRegex s = Some m -> allOf versionByte s = true.
Proof.
  unfold ClassRegex, regexp.FindStringSubmatch. intros R.
  apply run_sound in R. destruct R as (x & s' & m' & -> & HM & Hk).
  destruct s' as [ | ? ? ]; [ | discriminate ].
  rewrite append_nil_r.
  apply (allOf_impl (accepts semVerRegex));
    [ apply accepts_semVerRegex | now apply (Matches_accepts _ _ _ _ HM) ].
Qed.

Lemma New_foreign_byte (s : string) :
  allOf versionByte s = false -> New s = inr ErrInvalidSemVer.
Proof.
  intros H. unfold New.
  destruct (ClassRegex s) as [ m | ] eqn:E; [ | reflexivity ].
  apply ClassRegex_alphabet in E. congruence.
Qed.

(** X23: the [semver] validator of [pkg] never returns [false]: it
    returns [true] when [New] accepts its input and panics with the error
    of [New] otherwise; it panics on every input with a byte that is no
    byte of a version, hence on every line that still has its line end.
    A name other than [none], [empty] and [semver] has no validator. *)
Theorem pkg_semver_validator :
  exists f,
    pkg.getValidator "semver" = Some f /\
    (forall st, f st = Returned true \/ exists e, f st = Panics e) /\
    (forall st v, New st = inl v -> f st = Returned true) /\
    (forall st e, New st = inr e -> f st = Panics e) /\
    (forall st, allOf versionByte st = false ->
                f st = Panics ErrInvalidSemVer) /\
    (forall line, f (line ++ String "010" "") = Panics ErrInvalidSemVer) /\
    (forall name, name <> "none" -> name <> "empty" -> name <> "semver" ->
                  pkg.getValidator name = None).
Proof.
  eexists. split; [ reflexivity | ].
  assert (Hok : forall st v,
             New st = inl v ->
             match MustParse st with
             | Panics err => Panics err
             | Returned _ => @Returned error bool true
             end = Returned true)
    by (intros st v H; unfold MustParse; now rewrite H).
  assert (Herr : forall st e,
             New st = inr e ->
             match MustParse st with
             | Panics err => Panics err
             | Returned _ => @Returned error bool true
             end = Panics e)
    by (intros st e H; unfold MustParse; now rewrite H).
  split; [ | split; [ exact Hok | split; [ exact Herr | ] ] ].
  - intros st. destruct (New st) as [ v | e ] eqn:E;
      [ left; now apply (Hok st v) | right; exists e; now apply Herr ].
  - split; [ | split ].
    + intros st H. now apply Herr, New_foreign_byte.
    + intros line. apply Herr, New_foreign_byte.
      rewrite allOf_app. cbn. apply andb_false_r.
    + intros name H1 H2 H3. unfold pkg.getValidator.
      apply String.eqb_neq in H1, H2, H3. now rewrite H1, H2, H3.
Qed.

Lemma pkg_semver_validator_witness :
  exists f,
    pkg.getValidator "semver" = Some f /\
    f "1.2.3" = Returned true /\
    f "1.2.3 " = Panics ErrInvalidSemVer /\
    f "1.2.3-01" = Panics ErrSegmentStartsZero.
Proof.
  destruct pkg_semver_validator as (f & Hf & _ & Hok & Herr & Hbyte & _).
  exists f. split; [ exact Hf | ].
  split; [ apply (Hok "1.2.3" (mkClass 1 2 3 "" "" "1.2.3")); reflexivity | ].
  split; [ apply Hbyte; reflexivity | apply Herr; reflexivity ].
Defined.

(** ** Architectures *)

Lemma lib_contains_In (s : list string) (x : string) :
  lib.contains s x = true <-> In x s.
Proof.
  induction s as [ | v s IH ]; cbn; [ now split | ].
  destruct (v =? x) eqn:E.
  - apply String.eqb_eq in E. subst. split; [ now left | reflexivity ].
  - apply String.eqb_neq in E. rewrite IH. split; [ now right | ].
    intros [H | H]; [ congruence | exact H ].
Qed.

Lemma pkg_contains_lib (s : list string) (x : string) :
  pkg.contains s x = lib.contains s x.
Proof. induction s as [ | v s IH ]; cbn; [ reflexivity | now rewrite IH ]. Qed.

(** X24: [contains] (of [lib] and of [pkg]) returns [true] exactly when
    the string is an element of the list. *)
Theorem contains_spec (s : list string) (x : string) :
  (lib.contains s x = true <-> In x s) /\
  (pkg.contains s x = true <-> In x s).
Proof.
  split; [ apply lib_contains_In | ].
  rewrite pkg_contains_lib. apply lib_contains_In.
Qed.

Lemma contains_spec_witness :
  lib.contains ["key1"; "key2"; "key3"] "key2" = true /\
  pkg.contains ["key1"; "key2"; "key3"] "key4" = false.
Proof.
  split.
  - apply (proj1 (contains_spec _ _)). right; left. reflexivity.
  - reflexivity.
Defined.

Section Architectures.

Variable TrimSpace : string -> string.

Lemma lib_archLoop_spec (archList : list string) (al : list string) :
  forall lst out,
    lib.archLoop TrimSpace archList al lst out
    = ((lst ++ filter (knownArch archList) (map TrimSpace al))%list,
       (out ++ map lib.ignoredMessage
                   (filter (fun t => negb (knownArch archList t))
                           (map TrimSpace al)))%list).
Proof.
  induction al as [ | a al IH ]; intros lst out.
  - cbn. now rewrite !app_nil_r.
  - cbn [lib.archLoop map filter]. cbv zeta.
    fold (knownArch archList (TrimSpace a)).
    destruct (knownArch archList (TrimSpace a)); cbn [negb]; rewrite IH.
    + now rewrite <- app_assoc.
    + now rewrite <- app_assoc.
Qed.

(** X25: [archValid] of [lib] panics on a blank input; otherwise it
    returns, never with an error, the trimmed pieces between commas that
    are non-empty members of [archList], in their order, and prints one
    message for each other piece and one more when nothing is kept; so
    every architecture it returns is in [archList]. *)
Theorem lib_archValid_spec (st : string) (archList : list string) :
  let pieces := map TrimSpace (strings.Split st ",") in
  let kept := filter (knownArch archList) pieces in
  (String.length (TrimSpace st) = 0%nat ->
   lib.archValid TrimSpace st archList = Panics "Empty arch list") /\
  (String.length (TrimSpace st) <> 0%nat ->
   lib.archValid TrimSpace st archList
   = Returned
       (kept, None,
        (map lib.ignoredMessage
             (filter (fun t => negb (knownArch archList t)) pieces)
           ++ (if (List.length kept =? 0)%nat
               then [lib.noArchMessage] else []))%list) /\
   Forall (fun x => In x archList /\ x <> "") kept).
Proof.
  intros pieces kept. unfold lib.archValid. split.
  - intros H. now rewrite H.
  - intros H. apply Nat.eqb_neq in H. rewrite H.
    rewrite lib_archLoop_spec. cbn [app].
    fold pieces. fold kept. split.
    + destruct (List.length kept =? 0)%nat; [ reflexivity | ].
      now rewrite app_nil_r.
    + apply Forall_forall. intros x Hx. subst kept.
      apply filter_In in Hx. destruct Hx as [_ Hx].
      unfold knownArch in Hx. apply andb_true_iff in Hx.
      destruct Hx as [Hlen Hin]. split; [ now apply lib_contains_In | ].
      intros ->. discriminate.
Qed.

Lemma pkg_archLoop_spec (al : list string) :
  forall lst,
    pkg.archLoop TrimSpace al lst
    = match find (fun t => negb (knownArch pkg.arch t)) (map TrimSpace al) with
      | None => ((lst ++ map TrimSpace al)%list, None)
      | Some bad => ([], Some ("invalid architecture specification: " ++ bad))
      end.
Proof.
  induction al as [ | a al IH ]; intros lst.
  - cbn. now rewrite app_nil_r.
  - cbn [pkg.archLoop map find]. cbv zeta.
    rewrite (pkg_contains_lib pkg.arch (TrimSpace a)).
    fold (knownArch pkg.arch (TrimSpace a)).
    destruct (knownArch pkg.arch (TrimSpace a)); cbn [negb].
    + rewrite IH. destruct (find _ _); [ reflexivity | ].
      now rewrite <- app_assoc.
    + reflexivity.
Qed.

(** X26: [archValid] of [pkg] panics on a blank input; otherwise, when
    every trimmed piece between commas is a known architecture it returns
    them all, in their order and without error, and else it returns no
    list and the error that names the first piece that is not. *)
Theorem pkg_archValid_spec (st : string) :
  let pieces := map TrimSpace (strings.Split st ",") in
  (String.length (TrimSpace st) = 0%nat ->
   pkg.archValid TrimSpace st = Panics "Empty arch list") /\
  (String.length (TrimSpace st) <> 0%nat ->
   (forallb (knownArch pkg.arch) pieces = true ->
    pkg.archValid TrimSpace st = Returned (pieces, None) /\
    Forall (fun x => In x pkg.arch) pieces) /\
   (forall good bad rest,
       pieces = (good ++ bad :: rest)%list ->
       forallb (knownArch pkg.arch) good = true ->
       knownArch pkg.arch bad = false ->
       pkg.archValid TrimSpace st
       = Returned ([], Some ("invalid architecture specification: " ++ bad)))).
Proof.
  intros pieces. unfold pkg.archValid. split.
  - intros H. now rewrite H.
  - intros H. apply Nat.eqb_neq in H. rewrite H.
    rewrite pkg_archLoop_spec. fold pieces. cbn [app]. split.
    + intros Hall. split.
      * destruct (find _ pieces) as [ bad | ] eqn:F; [ | reflexivity ].
        apply find_some in F. destruct F as [Hin Hbad].
        rewrite forallb_forall in Hall. rewrite (Hall _ Hin) in Hbad.
        discriminate.
      * apply Forall_forall. intros x Hx.
        rewrite forallb_forall in Hall. specialize (Hall _ Hx).
        unfold knownArch in Hall. apply andb_true_iff in Hall.
        now apply lib_contains_In.
    + intros good bad rest -> Hgood Hbad.
      replace (find (fun t => negb (knownArch pkg.arch t))
                    (good ++ bad :: rest)%list) with (Some bad);
        [ reflexivity | ].
      symmetry. clear H. induction good as [ | g good IH ]; cbn.
      * now rewrite Hbad.
      * cbn in Hgood. apply andb_true_iff in Hgood.
        destruct Hgood as [Hg Hgood]. rewrite Hg. cbn. now apply IH.
Qed.

End Architectures.

Lemma lib_archValid_spec_witness :
  let tArch := ["linux_amd64"; "linux_arm64"; "darwin_amd64";
                "darwin_arm64"; "windows"] in
  lib.archValid asciiTrimSpace "linux_amd64, darwin_arm64,not-found" tArch
  = Returned (["linux_amd64"; "darwin_arm64"], None,
              [lib.ignoredMessage "not-found"]) /\
  lib.archValid asciiTrimSpace "  " tArch = Panics "Empty arch list".
Proof.
  intros tArch.
  destruct (lib_archValid_spec asciiTrimSpace
              "linux_amd64, darwin_arm64,not-found" tArch) as [_ H].
  destruct (lib_archValid_spec asciiTrimSpace "  " tArch) as [H0 _].
  split; [ | apply H0; reflexivity ].
  destruct H as [H _]; [ discriminate | ].
  etransitivity; [ exact H | reflexivity ].
Defined.

Lemma pkg_archValid_spec_witness :
  pkg.archValid asciiTrimSpace "linux_amd64, windows"
  = Returned (["linux_amd64"; "windows"], None) /\
  pkg.archValid asciiTrimSpace "linux_amd64, plan9 ,windows"
  = Returned ([], Some "invalid architecture specification: plan9").
Proof.
  destruct (pkg_archValid_spec asciiTrimSpace "linux_amd64, windows")
    as [_ H1].
  destruct (pkg_archValid_spec asciiTrimSpace "linux_amd64, plan9 ,windows")
    as [_ H2].
  split.
  - destruct H1 as [H1 _]; [ discriminate | ].
    destruct (H1 eq_refl) as [H1' _].
    etransitivity; [ exact H1' | reflexivity ].
  - destruct H2 as [_ H2]; [ discriminate | ].
    apply (H2 ["linux_amd64"] "plan9" ["windows"]); reflexivity.
Defined.
